(** * Mapping assistant: mapping store, command parser, similarity scorer
      and instruction processor

    A shallow embedding of

    - [lib/mapping-store]        (zustand store: mappings and conflicts),
    - [lib/mapping-commands]     (MappingCommandParser),
    - the sample-mapping generator (calculateFieldSimilarity,
      levenshteinDistance),
    - [lib/ai-mapping-processor] (AIMappingProcessor),

    followed by the properties established about them.

    Modelling conventions.

    - A JavaScript string is a [string]: a sequence of code units in the
      Latin-1 range (0..255).  [toLowerCase], [trim] and the regular
      expression class [\s] are given for that range.  The message literals
      of the processor that contain symbols outside Latin-1 are kept as the
      bytes of the source file.
    - A JavaScript number is an exact rational ([Q]); the constants the code
      compares against (0.5, 0.6, 0.9, 1) are exact, rounding of IEEE doubles
      is not modelled.
    - [new Date().toISOString()], [Date.now()] and [Math.random()] read an
      oracle indexed by a tick counter that every read advances.
    - A JavaScript [Map] is an association list in insertion order. *)

From Stdlib Require Import Bool Arith List Lia PeanoNat.
From Stdlib Require Import Ascii String.
From Stdlib Require Import ZArith QArith Qround Qminmax Lqa.
Import ListNotations.

Set Implicit Arguments.
Close Scope Q_scope.
Local Open Scope string_scope.
Local Open Scope list_scope.
Local Open Scope nat_scope.

(* ================================================================== *)
(** ** Characters and strings *)
(* ================================================================== *)

Module Str.

(** Code of a character. *)
Definition code (c : ascii) : nat := nat_of_ascii c.

(** [String.prototype.toLowerCase] on one Latin-1 code unit: A-Z and the
    accented capitals 192..222 (except the multiplication sign 215) move up
    by 32. *)
Definition lower_char (c : ascii) : ascii :=
  let n := code c in
  if ((65 <=? n) && (n <=? 90)) ||
     ((192 <=? n) && (n <=? 222) && negb (n =? 215))
  then ascii_of_nat (n + 32) else c.

Fixpoint toLowerCase (s : string) : string :=
  match s with
  | EmptyString => EmptyString
  | String c s' => String (lower_char c) (toLowerCase s')
  end.

(** White space of [\s] and of [trim]: TAB, LF, VT, FF, CR, space, NBSP. *)
Definition is_space (c : ascii) : bool :=
  let n := code c in
  ((9 <=? n) && (n <=? 13)) || (n =? 32) || (n =? 160).

Fixpoint trimStart (s : string) : string :=
  match s with
  | EmptyString => EmptyString
  | String c s' => if is_space c then trimStart s' else s
  end.

Fixpoint trimEnd (s : string) : string :=
  match s with
  | EmptyString => EmptyString
  | String c s' =>
      match trimEnd s' with
      | EmptyString => if is_space c then EmptyString else String c EmptyString
      | t => String c t
      end
  end.

Definition trim (s : string) : string := trimEnd (trimStart s).

(** [s.startsWith(p)] returning the rest of [s]. *)
Fixpoint strip_prefix (p s : string) : option string :=
  match p, s with
  | EmptyString, _ => Some s
  | String a p', String b s' =>
      if Ascii.eqb a b then strip_prefix p' s' else None
  | String _ _, EmptyString => None
  end.

Definition startsWith (p s : string) : bool :=
  match strip_prefix p s with Some _ => true | None => false end.

(** [s.includes(p)]: [p] occurs in [s] as a contiguous substring. *)
Fixpoint includes (s p : string) : bool :=
  startsWith p s ||
  match s with
  | EmptyString => false
  | String _ s' => includes s' p
  end.

(** [s.replace(/[_-]/g, empty)]: underscores and hyphens are dropped. *)
Fixpoint strip_separators (s : string) : string :=
  match s with
  | EmptyString => EmptyString
  | String c s' =>
      if Ascii.eqb c "_" || Ascii.eqb c "-" then strip_separators s'
      else String c (strip_separators s')
  end.

(** [xs.join(sep)]. *)
Fixpoint join (sep : string) (xs : list string) : string :=
  match xs with
  | [] => EmptyString
  | [x] => x
  | x :: rest => x ++ sep ++ join sep rest
  end.

(** The double quote, for template literals that embed one. *)
Definition dq : string := String "034" EmptyString.

(** Decimal printing of a natural number (template literal of an integer). *)
Definition digit_char (d : nat) : ascii := ascii_of_nat (48 + d).

Fixpoint nat_digits (fuel n : nat) (acc : string) : string :=
  match fuel with
  | O => acc
  | S fuel' =>
      let acc' := String (digit_char (n mod 10)) acc in
      if n / 10 =? 0 then acc' else nat_digits fuel' (n / 10) acc'
  end.

Definition string_of_nat (n : nat) : string := nat_digits (S n) n EmptyString.

Definition string_of_Z (z : Z) : string :=
  match z with
  | Zneg p => "-" ++ string_of_nat (Pos.to_nat p)
  | _ => string_of_nat (Z.to_nat z)
  end.

End Str.

(* ================================================================== *)
(** ** Similarity scorer (sample-mapping generator) *)
(* ================================================================== *)

Module Similarity.

(** One row of the dynamic-programming matrix of [levenshteinDistance]:
    [prev] is [matrix[j-1][i-1 ..]], [left] is [matrix[j][i-1]], [c2] is
    [str2[j-1]]; the result is [matrix[j][i ..]]. *)
Fixpoint lev_row (c2 : ascii) (str1 : string) (prev : list nat) (left : nat)
  : list nat :=
  match str1, prev with
  | String c1 rest, diag :: ((up :: _) as prev') =>
      let indicator := if Ascii.eqb c1 c2 then 0 else 1 in
      let v := Nat.min (Nat.min (left + 1) (up + 1)) (diag + indicator) in
      v :: lev_row c2 rest prev' v
  | _, _ => []
  end.

(** Rows [1 .. str2.length]; row [j] starts with [matrix[j][0] = j]. *)
Fixpoint lev_rows (str2 str1 : string) (j : nat) (prev : list nat) : list nat :=
  match str2 with
  | EmptyString => prev
  | String c2 rest =>
      lev_rows rest str1 (S j) (S j :: lev_row c2 str1 prev (S j))
  end.

(** [matrix[str2.length][str1.length]]; row 0 is [0, 1, .., str1.length]. *)
Definition levenshteinDistance (str1 str2 : string) : nat :=
  last (lev_rows str2 str1 0 (seq 0 (S (String.length str1)))) 0.

Definition normalize (field : string) : string :=
  Str.strip_separators (Str.toLowerCase field).

Definition commonWords : list string :=
  ["id"; "name"; "email"; "phone"; "address"; "date"; "time"; "user";
   "customer"; "order"].

Definition shares_common_word (f1 f2 : string) : bool :=
  existsb (fun word => Str.includes f1 word && Str.includes f2 word) commonWords.

Definition Qnat (n : nat) : Q := inject_Z (Z.of_nat n).

(** [calculateFieldSimilarity] of the sample-mapping generator. *)
Definition calculateFieldSimilarity (field1 field2 : string) : Q :=
  let f1 := normalize field1 in
  let f2 := normalize field2 in
  if String.eqb f1 f2 then 1%Q
  else if Str.includes f1 f2 || Str.includes f2 f1 then (8 # 10)%Q
  else if shares_common_word f1 f2 then (6 # 10)%Q
  else
    let distance := levenshteinDistance f1 f2 in
    let maxLength := Nat.max (String.length f1) (String.length f2) in
    Qmax 0%Q (1 - Qnat distance / Qnat maxLength)%Q.

End Similarity.

(* ================================================================== *)
(** ** Mapping store (lib/mapping-store) *)
(* ================================================================== *)

Module Store.

Inductive Status := active | pending | conflict | disabled.

Definition Status_eqb (a b : Status) : bool :=
  match a, b with
  | active, active | pending, pending
  | conflict, conflict | disabled, disabled => true
  | _, _ => false
  end.

Inductive ConflictType :=
  duplicate_source | duplicate_target | circular_reference | type_mismatch.

(** [MappingSuggestion] (lib/mapping-schemas).  [transformation_type] is a
    string: the processor stores a parsed token there through an [as any]
    cast, so the field is not confined to the enumeration at run time. *)
Record MappingSuggestion := {
  s_source_field : string;
  s_target_field : string;
  s_transformation_type : string;
  s_confidence : Q;
  s_reasoning : string;
  s_transformation_logic : string;
  s_potential_issues : list string;
  s_sample_transformation : option (string * string)
}.

Record DynamicMapping := {
  id : string;
  source_field : string;
  target_field : string;
  transformation_type : string;
  confidence : Q;
  reasoning : string;
  transformation_logic : string;
  potential_issues : list string;
  sample_transformation : option (string * string);
  status : Status;
  created_at : string;
  updated_at : string;
  user_modified : bool;
  original_mapping : option MappingSuggestion;
  conflict_reason : option string;
  user_command : option string
}.

(** [Partial<DynamicMapping>]: [None] is an absent key. *)
Record Partial := {
  p_id : option string;
  p_source_field : option string;
  p_target_field : option string;
  p_transformation_type : option string;
  p_confidence : option Q;
  p_reasoning : option string;
  p_transformation_logic : option string;
  p_potential_issues : option (list string);
  p_sample_transformation : option (option (string * string));
  p_status : option Status;
  p_created_at : option string;
  p_updated_at : option string;
  p_user_modified : option bool;
  p_original_mapping : option (option MappingSuggestion);
  p_conflict_reason : option (option string);
  p_user_command : option (option string)
}.

Definition no_updates : Partial :=
  {| p_id := None; p_source_field := None; p_target_field := None;
     p_transformation_type := None; p_confidence := None;
     p_reasoning := None; p_transformation_logic := None;
     p_potential_issues := None; p_sample_transformation := None;
     p_status := None; p_created_at := None; p_updated_at := None;
     p_user_modified := None; p_original_mapping := None;
     p_conflict_reason := None; p_user_command := None |}.

Definition over {A} (new : option A) (old : A) : A :=
  match new with Some v => v | None => old end.

(** Object spread [{ ...mapping, ...updates }]. *)
Definition spread (m : DynamicMapping) (u : Partial) : DynamicMapping :=
  {| id := over (p_id u) (id m);
     source_field := over (p_source_field u) (source_field m);
     target_field := over (p_target_field u) (target_field m);
     transformation_type := over (p_transformation_type u) (transformation_type m);
     confidence := over (p_confidence u) (confidence m);
     reasoning := over (p_reasoning u) (reasoning m);
     transformation_logic := over (p_transformation_logic u) (transformation_logic m);
     potential_issues := over (p_potential_issues u) (potential_issues m);
     sample_transformation := over (p_sample_transformation u) (sample_transformation m);
     status := over (p_status u) (status m);
     created_at := over (p_created_at u) (created_at m);
     updated_at := over (p_updated_at u) (updated_at m);
     user_modified := over (p_user_modified u) (user_modified m);
     original_mapping := over (p_original_mapping u) (original_mapping m);
     conflict_reason := over (p_conflict_reason u) (conflict_reason m);
     user_command := over (p_user_command u) (user_command m) |}.

Definition set_status (m : DynamicMapping) (st : Status) : DynamicMapping :=
  spread m {| p_id := None; p_source_field := None; p_target_field := None;
     p_transformation_type := None; p_confidence := None;
     p_reasoning := None; p_transformation_logic := None;
     p_potential_issues := None; p_sample_transformation := None;
     p_status := Some st; p_created_at := None; p_updated_at := None;
     p_user_modified := None; p_original_mapping := None;
     p_conflict_reason := None; p_user_command := None |}.

Definition set_updated_at (m : DynamicMapping) (t : string) : DynamicMapping :=
  spread m {| p_id := None; p_source_field := None; p_target_field := None;
     p_transformation_type := None; p_confidence := None;
     p_reasoning := None; p_transformation_logic := None;
     p_potential_issues := None; p_sample_transformation := None;
     p_status := None; p_created_at := None; p_updated_at := Some t;
     p_user_modified := None; p_original_mapping := None;
     p_conflict_reason := None; p_user_command := None |}.

Definition set_user_modified (m : DynamicMapping) (b : bool) : DynamicMapping :=
  spread m {| p_id := None; p_source_field := None; p_target_field := None;
     p_transformation_type := None; p_confidence := None;
     p_reasoning := None; p_transformation_logic := None;
     p_potential_issues := None; p_sample_transformation := None;
     p_status := None; p_created_at := None; p_updated_at := None;
     p_user_modified := Some b; p_original_mapping := None;
     p_conflict_reason := None; p_user_command := None |}.

Record MappingConflict := {
  c_id : string;
  c_type : ConflictType;
  c_description : string;
  affected_mappings : list string;
  suggested_resolution : string
}.

Record State := {
  mappings : list DynamicMapping;
  conflicts : list MappingConflict;
  documentId : option string
}.

Definition initial : State :=
  {| mappings := []; conflicts := []; documentId := None |}.

(** The clock and the random source the store reads. *)
Record Oracle := {
  isoString : nat -> string;   (* new Date().toISOString() *)
  dateNow : nat -> string;     (* Date.now(), printed *)
  randomId : nat -> string     (* Math.random().toString(36).substr(2, 9) *)
}.

(** The store singleton together with the oracle and its read counter. *)
Record World := {
  store : State;
  tick : nat;
  oracle : Oracle
}.

Definition with_store (w : World) (s : State) : World :=
  {| store := s; tick := tick w; oracle := oracle w |}.

Definition now (w : World) : string := isoString (oracle w) (tick w).

Definition advance (w : World) : World :=
  {| store := store w; tick := S (tick w); oracle := oracle w |}.

(** [xs.includes(x)] on an array of strings. *)
Definition includes_id (xs : list string) (x : string) : bool :=
  existsb (String.eqb x) xs.

(** *** JavaScript [Map<string, string[]>] in insertion order *)

Definition JsMap := list (string * list string).

Fixpoint map_get (k : string) (m : JsMap) : option (list string) :=
  match m with
  | [] => None
  | (k', v) :: m' => if String.eqb k k' then Some v else map_get k m'
  end.

(** [m.set(k, v)]: an existing key keeps its position. *)
Fixpoint map_set (k : string) (v : list string) (m : JsMap) : JsMap :=
  match m with
  | [] => [(k, v)]
  | (k', v') :: m' =>
      if String.eqb k k' then (k, v) :: m' else (k', v') :: map_set k v m'
  end.

Definition is_active (m : DynamicMapping) : bool := Status_eqb (status m) active.

(** The [forEach] that fills [sourceFieldCounts] / [targetFieldCounts]. *)
Definition count_step (key : DynamicMapping -> string)
  (acc : JsMap) (m : DynamicMapping) : JsMap :=
  if is_active m then
    let existing := match map_get (key m) acc with Some l => l | None => [] end in
    map_set (key m) (existing ++ [id m]) acc
  else acc.

Definition fieldCounts (key : DynamicMapping -> string)
  (ms : list DynamicMapping) : JsMap :=
  fold_left (count_step key) ms [].

Definition source_conflict (sourceField : string) (mappingIds : list string)
  : MappingConflict :=
  {| c_id := "conflict-duplicate-source-" ++ sourceField;
     c_type := duplicate_source;
     c_description := "Multiple mappings found for source field " ++ Str.dq
                        ++ sourceField ++ Str.dq;
     affected_mappings := mappingIds;
     suggested_resolution :=
       "Keep the most recent mapping or merge the transformations" |}.

Definition target_conflict (targetField : string) (mappingIds : list string)
  : MappingConflict :=
  {| c_id := "conflict-duplicate-target-" ++ targetField;
     c_type := duplicate_target;
     c_description := "Multiple mappings found for target field " ++ Str.dq
                        ++ targetField ++ Str.dq;
     affected_mappings := mappingIds;
     suggested_resolution :=
       "Combine source fields or use different target fields" |}.

(** The [forEach] over a count map that pushes a conflict per key with more
    than one id. *)
Fixpoint push_conflicts (mk : string -> list string -> MappingConflict)
  (m : JsMap) : list MappingConflict :=
  match m with
  | [] => []
  | (field, mappingIds) :: m' =>
      if 1 <? List.length mappingIds
      then mk field mappingIds :: push_conflicts mk m'
      else push_conflicts mk m'
  end.

Definition detect (ms : list DynamicMapping) : list MappingConflict :=
  push_conflicts source_conflict (fieldCounts source_field ms)
  ++ push_conflicts target_conflict (fieldCounts target_field ms).

Definition validateMappings (w : World) : list MappingConflict * World :=
  let s := store w in
  let conflicts := detect (mappings s) in
  (conflicts,
   with_store w {| mappings := mappings s; conflicts := conflicts;
                   documentId := documentId s |}).

(** [setDocumentMappings]: each record reads the clock twice. *)
Definition of_suggestion (documentId : string) (index : nat)
  (s : MappingSuggestion) (created updated : string) : DynamicMapping :=
  {| id := "mapping-" ++ documentId ++ "-" ++ Str.string_of_nat index;
     source_field := s_source_field s;
     target_field := s_target_field s;
     transformation_type := s_transformation_type s;
     confidence := s_confidence s;
     reasoning := s_reasoning s;
     transformation_logic := s_transformation_logic s;
     potential_issues := s_potential_issues s;
     sample_transformation := s_sample_transformation s;
     status := active;
     created_at := created;
     updated_at := updated;
     user_modified := false;
     original_mapping := None;
     conflict_reason := None;
     user_command := None |}.

Fixpoint of_suggestions (o : Oracle) (documentId : string) (index t : nat)
  (l : list MappingSuggestion) : list DynamicMapping * nat :=
  match l with
  | [] => ([], t)
  | s :: rest =>
      let m := of_suggestion documentId index s (isoString o t) (isoString o (S t)) in
      let (ms, t') := of_suggestions o documentId (S index) (S (S t)) rest in
      (m :: ms, t')
  end.

Definition setDocumentMappings (documentId : string)
  (initialMappings : list MappingSuggestion) (w : World) : World :=
  let (ms, t') := of_suggestions (oracle w) documentId 0 (tick w) initialMappings in
  snd (validateMappings
         {| store := {| mappings := ms; conflicts := []; documentId := Some documentId |};
            tick := t'; oracle := oracle w |}).

(** The [map] of [updateMapping]; each matching record reads the clock. *)
Fixpoint update_matching (o : Oracle) (ident : string) (updates : Partial)
  (ms : list DynamicMapping) (t : nat) : list DynamicMapping * nat :=
  match ms with
  | [] => ([], t)
  | m :: rest =>
      if String.eqb (id m) ident then
        let m' := set_user_modified
                    (set_updated_at (spread m updates) (isoString o t)) true in
        let (ms', t') := update_matching o ident updates rest (S t) in
        (m' :: ms', t')
      else
        let (ms', t') := update_matching o ident updates rest t in
        (m :: ms', t')
  end.

Definition updateMapping (ident : string) (updates : Partial) (w : World) : World :=
  let s := store w in
  let (ms, t') := update_matching (oracle w) ident updates (mappings s) (tick w) in
  snd (validateMappings
         {| store := {| mappings := ms; conflicts := conflicts s;
                        documentId := documentId s |};
            tick := t'; oracle := oracle w |}).

(** The argument of [addMapping]: a record without id and timestamps. *)
Record NewMapping := {
  n_source_field : string;
  n_target_field : string;
  n_transformation_type : string;
  n_confidence : Q;
  n_reasoning : string;
  n_transformation_logic : string;
  n_potential_issues : list string;
  n_sample_transformation : option (string * string);
  n_status : Status;
  n_user_modified : bool;
  n_original_mapping : option MappingSuggestion;
  n_conflict_reason : option string;
  n_user_command : option string
}.

Definition fresh_id (w : World) : string :=
  "mapping-" ++ dateNow (oracle w) (tick w) ++ "-"
    ++ randomId (oracle w) (S (tick w)).

Definition addMapping (n : NewMapping) (w : World) : string * World :=
  let o := oracle w in
  let t := tick w in
  let ident := fresh_id w in
  let newMapping :=
    {| id := ident;
       source_field := n_source_field n;
       target_field := n_target_field n;
       transformation_type := n_transformation_type n;
       confidence := n_confidence n;
       reasoning := n_reasoning n;
       transformation_logic := n_transformation_logic n;
       potential_issues := n_potential_issues n;
       sample_transformation := n_sample_transformation n;
       status := n_status n;
       created_at := isoString o (t + 2);
       updated_at := isoString o (t + 3);
       user_modified := n_user_modified n;
       original_mapping := n_original_mapping n;
       conflict_reason := n_conflict_reason n;
       user_command := n_user_command n |} in
  let s := store w in
  (ident,
   snd (validateMappings
          {| store := {| mappings := mappings s ++ [newMapping];
                         conflicts := conflicts s;
                         documentId := documentId s |};
             tick := t + 4; oracle := o |})).

Definition removeMapping (ident : string) (w : World) : World :=
  let s := store w in
  with_store w
    {| mappings := filter (fun m => negb (String.eqb (id m) ident)) (mappings s);
       conflicts := filter (fun c => negb (includes_id (affected_mappings c) ident))
                           (conflicts s);
       documentId := documentId s |}.

Inductive Resolution := accept | reject | modify.

(** The [map] of the modify branch; each affected record reads the clock. *)
Fixpoint modify_affected (o : Oracle) (affected : list string) (data : Partial)
  (ms : list DynamicMapping) (t : nat) : list DynamicMapping * nat :=
  match ms with
  | [] => ([], t)
  | m :: rest =>
      if includes_id affected (id m) then
        let m' := set_updated_at (set_status (spread m data) active)
                                 (isoString o t) in
        let (ms', t') := modify_affected o affected data rest (S t) in
        (m' :: ms', t')
      else
        let (ms', t') := modify_affected o affected data rest t in
        (m :: ms', t')
  end.

Definition resolveConflict (conflictId : string) (resolution : Resolution)
  (data : option Partial) (w : World) : World :=
  let s := store w in
  match find (fun c => String.eqb (c_id c) conflictId) (conflicts s) with
  | None => w
  | Some found =>
      let affected := affected_mappings found in
      let remaining :=
        filter (fun c => negb (String.eqb (c_id c) conflictId)) (conflicts s) in
      let (updatedMappings, t') :=
        match resolution, data with
        | accept, _ =>
            (map (fun m => if includes_id affected (id m)
                           then set_status m active else m) (mappings s),
             tick w)
        | reject, _ =>
            (map (fun m => if includes_id affected (id m)
                           then set_status m disabled else m) (mappings s),
             tick w)
        | modify, Some d =>
            modify_affected (oracle w) affected d (mappings s) (tick w)
        | modify, None => (mappings s, tick w)
        end in
      {| store := {| mappings := updatedMappings; conflicts := remaining;
                     documentId := documentId s |};
         tick := t'; oracle := oracle w |}
  end.

Definition clearMappings (w : World) : World := with_store w initial.

Definition getMappingByFields (sourceField : string) (targetField : option string)
  (w : World) : option DynamicMapping :=
  find (fun m =>
          match targetField with
          | Some t =>
              if negb (String.eqb t EmptyString)
              then String.eqb (source_field m) sourceField
                   && String.eqb (target_field m) t
              else String.eqb (source_field m) sourceField
          | None => String.eqb (source_field m) sourceField
          end) (mappings (store w)).

Definition exportMappings (w : World) : list DynamicMapping :=
  filter is_active (mappings (store w)).

End Store.

(* ================================================================== *)
(** ** Regular expressions of the parser and the processor *)
(* ================================================================== *)

Module Regex.

(** The character classes that occur in the patterns. *)
Inductive cclass :=
| CSpace      (* \s *)
| CQuote      (* one of the three quote characters, written Q below *)
| CTok        (* [^Q\s] *)
| CWord       (* [a-z_] under the i flag *)
| CDigit.     (* \d *)

Definition is_quote (c : ascii) : bool :=
  let n := Str.code c in (n =? 34) || (n =? 96) || (n =? 39).

Definition in_class (k : cclass) (c : ascii) : bool :=
  let n := Str.code c in
  match k with
  | CSpace => Str.is_space c
  | CQuote => is_quote c
  | CTok => negb (is_quote c) && negb (Str.is_space c)
  | CWord => ((97 <=? n) && (n <=? 122)) || ((65 <=? n) && (n <=? 90)) || (n =? 95)
  | CDigit => (48 <=? n) && (n <=? 57)
  end.

(** The fragment of regular expressions the seven command patterns and the
    separator pattern are written in. *)
Inductive regex :=
| RLit (l : string)            (* literal text, matched under the i flag *)
| RCls (k : cclass)            (* one character of a class *)
| RPlus (k : cclass)           (* k+, greedy *)
| ROpt (r : regex)             (* (?:r)?, greedy *)
| RAlt (r1 r2 : regex)         (* r1|r2 *)
| RSeq (r1 r2 : regex)         (* r1 r2 *)
| RGroup (r : regex).          (* (r), capturing *)

(** Literal prefix under the i flag; the literals of the patterns are in
    lower case. *)
Fixpoint strip_lit (l s : string) : option string :=
  match l, s with
  | EmptyString, _ => Some s
  | String a l', String b s' =>
      if Ascii.eqb a (Str.lower_char b) then strip_lit l' s' else None
  | String _ _, EmptyString => None
  end.

(** [k+] in front of continuation [cont]: the longest run is tried first. *)
Fixpoint plus_from {R} (k : cclass) (s : string) (cont : string -> option R)
  : option R :=
  match s with
  | EmptyString => None
  | String c s' =>
      if in_class k c then
        match plus_from k s' cont with
        | Some x => Some x
        | None => cont s'
        end
      else None
  end.

(** The text consumed between input [s] and its suffix [s']. *)
Definition consumed (s s' : string) : string :=
  substring 0 (String.length s - String.length s') s.

(** Backtracking matcher in continuation-passing style: [caps] are the
    captures so far, [cont] matches the rest of the pattern. *)
Fixpoint rmatch {R} (r : regex) (s : string) (caps : list string)
  (cont : string -> list string -> option R) : option R :=
  match r with
  | RLit l =>
      match strip_lit l s with
      | Some s' => cont s' caps
      | None => None
      end
  | RCls k =>
      match s with
      | String c s' => if in_class k c then cont s' caps else None
      | EmptyString => None
      end
  | RPlus k => plus_from k s (fun s' => cont s' caps)
  | ROpt r1 =>
      match rmatch r1 s caps cont with
      | Some x => Some x
      | None => cont s caps
      end
  | RAlt r1 r2 =>
      match rmatch r1 s caps cont with
      | Some x => Some x
      | None => rmatch r2 s caps cont
      end
  | RSeq r1 r2 => rmatch r1 s caps (fun s' caps' => rmatch r2 s' caps' cont)
  | RGroup r1 =>
      rmatch r1 s caps (fun s' caps' => cont s' (caps' ++ [consumed s s']))
  end.

(** A match anchored at the start of [s]: the captures. *)
Definition match_here (r : regex) (s : string) : option (list string) :=
  rmatch r s [] (fun _ caps => Some caps).

(** [s.match(r)] for a pattern without the g flag: leftmost match. *)
Fixpoint search (r : regex) (s : string) : option (list string) :=
  match match_here r s with
  | Some caps => Some caps
  | None =>
      match s with
      | EmptyString => None
      | String _ s' => search r s'
      end
  end.

Fixpoint seq_of (rs : list regex) : regex :=
  match rs with
  | [] => RLit EmptyString
  | [r] => r
  | r :: rest => RSeq r (seq_of rest)
  end.

Definition sp : regex := RPlus CSpace.                       (* \s+ *)
Definition quote_opt : regex := ROpt (RCls CQuote).           (* Q? *)
Definition field_tok : regex := RGroup (RPlus CTok).          (* ([^Q\s]+) *)
Definition word_opt (w : string) : regex :=                   (* (?:w\s+)? *)
  ROpt (RSeq (RLit w) sp).

(** Length of the separator match anchored at the start of [s], if any. *)
Definition match_length (r : regex) (s : string) : option nat :=
  rmatch r s [] (fun s' _ => Some (String.length s - String.length s')).

(** [s.split(r)] for a pattern that has no capture and never matches the
    empty string; [skip] counts the characters of a separator still to be
    dropped, [cur] is the piece being collected. *)
Fixpoint split_go (r : regex) (s : string) (skip : nat) (cur : string)
  : list string :=
  match s with
  | EmptyString => [cur]
  | String c s' =>
      match skip with
      | S k => split_go r s' k cur
      | O =>
          match match_length r s with
          | Some (S k) => cur :: split_go r s' k EmptyString
          | _ => split_go r s' 0 (cur ++ String c EmptyString)
          end
      end
  end.

Definition split (r : regex) (s : string) : list string :=
  split_go r s 0 EmptyString.

End Regex.

(* ================================================================== *)
(** ** Command parser (lib/mapping-commands) *)
(* ================================================================== *)

Module Parser.
Import Regex.

Inductive CommandType :=
  create | update | delete | modify_transformation | set_confidence | unknown.

Record MappingCommand := {
  type : CommandType;
  sourceField : option string;
  targetField : option string;
  transformationType : option string;
  confidence : option Q;
  reasoning : option string;
  mappingId : option string;
  originalCommand : string;
  parameters : option (list (string * string))
}.

Record CommandParseResult := {
  command : option MappingCommand;
  parse_confidence : Q;
  ambiguities : list string;
  suggestions : list string
}.

(** What a pattern's [extract] returns. *)
Record Extracted := {
  e_sourceField : option string;
  e_targetField : option string;
  e_transformationType : option string;
  e_confidence : option Q
}.

Record Pattern := {
  pattern : regex;
  ptype : CommandType;
  extract : list string -> Extracted
}.

(** [match[n]] for [n >= 1]. *)
Definition group (n : nat) (caps : list string) : option string :=
  nth_error caps (n - 1).

Definition digit_of (c : ascii) : option Z :=
  let n := Str.code c in
  if (48 <=? n) && (n <=? 57) then Some (Z.of_nat (n - 48)) else None.

(** [Number.parseFloat] on text of the shape [\d+(?:\.\d+)?]: the value
    [num / scale] read so far; [scale] is set once the point is passed. *)
Fixpoint parse_number (s : string) (num : Z) (scale : option positive) : Q :=
  match s with
  | EmptyString => Qmake num (match scale with Some p => p | None => 1%positive end)
  | String c s' =>
      match digit_of c, scale with
      | Some d, _ =>
          parse_number s' (10 * num + d)%Z (option_map (Pos.mul 10) scale)
      | None, None =>
          if Ascii.eqb c "." then parse_number s' num (Some 1%positive)
          else Qmake num 1
      | None, Some p => Qmake num p
      end
  end.

Definition parseFloat (s : string) : Q := parse_number s 0%Z None.

Definition extract_source_target (caps : list string) : Extracted :=
  {| e_sourceField := group 1 caps; e_targetField := group 2 caps;
     e_transformationType := None; e_confidence := None |}.

Definition extract_source (caps : list string) : Extracted :=
  {| e_sourceField := group 1 caps; e_targetField := None;
     e_transformationType := None; e_confidence := None |}.

Definition extract_transformation (caps : list string) : Extracted :=
  {| e_sourceField := group 1 caps; e_targetField := None;
     e_transformationType := group 2 caps; e_confidence := None |}.

Definition extract_confidence (caps : list string) : Extracted :=
  {| e_sourceField := group 1 caps; e_targetField := None;
     e_transformationType := None;
     e_confidence := option_map parseFloat (group 2 caps) |}.

(** /map\s+(?:field\s+)?Q?([^Q\s]+)Q?\s+to\s+Q?([^Q\s]+)Q?/i *)
Definition map_pattern : regex :=
  seq_of [RLit "map"; sp; word_opt "field"; quote_opt; field_tok; quote_opt;
          sp; RLit "to"; sp; quote_opt; field_tok; quote_opt].

(** /create\s+(?:a\s+)?mapping\s+(?:from\s+)?Q?([^Q\s]+)Q?\s+(?:to\s+)?Q?([^Q\s]+)Q?/i *)
Definition create_pattern : regex :=
  seq_of [RLit "create"; sp; word_opt "a"; RLit "mapping"; sp; word_opt "from";
          quote_opt; field_tok; quote_opt; sp; word_opt "to";
          quote_opt; field_tok; quote_opt].

(** /connect\s+Q?([^Q\s]+)Q?\s+(?:with|to)\s+Q?([^Q\s]+)Q?/i *)
Definition connect_pattern : regex :=
  seq_of [RLit "connect"; sp; quote_opt; field_tok; quote_opt; sp;
          RAlt (RLit "with") (RLit "to"); sp; quote_opt; field_tok; quote_opt].

(** /(?:update|change|modify)\s+(?:the\s+)?mapping\s+(?:for\s+)?Q?([^Q\s]+)Q?\s+to\s+Q?([^Q\s]+)Q?/i *)
Definition update_pattern : regex :=
  seq_of [RAlt (RLit "update") (RAlt (RLit "change") (RLit "modify")); sp;
          word_opt "the"; RLit "mapping"; sp; word_opt "for";
          quote_opt; field_tok; quote_opt; sp; RLit "to"; sp;
          quote_opt; field_tok; quote_opt].

(** /(?:delete|remove|unmap)\s+(?:the\s+)?mapping\s+(?:for\s+)?Q?([^Q\s]+)Q?/i *)
Definition delete_pattern : regex :=
  seq_of [RAlt (RLit "delete") (RAlt (RLit "remove") (RLit "unmap")); sp;
          word_opt "the"; RLit "mapping"; sp; word_opt "for";
          quote_opt; field_tok; quote_opt].

(** /(?:set|change)\s+(?:the\s+)?transformation\s+(?:type\s+)?(?:for\s+)?Q?([^Q\s]+)Q?\s+to\s+([a-z_]+)/i *)
Definition transformation_pattern : regex :=
  seq_of [RAlt (RLit "set") (RLit "change"); sp; word_opt "the";
          RLit "transformation"; sp; word_opt "type"; word_opt "for";
          quote_opt; field_tok; quote_opt; sp; RLit "to"; sp;
          RGroup (RPlus CWord)].

(** /(?:set|change)\s+(?:the\s+)?confidence\s+(?:for\s+)?Q?([^Q\s]+)Q?\s+to\s+(\d+(?:\.\d+)?)/i *)
Definition confidence_pattern : regex :=
  seq_of [RAlt (RLit "set") (RLit "change"); sp; word_opt "the";
          RLit "confidence"; sp; word_opt "for";
          quote_opt; field_tok; quote_opt; sp; RLit "to"; sp;
          RGroup (RSeq (RPlus CDigit) (ROpt (RSeq (RLit ".") (RPlus CDigit))))].

Definition COMMAND_PATTERNS : list Pattern :=
  [ {| pattern := map_pattern; ptype := create; extract := extract_source_target |};
    {| pattern := create_pattern; ptype := create; extract := extract_source_target |};
    {| pattern := connect_pattern; ptype := create; extract := extract_source_target |};
    {| pattern := update_pattern; ptype := update; extract := extract_source_target |};
    {| pattern := delete_pattern; ptype := delete; extract := extract_source |};
    {| pattern := transformation_pattern; ptype := modify_transformation;
       extract := extract_transformation |};
    {| pattern := confidence_pattern; ptype := set_confidence;
       extract := extract_confidence |} ].

(** The loop over the patterns: the first one that matches, with what it
    extracts. *)
Fixpoint first_match (normalizedCommand : string) (ps : list Pattern)
  : option (CommandType * Extracted) :=
  match ps with
  | [] => None
  | p :: rest =>
      match search (pattern p) normalizedCommand with
      | Some caps => Some (ptype p, extract p caps)
      | None => first_match normalizedCommand rest
      end
  end.

(** The parser has its own static [levenshteinDistance]; its body is the
    one of the sample-mapping generator, line for line. *)
Definition levenshteinDistance := Similarity.levenshteinDistance.

Definition similar_to (targetLower : string) (field : string) : bool :=
  let fieldLower := Str.toLowerCase field in
  Str.includes fieldLower targetLower
  || Str.includes targetLower fieldLower
  || (levenshteinDistance targetLower fieldLower <=? 2).

Definition findSimilarFields (target : string) (fields : list string) : list string :=
  firstn 3 (filter (similar_to (Str.toLowerCase target)) fields).

(** [[...new Set(xs)]]: first occurrences, in order. *)
Fixpoint dedupe (seen xs : list string) : list string :=
  match xs with
  | [] => []
  | x :: rest =>
      if Store.includes_id seen x then dedupe seen rest
      else x :: dedupe (x :: seen) rest
  end.

Record AvailableFields := {
  source : list string;
  target : list string
}.

Definition extractFieldMentions (command : string) (availableFields : AvailableFields)
  : list string :=
  let allFields := source availableFields ++ target availableFields in
  dedupe []
    (filter (fun field =>
               Str.includes (Str.toLowerCase command) (Str.toLowerCase field))
            allFields).

(** JavaScript truthiness of an optional string. *)
Definition truthy (s : option string) : bool :=
  match s with
  | Some v => negb (String.eqb v EmptyString)
  | None => false
  end.

Definition exact_match (tok : string) (fields : list string) : option string :=
  find (fun f => String.eqb (Str.toLowerCase f) (Str.toLowerCase tok)) fields.

(** The validation of one extracted field: the field after resolution and
    the ambiguities and suggestions it pushes.  [label] is Source or
    Target. *)
Definition resolve_field (label : string) (tok : option string)
  (fields : list string) : option string * list string * list string :=
  match tok with
  | Some raw =>
      if truthy tok then
        match exact_match raw fields with
        | Some exactMatch => (Some exactMatch, [], [])
        | None =>
            let similarFields := findSimilarFields raw fields in
            if 0 <? List.length similarFields then
              (tok,
               [(label ++ " field " ++ Str.dq ++ raw ++ Str.dq ++ " not found")%string],
               [("Did you mean: " ++ Str.join ", " similarFields ++ "?")%string])
            else (tok, [], [])
        end
      else (tok, [], [])
  | None => (tok, [], [])
  end.

Definition Qgt_bool (x y : Q) : bool := negb (Qle_bool x y).
Definition Qlt_bool (x y : Q) : bool := negb (Qle_bool y x).

(** The validation of an extracted confidence. *)
Definition resolve_confidence (c : option Q) : option Q * list string :=
  match c with
  | None => (None, [])
  | Some v =>
      let v' := if Qgt_bool v 1 then (v / 100)%Q else v in
      (Some v',
       if Qlt_bool v' 0 || Qgt_bool v' 1
       then ["Confidence must be between 0 and 1 (or 0% and 100%)"]
       else [])
  end.

(** The body of the loop of [parseCommand] once a pattern has matched. *)
Definition build_result (command : string) (availableFields : AvailableFields)
  (ty : CommandType) (extracted : Extracted) : CommandParseResult :=
  let '(src, amb_s, sug_s) :=
    resolve_field "Source" (e_sourceField extracted) (source availableFields) in
  let '(tgt, amb_t, sug_t) :=
    resolve_field "Target" (e_targetField extracted) (target availableFields) in
  let '(conf, amb_c) := resolve_confidence (e_confidence extracted) in
  let ambiguities := amb_s ++ amb_t ++ amb_c in
  let suggestions := sug_s ++ sug_t in
  {| command :=
       Some {| type := ty;
               sourceField := src;
               targetField := tgt;
               transformationType := e_transformationType extracted;
               confidence := conf;
               reasoning := None;
               mappingId := None;
               originalCommand := command;
               parameters := None |};
     parse_confidence :=
       if (List.length ambiguities =? 0) then (9 # 10)%Q else (6 # 10)%Q;
     ambiguities := ambiguities;
     suggestions := suggestions |}.

Definition parseCommand (command : string) (availableFields : AvailableFields)
  : CommandParseResult :=
  let normalizedCommand := Str.toLowerCase (Str.trim command) in
  match first_match normalizedCommand COMMAND_PATTERNS with
  | Some (ty, extracted) => build_result command availableFields ty extracted
  | None =>
      let fieldMentions := extractFieldMentions command availableFields in
      if 0 <? List.length fieldMentions then
        {| command :=
             Some {| type := unknown; sourceField := None; targetField := None;
                     transformationType := None; confidence := None;
                     reasoning := None; mappingId := None;
                     originalCommand := command; parameters := None |};
           parse_confidence := (3 # 10)%Q;
           ambiguities := ["Command not recognized"];
           suggestions :=
             [ ("Try: " ++ Str.dq ++ "Map [source field] to [target field]" ++ Str.dq)%string;
               ("Try: " ++ Str.dq ++ "Delete mapping for [field name]" ++ Str.dq)%string;
               ("Try: " ++ Str.dq ++ "Change transformation for [field] to [type]" ++ Str.dq)%string;
               ("Detected fields: " ++ Str.join ", " fieldMentions)%string ] |}
      else
        {| command := None;
           parse_confidence := 0%Q;
           ambiguities := ["No mapping command detected"];
           suggestions :=
             [ ("Try: " ++ Str.dq ++ "Map field1 to field2" ++ Str.dq)%string;
               ("Try: " ++ Str.dq ++ "Delete mapping for field1" ++ Str.dq)%string;
               ("Try: " ++ Str.dq ++ "Update mapping for field1 to field3" ++ Str.dq)%string ] |}
  end.

End Parser.

(* ================================================================== *)
(** ** Instruction processor (lib/ai-mapping-processor) *)
(* ================================================================== *)

Module Processor.
Import Store Parser.

Inductive ChangeType := created | updated | deleted | modified.

Record MappingChange := {
  ch_type : ChangeType;
  ch_mappingId : option string;
  ch_sourceField : string;
  ch_targetField : option string;
  details : string
}.

Record AIProcessingResult := {
  success : bool;
  message : string;
  appliedChanges : list MappingChange;
  result_suggestions : option (list string);
  needsClarification : option bool;
  clarificationQuestion : option string
}.

Record Context := {
  sourceFields : list string;
  targetFields : list string;
  currentMappings : list DynamicMapping;
  conversationHistory : option (list (string * string))
}.

(** A thrown JavaScript error. *)
Record Error := { error_message : string }.

(** *** Computations over the store that may throw *)

Inductive Outcome (A : Type) :=
| Returned (a : A) (w : World)
| Thrown (e : Error) (w : World).
Arguments Returned {A} a w.
Arguments Thrown {A} e w.

Definition M (A : Type) := World -> Outcome A.

Definition ret {A} (a : A) : M A := fun w => Returned a w.

Definition bind {A B} (m : M A) (f : A -> M B) : M B :=
  fun w =>
    match m w with
    | Returned a w' => f a w'
    | Thrown e w' => Thrown e w'
    end.

Definition throw {A} (e : Error) : M A := fun w => Thrown e w.

(** [try { body } catch (error) { handler }]. *)
Definition try_catch {A} (body : M A) (handler : Error -> M A) : M A :=
  fun w =>
    match body w with
    | Returned a w' => Returned a w'
    | Thrown e w' => handler e w'
    end.

Notation "x <- m ;; k" := (bind m (fun x => k))
  (at level 61, m at next level, right associativity).

Definition world_of {A} (o : Outcome A) : World :=
  match o with Returned _ w => w | Thrown _ w => w end.

(** The actions of the store the processor calls through
    [useMappingStore.getState()].  They are JavaScript functions and may
    throw; the processor is written against this interface so that its
    [try]/[catch] and [try]/[finally] can be exercised. *)
Class MappingStoreApi := {
  api_updateMapping : string -> Partial -> M unit;
  api_addMapping : NewMapping -> M string;
  api_removeMapping : string -> M unit
}.

(** The store of lib/mapping-store: its actions do not throw. *)
Definition zustand : MappingStoreApi :=
  {| api_updateMapping := fun ident updates w =>
       Returned tt (Store.updateMapping ident updates w);
     api_addMapping := fun n w =>
       let (ident, w') := Store.addMapping n w in Returned ident w';
     api_removeMapping := fun ident w =>
       Returned tt (Store.removeMapping ident w) |}.

Definition plain (ok : bool) (msg : string) (changes : list MappingChange)
  : AIProcessingResult :=
  {| success := ok; message := msg; appliedChanges := changes;
     result_suggestions := None; needsClarification := None;
     clarificationQuestion := None |}.

(** A truthy optional string, or nothing. *)
Definition defined (s : option string) : option string :=
  if truthy s then s else None.

(** [currentMappings.find(m => m.source_field === f && m.status === active)]. *)
Definition find_active (sourceField : string) (ms : list DynamicMapping)
  : option DynamicMapping :=
  find (fun m => String.eqb (source_field m) sourceField
                 && Status_eqb (status m) active) ms.

(** [Math.round(x)]. *)
Definition round (x : Q) : Z := Qfloor (x + (1 # 2))%Q.

Definition percent (c : Q) : string := Str.string_of_Z (round (c * 100)%Q).

Definition could_not_execute : AIProcessingResult :=
  plain false "❌ Could not execute command" [].

(** [calculateFieldSimilarity] of the processor: no edit-distance fallback. *)
Definition calculateFieldSimilarity (field1 field2 : string) : Q :=
  let f1 := Similarity.normalize field1 in
  let f2 := Similarity.normalize field2 in
  if String.eqb f1 f2 then 1%Q
  else if Str.includes f1 f2 || Str.includes f2 f1 then (8 # 10)%Q
  else if Similarity.shares_common_word f1 f2 then (6 # 10)%Q
  else 0%Q.

(** [findBestFieldMatch]: [field] is undefined when there is no target. *)
Definition findBestFieldMatch (sourceField : string) (targets : list string)
  : option string * Q :=
  fold_left
    (fun (best : option string * Q) targetField =>
       let score := calculateFieldSimilarity sourceField targetField in
       if Qgt_bool score (snd best) then (Some targetField, score) else best)
    targets (hd_error targets, 0%Q).

Definition mentions (instruction : string) (fields : list string) : list string :=
  filter (fun field =>
            Str.includes (Str.toLowerCase instruction) (Str.toLowerCase field))
         fields.

(** [extractFieldMentions] of the processor: source and target mentions. *)
Definition extractFieldMentions (instruction : string)
  (sourceFields targetFields : list string) : list string * list string :=
  (mentions instruction sourceFields, mentions instruction targetFields).

(** /(?:,|\sand\s|\sthen\s|\salso\s)/i *)
Definition separators : Regex.regex :=
  Regex.RAlt (Regex.RLit ",")
    (Regex.RAlt
       (Regex.seq_of [Regex.RCls Regex.CSpace; Regex.RLit "and"; Regex.RCls Regex.CSpace])
       (Regex.RAlt
          (Regex.seq_of [Regex.RCls Regex.CSpace; Regex.RLit "then"; Regex.RCls Regex.CSpace])
          (Regex.seq_of [Regex.RCls Regex.CSpace; Regex.RLit "also"; Regex.RCls Regex.CSpace]))).

Definition fields_of (context : Context) : AvailableFields :=
  {| source := sourceFields context; target := targetFields context |}.

Definition extractMultipleCommands (instruction : string) (context : Context)
  : list MappingCommand :=
  flat_map
    (fun part =>
       let parseResult := parseCommand (Str.trim part) (fields_of context) in
       match command parseResult with
       | Some c => if Qgt_bool (parse_confidence parseResult) (5 # 10) then [c] else []
       | None => []
       end)
    (Regex.split separators instruction).

Definition handleSimilarFieldMapping (instruction : string) (context : Context)
  : AIProcessingResult :=
  let mentioned :=
    extractFieldMentions instruction (sourceFields context) (targetFields context) in
  match fst mentioned with
  | [] =>
      plain false
        "Please specify which field you want to find similar mappings for." []
  | referenceField :: _ =>
      let similarFields :=
        filter (fun field =>
                  Qgt_bool (calculateFieldSimilarity referenceField field) (6 # 10)
                  && negb (String.eqb field referenceField))
               (sourceFields context) in
      match similarFields with
      | [] =>
          plain false
            ("No similar fields found for " ++ Str.dq ++ referenceField ++ Str.dq) []
      | _ =>
          {| success := false;
             message := "Found similar fields: " ++ Str.join ", " similarFields;
             appliedChanges := [];
             result_suggestions := None;
             needsClarification := Some true;
             clarificationQuestion :=
               Some ("Should I create mappings for these similar fields: "
                       ++ Str.join ", " similarFields ++ "?")%string |}
      end
  end.

Section WithStore.

Context {api : MappingStoreApi}.

(** The [switch] of [executeCommand], inside its [try]. *)
Definition execute_body (c : MappingCommand) (currentMappings : list DynamicMapping)
  : M AIProcessingResult :=
  match type c with
  | create =>
      match defined (sourceField c), defined (targetField c) with
      | Some src, Some tgt =>
          match find_active src currentMappings with
          | Some existingMapping =>
              _ <- api_updateMapping (id existingMapping)
                     {| p_id := None; p_source_field := None;
                        p_target_field := Some tgt;
                        p_transformation_type := None; p_confidence := None;
                        p_reasoning :=
                          Some ("Updated via AI command: " ++ Str.dq
                                  ++ originalCommand c ++ Str.dq)%string;
                        p_transformation_logic := None;
                        p_potential_issues := None;
                        p_sample_transformation := None;
                        p_status := None; p_created_at := None;
                        p_updated_at := None; p_user_modified := None;
                        p_original_mapping := None; p_conflict_reason := None;
                        p_user_command := Some (Some (originalCommand c)) |} ;;
              ret (plain true
                     ("✅ Updated mapping: " ++ src ++ " → " ++ tgt)
                     [ {| ch_type := updated;
                          ch_mappingId := Some (id existingMapping);
                          ch_sourceField := src;
                          ch_targetField := Some tgt;
                          details := "Updated mapping from "
                                       ++ target_field existingMapping
                                       ++ " to " ++ tgt |} ])
          | None =>
              newMappingId <- api_addMapping
                     {| n_source_field := src;
                        n_target_field := tgt;
                        n_transformation_type := "direct_mapping";
                        n_confidence := (85 # 100)%Q;
                        n_reasoning :=
                          "AI-created mapping via command: " ++ Str.dq
                            ++ originalCommand c ++ Str.dq;
                        n_transformation_logic := src ++ " -> " ++ tgt;
                        n_potential_issues := [];
                        n_sample_transformation := None;
                        n_status := active;
                        n_user_modified := true;
                        n_original_mapping := None;
                        n_conflict_reason := None;
                        n_user_command := Some (originalCommand c) |} ;;
              ret (plain true
                     ("✅ Created mapping: " ++ src ++ " → " ++ tgt)
                     [ {| ch_type := created;
                          ch_mappingId := Some newMappingId;
                          ch_sourceField := src;
                          ch_targetField := Some tgt;
                          details := "Created new mapping" |} ])
          end
      | _, _ => ret could_not_execute
      end
  | delete =>
      match defined (sourceField c) with
      | Some src =>
          match find_active src currentMappings with
          | Some existingMapping =>
              _ <- api_removeMapping (id existingMapping) ;;
              ret (plain true
                     ("✅ Deleted mapping for: " ++ src)
                     [ {| ch_type := deleted;
                          ch_mappingId := Some (id existingMapping);
                          ch_sourceField := src;
                          ch_targetField := Some (target_field existingMapping);
                          details := "Deleted mapping" |} ])
          | None =>
              ret {| success := false;
                     message := "❌ No mapping found for " ++ Str.dq ++ src ++ Str.dq;
                     appliedChanges := [];
                     result_suggestions :=
                       Some [ ("Available source fields: "
                                 ++ Str.join ", " (map source_field currentMappings))%string ];
                     needsClarification := None;
                     clarificationQuestion := None |}
          end
      | None => ret could_not_execute
      end
  | modify_transformation =>
      match defined (sourceField c), defined (transformationType c) with
      | Some src, Some ty =>
          match find_active src currentMappings with
          | Some existingMapping =>
              _ <- api_updateMapping (id existingMapping)
                     {| p_id := None; p_source_field := None;
                        p_target_field := None;
                        p_transformation_type := Some ty; p_confidence := None;
                        p_reasoning :=
                          Some ("Transformation updated via AI: " ++ Str.dq
                                  ++ originalCommand c ++ Str.dq)%string;
                        p_transformation_logic := None;
                        p_potential_issues := None;
                        p_sample_transformation := None;
                        p_status := None; p_created_at := None;
                        p_updated_at := None; p_user_modified := None;
                        p_original_mapping := None; p_conflict_reason := None;
                        p_user_command := Some (Some (originalCommand c)) |} ;;
              ret (plain true
                     ("✅ Updated transformation for " ++ src ++ " to " ++ ty)
                     [ {| ch_type := modified;
                          ch_mappingId := Some (id existingMapping);
                          ch_sourceField := src;
                          ch_targetField := Some (target_field existingMapping);
                          details := "Changed transformation to " ++ ty |} ])
          | None => ret could_not_execute
          end
      | _, _ => ret could_not_execute
      end
  | set_confidence =>
      match defined (sourceField c), confidence c with
      | Some src, Some conf =>
          match find_active src currentMappings with
          | Some existingMapping =>
              _ <- api_updateMapping (id existingMapping)
                     {| p_id := None; p_source_field := None;
                        p_target_field := None;
                        p_transformation_type := None; p_confidence := Some conf;
                        p_reasoning := None;
                        p_transformation_logic := None;
                        p_potential_issues := None;
                        p_sample_transformation := None;
                        p_status := None; p_created_at := None;
                        p_updated_at := None; p_user_modified := None;
                        p_original_mapping := None; p_conflict_reason := None;
                        p_user_command := Some (Some (originalCommand c)) |} ;;
              ret (plain true
                     ("✅ Set confidence for " ++ src ++ " to " ++ percent conf ++ "%")
                     [ {| ch_type := modified;
                          ch_mappingId := Some (id existingMapping);
                          ch_sourceField := src;
                          ch_targetField := Some (target_field existingMapping);
                          details := "Set confidence to " ++ percent conf ++ "%" |} ])
          | None => ret could_not_execute
          end
      | _, _ => ret could_not_execute
      end
  | update => ret could_not_execute
  | unknown => ret could_not_execute
  end.

Definition executeCommand (c : MappingCommand) (currentMappings : list DynamicMapping)
  : M AIProcessingResult :=
  try_catch (execute_body c currentMappings)
    (fun error =>
       ret (plain false
              ("❌ Error executing command: " ++ error_message error) [])).

(** The loop of [handleBulkMapping] over [sourceFields.slice(0, 5)]. *)
Fixpoint bulk_map (instruction : string) (sources targets : list string)
  : M (list MappingChange) :=
  match sources with
  | [] => ret []
  | sourceField :: rest =>
      match findBestFieldMatch sourceField targets with
      | (Some field, score) =>
          if Qgt_bool score (6 # 10) then
            mappingId <- api_addMapping
                   {| n_source_field := sourceField;
                      n_target_field := field;
                      n_transformation_type := "direct_mapping";
                      n_confidence := score;
                      n_reasoning :=
                        "Bulk mapping via AI: " ++ Str.dq ++ instruction ++ Str.dq;
                      n_transformation_logic := sourceField ++ " -> " ++ field;
                      n_potential_issues := [];
                      n_sample_transformation := None;
                      n_status := active;
                      n_user_modified := true;
                      n_original_mapping := None;
                      n_conflict_reason := None;
                      n_user_command := Some instruction |} ;;
            changes <- bulk_map instruction rest targets ;;
            ret ({| ch_type := created;
                    ch_mappingId := Some mappingId;
                    ch_sourceField := sourceField;
                    ch_targetField := Some field;
                    details := "Auto-mapped based on similarity" |} :: changes)
          else bulk_map instruction rest targets
      | (None, _) => bulk_map instruction rest targets
      end
  end.

Definition maxMappings : nat := 5.

Definition handleBulkMapping (instruction : string) (context : Context)
  : M AIProcessingResult :=
  changes <- bulk_map instruction (firstn maxMappings (sourceFields context))
               (targetFields context) ;;
  let mappedCount := List.length changes in
  ret (plain (0 <? mappedCount)
         ("✅ Created " ++ Str.string_of_nat mappedCount ++ " automatic mappings")
         changes).

(** The loop of [handleBulkRemoval]. *)
Fixpoint bulk_remove (mappingsToRemove : list DynamicMapping)
  : M (list MappingChange) :=
  match mappingsToRemove with
  | [] => ret []
  | mapping :: rest =>
      _ <- api_removeMapping (id mapping) ;;
      changes <- bulk_remove rest ;;
      ret ({| ch_type := deleted;
              ch_mappingId := Some (id mapping);
              ch_sourceField := source_field mapping;
              ch_targetField := Some (target_field mapping);
              details := "Bulk removal" |} :: changes)
  end.

Definition handleBulkRemoval (instruction : string) (context : Context)
  : M AIProcessingResult :=
  changes <- bulk_remove (filter is_active (currentMappings context)) ;;
  ret (plain (0 <? List.length changes)
         ("✅ Removed " ++ Str.string_of_nat (List.length changes) ++ " mappings")
         changes).

Definition contextualInterpretation (instruction : string) (context : Context)
  : M AIProcessingResult :=
  let lowerInstruction := Str.toLowerCase instruction in
  if Str.includes lowerInstruction "all" && Str.includes lowerInstruction "map"
  then handleBulkMapping instruction context
  else if Str.includes lowerInstruction "similar"
          || Str.includes lowerInstruction "like"
  then ret (handleSimilarFieldMapping instruction context)
  else if Str.includes lowerInstruction "remove"
          || Str.includes lowerInstruction "clear"
  then handleBulkRemoval instruction context
  else
    let mentionedFields :=
      extractFieldMentions instruction (sourceFields context) (targetFields context) in
    match fst mentionedFields, snd mentionedFields with
    | s0 :: _, t0 :: _ =>
        ret {| success := false;
               message :=
                 "I detected fields but need clarification on the mapping action.";
               appliedChanges := [];
               result_suggestions :=
                 Some [ ("Try: " ++ Str.dq ++ "Map " ++ s0 ++ " to " ++ t0 ++ Str.dq)%string;
                        ("Try: " ++ Str.dq ++ "Delete mapping for " ++ s0 ++ Str.dq)%string ];
               needsClarification := Some true;
               clarificationQuestion :=
                 Some ("Do you want to map " ++ Str.join ", " (fst mentionedFields)
                         ++ " to " ++ Str.join ", " (snd mentionedFields) ++ "?")%string |}
    | _, _ =>
        ret {| success := false;
               message :=
                 "I couldn't understand that instruction. Please be more specific.";
               appliedChanges := [];
               result_suggestions :=
                 Some [ ("Try: " ++ Str.dq ++ "Map [source field] to [target field]" ++ Str.dq)%string;
                        ("Try: " ++ Str.dq ++ "Delete mapping for [field name]" ++ Str.dq)%string;
                        ("Try: " ++ Str.dq ++ "Map all customer fields to user fields" ++ Str.dq)%string ];
               needsClarification := None;
               clarificationQuestion := None |}
    end.

(** The loop of [aiEnhancedProcessing] over the extracted commands. *)
Fixpoint execute_all (commands : list MappingCommand)
  (currentMappings : list DynamicMapping) : M (list AIProcessingResult) :=
  match commands with
  | [] => ret []
  | c :: rest =>
      result <- executeCommand c currentMappings ;;
      results <- execute_all rest currentMappings ;;
      ret (result :: results)
  end.

Definition aiEnhancedProcessing (instruction : string) (context : Context)
  : M AIProcessingResult :=
  let multipleCommands := extractMultipleCommands instruction context in
  if 0 <? List.length multipleCommands then
    results <- execute_all multipleCommands (currentMappings context) ;;
    let successCount := List.length (filter success results) in
    let totalCount := List.length results in
    ret {| success := 0 <? successCount;
           message := "✅ Applied " ++ Str.string_of_nat successCount ++ "/"
                        ++ Str.string_of_nat totalCount ++ " mapping changes";
           appliedChanges := flat_map appliedChanges results;
           result_suggestions :=
             Some (flat_map
                     (fun r => match result_suggestions r with
                               | Some l => l | None => [] end) results);
           needsClarification := None;
           clarificationQuestion := None |}
  else contextualInterpretation instruction context.

Definition processInstruction (instruction : string) (context : Context)
  : M AIProcessingResult :=
  let parseResult := parseCommand instruction (fields_of context) in
  match command parseResult with
  | Some c =>
      if Qgt_bool (parse_confidence parseResult) (6 # 10)
      then executeCommand c (currentMappings context)
      else aiEnhancedProcessing instruction context
  | None => aiEnhancedProcessing instruction context
  end.

(** *** The single-flight guard of [processUserInstruction] *)

(** The instance fields of the processor. *)
Record Instance := {
  processingQueue : list string;
  isProcessing : bool
}.

Definition idle : Instance := {| processingQueue := []; isProcessing := false |}.

(** A re-invocation registered with [setTimeout(..., 100)]. *)
Record Timer := {
  t_instruction : string;
  t_context : Context
}.

Definition please_wait : AIProcessingResult :=
  plain false "Processing previous instruction, please wait..." [].

(** Entry of [processUserInstruction] up to [this.isProcessing = true]:
    either the early return, or admission. *)
Definition enter (instruction : string) (p : Instance)
  : option AIProcessingResult * Instance :=
  let queue := processingQueue p ++ [instruction] in
  if isProcessing p
  then (Some please_wait, {| processingQueue := queue; isProcessing := true |})
  else (None, {| processingQueue := queue; isProcessing := true |}).

(** The rest of the [try] after the awaited [processInstruction] has
    settled, and the [finally] block: [completed] tells whether it returned
    (the queue is filtered) or threw (it is not). *)
Definition leave (instruction : string) (context : Context) (completed : bool)
  (p : Instance) : Instance * list Timer :=
  let queue :=
    if completed
    then filter (fun i => negb (String.eqb i instruction)) (processingQueue p)
    else processingQueue p in
  ({| processingQueue := queue; isProcessing := false |},
   match queue with
   | nextInstruction :: _ =>
       [ {| t_instruction := nextInstruction; t_context := context |} ]
   | [] => []
   end).

(** An awaited call of [processUserInstruction] with nothing interleaved:
    the result or the error the caller sees, the instance afterwards and the
    timers registered. *)
Definition processUserInstruction (instruction : string) (context : Context)
  (p : Instance) (w : World)
  : Outcome AIProcessingResult * Instance * list Timer :=
  match enter instruction p with
  | (Some rejected, p') => (Returned rejected w, p', [])
  | (None, p') =>
      let o := processInstruction instruction context w in
      let completed := match o with Returned _ _ => true | Thrown _ _ => false end in
      let (p'', timers) := leave instruction context completed p' in
      (o, p'', timers)
  end.

End WithStore.

End Processor.

(* ================================================================== *)
(** ** Interleaved calls of processUserInstruction *)
(* ================================================================== *)

Module EventLoop.
Import Processor.

(** A call that has passed the guard and is suspended at its [await]. *)
Record Call := {
  call_instruction : string;
  call_context : Context
}.

Record State := {
  inst : Instance;
  inflight : list Call;
  timers : list Timer
}.

Definition start : State :=
  {| inst := idle; inflight := []; timers := [] |}.

(** A caller invokes [processUserInstruction]: the synchronous part up to
    the early return or the [await].  The reply is the early result, if
    any. *)
Definition invoke (instruction : string) (context : Context) (s : State)
  : option AIProcessingResult * State :=
  match enter instruction (inst s) with
  | (Some rejected, p') =>
      (Some rejected, {| inst := p'; inflight := inflight s; timers := timers s |})
  | (None, p') =>
      (None,
       {| inst := p';
          inflight := inflight s ++ [ {| call_instruction := instruction;
                                         call_context := context |} ];
          timers := timers s |})
  end.

Fixpoint remove_nth {A} (n : nat) (l : list A) : list A :=
  match n, l with
  | _, [] => []
  | O, _ :: rest => rest
  | S k, x :: rest => x :: remove_nth k rest
  end.

(** The [n]-th suspended call resumes: [processInstruction] has returned
    ([completed = true]) or thrown, and the call runs to its end. *)
Definition settle (n : nat) (completed : bool) (s : State) : option State :=
  match nth_error (inflight s) n with
  | Some c =>
      let (p', scheduled) :=
        leave (call_instruction c) (call_context c) completed (inst s) in
      Some {| inst := p';
              inflight := remove_nth n (inflight s);
              timers := timers s ++ scheduled |}
  | None => None
  end.

(** The oldest timer fires and re-invokes [processUserInstruction]; its
    result is dropped. *)
Definition fire (s : State) : option State :=
  match timers s with
  | t :: rest =>
      Some (snd (invoke (t_instruction t) (t_context t)
                   {| inst := inst s; inflight := inflight s; timers := rest |}))
  | [] => None
  end.

Inductive Event :=
| Invoke (instruction : string) (context : Context)
| Settle (n : nat) (completed : bool)
| Fire.

Definition step (e : Event) (s : State) : option State :=
  match e with
  | Invoke i c => Some (snd (invoke i c s))
  | Settle n b => settle n b s
  | Fire => fire s
  end.

Fixpoint run (es : list Event) (s : State) : option State :=
  match es with
  | [] => Some s
  | e :: rest =>
      match step e s with
      | Some s' => run rest s'
      | None => None
      end
  end.

Inductive reachable : State -> Prop :=
| reach_start : reachable start
| reach_step : forall s e s', reachable s -> step e s = Some s' -> reachable s'.

End EventLoop.


(* ================================================================== *)
(** ** Sample-mapping generator (generateSampleMappings and its helpers) *)
(* ================================================================== *)

Module Generator.
Import Similarity.

(** A sample value ([any]): the generator produces numbers and strings. *)
Inductive SampleValue :=
| Num (q : Q)
| Text (s : string).

Record MappingSuggestion := {
  source_field : string;
  target_field : string;
  transformation_type : string;
  confidence : Q;
  reasoning : string;
  transformation_logic : string;
  potential_issues : list string;
  sample_transformation : SampleValue * SampleValue
}.

(** [Math.random()]: the value of the n-th draw. *)
Definition Random := nat -> Q.



(** [generateSampleValue]: the value and the number of draws made so far. *)
Definition generateSampleValue (fieldName : string) (random : Random) (t : nat)
  : SampleValue * nat :=
  let field := Str.toLowerCase fieldName in
  if Str.includes field "id"
  then (Num (inject_Z (Qfloor (random t * 10000)%Q)), S t)
  else if Str.includes field "name" then (Text "John Doe", t)
  else if Str.includes field "email" then (Text "john.doe@example.com", t)
  else if Str.includes field "phone" then (Text "+1-555-123-4567", t)
  else if Str.includes field "date" then (Text "2024-01-15", t)
  else if Str.includes field "price" || Str.includes field "amount"
  then (Num (9999 # 100)%Q, t)
  else if Str.includes field "address" then (Text "123 Main St, City, State", t)
  else (Text "Sample Value", t).




End Generator.

(* ================================================================== *)
(** ** Document processor: the helpers that need no parsing library *)
(* ================================================================== *)

Module Document.

Inductive DocumentFormat := csv | txt | json | xml | xlsx | pdf | docx.

(** What [detectFormat] reads of a [File]. *)
Record File := {
  name : string;
  type : string
}.

(** [s.split(sep)] for a separator of one character. *)
Fixpoint split_char (sep : ascii) (s : string) : list string :=
  match s with
  | EmptyString => [EmptyString]
  | String c s' =>
      if Ascii.eqb c sep then EmptyString :: split_char sep s'
      else match split_char sep s' with
           | piece :: pieces => String c piece :: pieces
           | [] => [String c EmptyString]
           end
  end.

(** [file.name.split(point).pop()?.toLowerCase()]. *)
Definition extension_of (file : File) : string :=
  Str.toLowerCase (last (split_char "." (name file)) EmptyString).

Inductive Detected :=
| Format (f : DocumentFormat)
| Unsupported (message : string).

Definition detectFormat (file : File) : Detected :=
  let extension := extension_of file in
  let mimeType := Str.toLowerCase (type file) in
  if String.eqb extension "csv" || Str.includes mimeType "csv" then Format csv
  else if String.eqb extension "txt" || Str.includes mimeType "text/plain"
  then Format txt
  else if String.eqb extension "json" || Str.includes mimeType "json"
  then Format json
  else if String.eqb extension "xml" || Str.includes mimeType "xml"
  then Format xml
  else if String.eqb extension "xlsx" || Str.includes mimeType "spreadsheet"
          || String.eqb extension "xls"
  then Format xlsx
  else if String.eqb extension "pdf" || Str.includes mimeType "pdf"
  then Format pdf
  else if String.eqb extension "docx" || Str.includes mimeType "wordprocessingml"
          || String.eqb extension "doc"
  then Format docx
  else if String.eqb extension "csv" then Format csv
  else if String.eqb extension "txt" then Format txt
  else if String.eqb extension "json" then Format json
  else if String.eqb extension "xml" then Format xml
  else if String.eqb extension "xlsx" || String.eqb extension "xls"
  then Format xlsx
  else if String.eqb extension "pdf" then Format pdf
  else if String.eqb extension "docx" || String.eqb extension "doc"
  then Format docx
  else Unsupported ("Unsupported file format: " ++ name file).

#[local] Set Warnings "-register-all".

(** A parsed JSON value. *)
Inductive Json :=
| JNull
| JBool (b : bool)
| JNumber (q : Q)
| JString (s : string)
| JArray (items : list Json)
| JObject (members : list (string * Json)).

(** [typeof value === object && value !== null]. *)
Definition is_object (value : Json) : bool :=
  match value with
  | JArray _ | JObject _ => true
  | _ => false
  end.

(** [calculateNestingLevel]; [Object.values] of an array are its items. *)
Fixpoint calculateNestingLevel (obj : Json) (level : nat) : nat :=
  match obj with
  | JArray items =>
      fold_left
        (fun maxLevel value =>
           if is_object value
           then Nat.max maxLevel (calculateNestingLevel value (S level))
           else maxLevel)
        items level
  | JObject members =>
      fold_left
        (fun maxLevel member =>
           match member with
           | (_, value) =>
               if is_object value
               then Nat.max maxLevel (calculateNestingLevel value (S level))
               else maxLevel
           end)
        members level
  | _ => level
  end.

End Document.

(* ================================================================== *)
(** ** Vocabulary of the statements *)
(* ================================================================== *)

Module StoreDefs.
Import Store.
(** Ids of the active mappings whose [key] is [f], in mapping order. *)
Definition ids_with (key : DynamicMapping -> string) (f : string)
  (ms : list DynamicMapping) : list string :=
  map id (filter (fun m => is_active m && String.eqb (key m) f) ms).

Definition is_duplicate_source (c : MappingConflict) : bool :=
  match c_type c with duplicate_source => true | _ => false end.

(** The duplicate-source conflicts of [cs] that carry the id derived from
    field [f]. *)
Definition duplicate_source_for (f : string) (cs : list MappingConflict)
  : list MappingConflict :=
  filter (fun c => is_duplicate_source c
                   && String.eqb (c_id c) ("conflict-duplicate-source-" ++ f)) cs.

(** What a count map holds for a key after more ids were appended. *)
Definition extend (o : option (list string)) (l : list string) : option (list string) :=
  match o with
  | Some l0 => Some (l0 ++ l)
  | None => match l with [] => None | _ => Some l end
  end.


Definition for_source (f : string) (c : MappingConflict) : bool :=
  is_duplicate_source c && String.eqb (c_id c) ("conflict-duplicate-source-" ++ f).


(** A conflict with [ident] stripped from its affected mappings. *)
Definition strip_id (ident : string) (c : MappingConflict) : MappingConflict :=
  {| c_id := c_id c; c_type := c_type c; c_description := c_description c;
     affected_mappings :=
       filter (fun i => negb (String.eqb i ident)) (affected_mappings c);
     suggested_resolution := suggested_resolution c |}.

End StoreDefs.

(* ================================================================== *)
(** ** Concrete stores, contexts and instructions used below *)
(* ================================================================== *)

Module Fixtures.
Import Store Processor.

(** An oracle that prints the read counter. *)
Definition counting : Oracle :=
  {| isoString := fun n => ("T" ++ Str.string_of_nat n)%string;
     dateNow := fun n => Str.string_of_nat n;
     randomId := fun n => ("r" ++ Str.string_of_nat n)%string |}.

Definition world_of_state (s : State) : World :=
  {| store := s; tick := 0; oracle := counting |}.

Definition empty_world : World := world_of_state Store.initial.

(** A generated (not yet user-modified) active mapping. *)
Definition generated (ident src tgt : string) : DynamicMapping :=
  {| id := ident; source_field := src; target_field := tgt;
     transformation_type := "direct_mapping"; confidence := (8 # 10)%Q;
     reasoning := "generated"; transformation_logic := src ++ " -> " ++ tgt;
     potential_issues := []; sample_transformation := None;
     status := active; created_at := "T"; updated_at := "T";
     user_modified := false; original_mapping := None;
     conflict_reason := None; user_command := None |}.

(** Two active mappings that share the source field [a], validated. *)
Definition two_on_a : World :=
  snd (validateMappings
         (world_of_state
            {| mappings := [generated "m1" "a" "x"; generated "m2" "a" "y"];
               conflicts := []; documentId := Some "doc" |})).

(** Three active mappings that share the source field [a], validated. *)
Definition three_on_a : World :=
  snd (validateMappings
         (world_of_state
            {| mappings := [generated "m1" "a" "x"; generated "m2" "a" "y";
                            generated "m3" "a" "z"];
               conflicts := []; documentId := Some "doc" |})).

Definition retarget (tgt : string) : Partial :=
  {| p_id := None; p_source_field := None; p_target_field := Some tgt;
     p_transformation_type := None; p_confidence := None;
     p_reasoning := None; p_transformation_logic := None;
     p_potential_issues := None; p_sample_transformation := None;
     p_status := None; p_created_at := None; p_updated_at := None;
     p_user_modified := None; p_original_mapping := None;
     p_conflict_reason := None; p_user_command := None |}.

Definition context_of (src tgt : list string) (w : World) : Context :=
  {| sourceFields := src; targetFields := tgt;
     currentMappings := mappings (store w); conversationHistory := None |}.

End Fixtures.

Module ParserDefs.
Import Parser.




Definition single_fields (a b : string) : AvailableFields :=
  {| source := [a]; target := [b] |}.

End ParserDefs.

Module TokenDefs.
Import Regex.

(** Every character of [s] is in class [k]. *)
Fixpoint all_in (k : cclass) (s : string) : bool :=
  match s with
  | EmptyString => true
  | String c s' => in_class k c && all_in k s'
  end.

(** A field name the field group of the patterns can capture whole: not
    empty, without white space and without quote characters. *)
Definition is_token (s : string) : bool :=
  negb (String.eqb s EmptyString) && all_in CTok s.

(** [s] is empty or starts with a character outside class [k]. *)
Definition head_not (k : cclass) (s : string) : Prop :=
  match s with
  | EmptyString => True
  | String c _ => in_class k c = false
  end.

(** The part of the [map] pattern after the optional word [field]. *)
Definition map_tail : regex :=
  seq_of [quote_opt; field_tok; quote_opt; sp; RLit "to"; sp;
          quote_opt; field_tok; quote_opt].

(** The part after the first field group. *)
Definition map_tail2 : regex :=
  seq_of [quote_opt; sp; RLit "to"; sp; quote_opt; field_tok; quote_opt].

(** The continuation that ends a match: the captures. *)
Definition final : string -> list string -> option (list string) :=
  fun _ caps => Some caps.

Definition map_instruction (a b : string) : string :=
  "Map " ++ a ++ " to " ++ b.

End TokenDefs.

Module ProcessorDefs.
Import Store Processor TokenDefs.

(** The record [executeCommand] adds for a [create] command parsed from
    [instruction], in world [w]. *)
Definition created_by (instruction a b : string) (w : World) : DynamicMapping :=
  {| id := fresh_id w;
     source_field := a;
     target_field := b;
     transformation_type := "direct_mapping";
     confidence := (85 # 100)%Q;
     reasoning := "AI-created mapping via command: " ++ Str.dq ++ instruction ++ Str.dq;
     transformation_logic := a ++ " -> " ++ b;
     potential_issues := [];
     sample_transformation := None;
     status := active;
     created_at := isoString (oracle w) (tick w + 2);
     updated_at := isoString (oracle w) (tick w + 3);
     user_modified := true;
     original_mapping := None;
     conflict_reason := None;
     user_command := Some instruction |}.

(** The same record after a [create] command for its source field was
    executed again at time [t]: target, reasoning, command text and
    [updated_at] are rewritten. *)
Definition redirected_by (instruction b t : string) (m : DynamicMapping)
  : DynamicMapping :=
  {| id := id m;
     source_field := source_field m;
     target_field := b;
     transformation_type := transformation_type m;
     confidence := Store.confidence m;
     reasoning := "Updated via AI command: " ++ Str.dq ++ instruction ++ Str.dq;
     transformation_logic := transformation_logic m;
     potential_issues := potential_issues m;
     sample_transformation := sample_transformation m;
     status := status m;
     created_at := created_at m;
     updated_at := t;
     user_modified := true;
     original_mapping := original_mapping m;
     conflict_reason := conflict_reason m;
     user_command := Some instruction |}.

Definition created_change (ident a b : string) : MappingChange :=
  {| ch_type := created; ch_mappingId := Some ident; ch_sourceField := a;
     ch_targetField := Some b; details := "Created new mapping" |}.

Definition updated_change (ident a old b : string) : MappingChange :=
  {| ch_type := updated; ch_mappingId := Some ident; ch_sourceField := a;
     ch_targetField := Some b;
     details := "Updated mapping from " ++ old ++ " to " ++ b |}.

(** The active mappings of [ms] whose source field is [a]. *)
Definition active_on (a : string) (ms : list DynamicMapping) : list DynamicMapping :=
  filter (fun m => is_active m && String.eqb (source_field m) a) ms.

(** The command the parser returns for [Map a to b] on known fields. *)
Definition create_command (instruction a b : string) : Parser.MappingCommand :=
  {| Parser.type := Parser.create;
     Parser.sourceField := Some a;
     Parser.targetField := Some b;
     Parser.transformationType := None;
     Parser.confidence := None;
     Parser.reasoning := None;
     Parser.mappingId := None;
     Parser.originalCommand := instruction;
     Parser.parameters := None |}.

(** The change reported for a mapping removed in bulk. *)
Definition bulk_removed (m : DynamicMapping) : MappingChange :=
  {| ch_type := deleted; ch_mappingId := Some (id m);
     ch_sourceField := source_field m;
     ch_targetField := Some (target_field m);
     details := "Bulk removal" |}.

(** A store whose actions all throw [msg] (a failing persistence layer). *)
Definition failing_store (msg : string) : MappingStoreApi :=
  {| api_updateMapping := fun _ _ => throw {| error_message := msg |};
     api_addMapping := fun _ => throw {| error_message := msg |};
     api_removeMapping := fun _ => throw {| error_message := msg |} |}.

(** An awaited call on an idle processor against the zustand store. *)
Definition process (instruction : string) (src tgt : list string) (w : World)
  : Outcome AIProcessingResult * Instance * list Timer :=
  processUserInstruction (api := zustand) instruction
    (Fixtures.context_of src tgt w) idle w.

Definition outcome_of (x : Outcome AIProcessingResult * Instance * list Timer)
  : Outcome AIProcessingResult := fst (fst x).

End ProcessorDefs.

(** Case analysis over the 256 characters. *)
Ltac by_cases_on c :=
  destruct c as [[] [] [] [] [] [] [] []]; vm_compute; reflexivity.

Module EditDistance.

(** The characters of a string. *)
Fixpoint chars (s : string) : list ascii :=
  match s with
  | EmptyString => []
  | String c s' => c :: chars s'
  end.

Definition indicator (a b : ascii) : nat := if Ascii.eqb a b then 0 else 1.

(** Edit scripts: [edits s t n] when [s] can be turned into [t] by
    deletions, insertions and substitutions of single characters of total
    cost [n] (a substitution of a character by itself costs nothing). *)
Inductive edits : list ascii -> list ascii -> nat -> Prop :=
| edits_nil : edits [] [] 0
| edits_delete : forall a s t n, edits s t n -> edits (a :: s) t (S n)
| edits_insert : forall b s t n, edits s t n -> edits s (b :: t) (S n)
| edits_substitute : forall a b s t n,
    edits s t n -> edits (a :: s) (b :: t) (n + indicator a b).

(** The recursive edit distance. *)
Fixpoint lev (s : list ascii) : list ascii -> nat :=
  match s with
  | [] => fun t => List.length t
  | a :: s' =>
      fix lev_a (t : list ascii) : nat :=
        match t with
        | [] => S (List.length s')
        | b :: t' =>
            Nat.min (Nat.min (lev s' t + 1) (lev_a t' + 1))
                    (lev s' t' + indicator a b)
        end
  end.

(** Row [y] of the matrix for [s]: the distances of the prefixes of [s]
    of lengths [from .. from + count - 1] to [y], as the matrix lays them
    out (the strings are compared from their ends). *)
Definition matrix_row (s y : list ascii) (from count : nat) : list nat :=
  map (fun i => lev (rev (firstn i s)) (rev y)) (seq from count).

End EditDistance.

(* ================================================================== *)
(** ** Further vocabulary of the statements *)
(* ================================================================== *)

Module StoreDefs2.
Import Store StoreDefs.

Definition is_duplicate_target (c : MappingConflict) : bool :=
  match c_type c with duplicate_target => true | _ => false end.


Definition for_target (f : string) (c : MappingConflict) : bool :=
  is_duplicate_target c && String.eqb (c_id c) ("conflict-duplicate-target-" ++ f).

(** The id [setDocumentMappings] gives the record at [index]. *)
Definition document_id (documentId : string) (index : nat) : string :=
  "mapping-" ++ documentId ++ "-" ++ Str.string_of_nat index.

(** The active records of a mapping list. *)
Definition active_of (ms : list DynamicMapping) : list DynamicMapping :=
  filter is_active ms.

(** The status change of [resolveConflict] on one record. *)
Definition restatus (affected : list string) (st : Status) (m : DynamicMapping)
  : DynamicMapping :=
  if includes_id affected (id m) then set_status m st else m.

End StoreDefs2.

Module ProcessorDefs2.
Import Store Processor.

(** The command the parser returns for [Delete mapping for a]. *)
Definition delete_command (instruction a : string) : Parser.MappingCommand :=
  {| Parser.type := Parser.delete;
     Parser.sourceField := Some a;
     Parser.targetField := None;
     Parser.transformationType := None;
     Parser.confidence := None;
     Parser.reasoning := None;
     Parser.mappingId := None;
     Parser.originalCommand := instruction;
     Parser.parameters := None |}.

Definition deleted_change (ident a b : string) : MappingChange :=
  {| ch_type := deleted; ch_mappingId := Some ident; ch_sourceField := a;
     ch_targetField := Some b; details := "Deleted mapping" |}.

(** What a change of type created reports about the record added for it. *)
Definition reports (ch : MappingChange) (m : DynamicMapping) : Prop :=
  ch_type ch = created
  /\ ch_mappingId ch = Some (id m)
  /\ ch_sourceField ch = source_field m
  /\ ch_targetField ch = Some (target_field m).

End ProcessorDefs2.

Module EventLoopDefs.
Import Processor EventLoop.

(** The call in flight throws, and the timer it registered fires. *)
Definition throw_and_retry : list Event := [Settle 0 false; Fire].

Fixpoint retries (n : nat) : list Event :=
  match n with
  | O => []
  | S k => throw_and_retry ++ retries k
  end.

End EventLoopDefs.

Module DocumentDefs.
Import Document.

(** The first cascade of [detectFormat] alone. *)
Definition by_extension_or_mime (file : File) : Detected :=
  let extension := extension_of file in
  let mimeType := Str.toLowerCase (type file) in
  if String.eqb extension "csv" || Str.includes mimeType "csv" then Format csv
  else if String.eqb extension "txt" || Str.includes mimeType "text/plain"
  then Format txt
  else if String.eqb extension "json" || Str.includes mimeType "json"
  then Format json
  else if String.eqb extension "xml" || Str.includes mimeType "xml"
  then Format xml
  else if String.eqb extension "xlsx" || Str.includes mimeType "spreadsheet"
          || String.eqb extension "xls"
  then Format xlsx
  else if String.eqb extension "pdf" || Str.includes mimeType "pdf"
  then Format pdf
  else if String.eqb extension "docx" || Str.includes mimeType "wordprocessingml"
          || String.eqb extension "doc"
  then Format docx
  else Unsupported ("Unsupported file format: " ++ name file).

(** Height of a JSON value: 0 for a primitive, one more than the highest
    item or member for an array or object. *)
Fixpoint height (v : Json) : nat :=
  match v with
  | JArray items =>
      S (fold_right (fun item acc => Nat.max (height item) acc) 0 items)
  | JObject members =>
      S (fold_right
           (fun member acc =>
              match member with (_, value) => Nat.max (height value) acc end)
           0 members)
  | _ => 0
  end.

(** No point occurs in [s]. *)
Fixpoint no_point (s : string) : bool :=
  match s with
  | EmptyString => true
  | String c s' => negb (Ascii.eqb c ".") && no_point s'
  end.

(** Induction on JSON values with the hypothesis for every item or
    member. *)
Section JsonInduction.
Variable P : Json -> Prop.
Hypothesis Hnull : P JNull.
Hypothesis Hbool : forall b, P (JBool b).
Hypothesis Hnumber : forall q, P (JNumber q).
Hypothesis Hstring : forall s, P (JString s).
Hypothesis Harray : forall items, Forall P items -> P (JArray items).
Hypothesis Hobject :
  forall members, Forall (fun member => P (snd member)) members ->
                  P (JObject members).

Fixpoint Json_induction (v : Json) : P v :=
  match v with
  | JNull => Hnull
  | JBool b => Hbool b
  | JNumber q => Hnumber q
  | JString s => Hstring s
  | JArray items =>
      Harray
        ((fix all (l : list Json) : Forall P l :=
            match l with
            | [] => Forall_nil P
            | x :: rest => Forall_cons x (Json_induction x) (all rest)
            end) items)
  | JObject members =>
      Hobject
        ((fix all (l : list (string * Json))
            : Forall (fun member => P (snd member)) l :=
            match l with
            | [] => Forall_nil _
            | (k, x) :: rest =>
                Forall_cons (P := fun member => P (snd member)) (k, x)
                  (Json_induction x) (all rest)
            end) members)
  end.

End JsonInduction.

End DocumentDefs.

(** The tests of [detectFormat] in the order of the source; [tac] closes
    the branch in which a test succeeds. *)
Ltac by_rules file tac :=
  let ext := constr:(Document.extension_of file) in
  let mime := constr:(Str.toLowerCase (Document.type file)) in
  destruct (String.eqb ext "csv") eqn:?; cbn [orb]; [tac|];
  destruct (Str.includes mime "csv") eqn:?; cbn [orb]; [tac|];
  destruct (String.eqb ext "txt") eqn:?; cbn [orb]; [tac|];
  destruct (Str.includes mime "text/plain") eqn:?; cbn [orb]; [tac|];
  destruct (String.eqb ext "json") eqn:?; cbn [orb]; [tac|];
  destruct (Str.includes mime "json") eqn:?; cbn [orb]; [tac|];
  destruct (String.eqb ext "xml") eqn:?; cbn [orb]; [tac|];
  destruct (Str.includes mime "xml") eqn:?; cbn [orb]; [tac|];
  destruct (String.eqb ext "xlsx") eqn:?; cbn [orb]; [tac|];
  destruct (Str.includes mime "spreadsheet") eqn:?; cbn [orb]; [tac|];
  destruct (String.eqb ext "xls") eqn:?; cbn [orb]; [tac|];
  destruct (String.eqb ext "pdf") eqn:?; cbn [orb]; [tac|];
  destruct (Str.includes mime "pdf") eqn:?; cbn [orb]; [tac|];
  destruct (String.eqb ext "docx") eqn:?; cbn [orb]; [tac|];
  destruct (Str.includes mime "wordprocessingml") eqn:?; cbn [orb]; [tac|];
  destruct (String.eqb ext "doc") eqn:?; cbn [orb]; [tac|].

(* ================================================================== *)
(** ** Properties of the mapping store *)
(* ================================================================== *)

Section StoreFacts.
Import Store StoreDefs.

Lemma map_get_set_same k v m : map_get k (map_set k v m) = Some v.
Proof.
  induction m as [|[k' v'] m IH]; simpl.
  - now rewrite String.eqb_refl.
  - destruct (String.eqb k k') eqn:E; simpl; rewrite ?String.eqb_refl, ?E; auto.
Qed.

Lemma map_get_set_other k k' v m :
  k <> k' -> map_get k (map_set k' v m) = map_get k m.
Proof.
  intros Hne. induction m as [|[k0 v0] m IH]; simpl.
  - apply String.eqb_neq in Hne. now rewrite Hne.
  - destruct (String.eqb k' k0) eqn:E; simpl.
    + apply String.eqb_eq in E. subst k0.
      apply String.eqb_neq in Hne. now rewrite Hne.
    + now rewrite IH.
Qed.

Lemma map_get_none_keys k m : map_get k m = None <-> ~ In k (map fst m).
Proof.
  induction m as [|[k0 v0] m IH]; simpl.
  - tauto.
  - destruct (String.eqb k k0) eqn:E.
    + apply String.eqb_eq in E. subst. split; [discriminate | tauto].
    + apply String.eqb_neq in E. rewrite IH. split; intros H; [intros [H1|H1]; [congruence | tauto] | tauto].
Qed.

Lemma map_set_keys k v m :
  map fst (map_set k v m) =
  if in_dec string_dec k (map fst m) then map fst m else map fst m ++ [k].
Proof.
  induction m as [|[k0 v0] m IH]; simpl.
  - reflexivity.
  - destruct (String.eqb k k0) eqn:E; simpl.
    + apply String.eqb_eq in E. subst k0.
      destruct (string_dec k k); [|congruence].
      reflexivity.
    + apply String.eqb_neq in E. rewrite IH.
      destruct (string_dec k0 k); [congruence|].
      destruct (in_dec string_dec k (map fst m)); reflexivity.
Qed.

Lemma map_set_NoDup k v m : NoDup (map fst m) -> NoDup (map fst (map_set k v m)).
Proof.
  intros H. rewrite map_set_keys.
  destruct (in_dec string_dec k (map fst m)); auto.
  apply NoDup_app; auto.
  - constructor; [tauto | constructor].
  - intros x Hx [Hk|[]]. subst. tauto.
Qed.

Lemma count_fold_get key ms : forall acc f,
  map_get f (fold_left (count_step key) ms acc) =
  extend (map_get f acc) (ids_with key f ms).
Proof.
  induction ms as [|m ms IH]; intros acc f; simpl.
  - unfold ids_with; simpl. destruct (map_get f acc); simpl; [now rewrite app_nil_r | reflexivity].
  - rewrite IH. unfold count_step, ids_with. simpl.
    destruct (is_active m); simpl; [|reflexivity].
    destruct (String.eqb (key m) f) eqn:E; simpl.
    + apply String.eqb_eq in E. subst f.
      rewrite map_get_set_same.
      destruct (map_get (key m) acc); simpl; [now rewrite <- app_assoc | reflexivity].
    + apply String.eqb_neq in E.
      rewrite map_get_set_other by congruence. reflexivity.
Qed.

Lemma count_fold_NoDup key ms : forall acc,
  NoDup (map fst acc) -> NoDup (map fst (fold_left (count_step key) ms acc)).
Proof.
  induction ms as [|m ms IH]; intros acc H; simpl; auto.
  apply IH. unfold count_step. destruct (is_active m); auto using map_set_NoDup.
Qed.

Lemma fieldCounts_get key ms f :
  map_get f (fieldCounts key ms) =
  match ids_with key f ms with [] => None | l => Some l end.
Proof.
  unfold fieldCounts. rewrite count_fold_get. simpl.
  destruct (ids_with key f ms); reflexivity.
Qed.

Lemma fieldCounts_NoDup key ms : NoDup (map fst (fieldCounts key ms)).
Proof. apply count_fold_NoDup. constructor. Qed.

Lemma append_inj_l p a b : (p ++ a)%string = (p ++ b)%string -> a = b.
Proof. induction p; simpl; intros H; [auto | inversion H; auto]. Qed.

Lemma eqb_append_l p a b : String.eqb (p ++ a) (p ++ b) = String.eqb a b.
Proof.
  induction p; simpl; [reflexivity|]. now rewrite Ascii.eqb_refl.
Qed.

Lemma for_source_source f k v : for_source f (source_conflict k v) = String.eqb k f.
Proof. unfold for_source, source_conflict. cbn [c_id c_type is_duplicate_source andb]. apply eqb_append_l. Qed.

Lemma for_source_target f k v : for_source f (target_conflict k v) = false.
Proof. reflexivity. Qed.

Lemma duplicate_source_for_cons f c cs :
  duplicate_source_for f (c :: cs) =
  if for_source f c then c :: duplicate_source_for f cs else duplicate_source_for f cs.
Proof. reflexivity. Qed.

Lemma duplicate_source_for_source f m :
  NoDup (map fst m) ->
  duplicate_source_for f (push_conflicts source_conflict m) =
  match map_get f m with
  | Some ids => if 1 <? List.length ids then [source_conflict f ids] else []
  | None => []
  end.
Proof.
  induction m as [|[k v] m IH]; intros Hnd; [reflexivity|].
  inversion Hnd as [|? ? Hk Hnd']; subst.
  specialize (IH Hnd').
  cbn [push_conflicts map_get].
  destruct (String.eqb f k) eqn:E.
  - apply String.eqb_eq in E. subst k.
    apply map_get_none_keys in Hk. rewrite Hk in IH.
    destruct (1 <? List.length v); [|exact IH].
    rewrite duplicate_source_for_cons, for_source_source, String.eqb_refl.
    now rewrite IH.
  - destruct (1 <? List.length v); [|exact IH].
    rewrite duplicate_source_for_cons, for_source_source, String.eqb_sym, E.
    exact IH.
Qed.

Lemma duplicate_source_for_target f m :
  duplicate_source_for f (push_conflicts target_conflict m) = [].
Proof.
  induction m as [|[k v] m IH]; [reflexivity|].
  cbn [push_conflicts].
  destruct (1 <? List.length v); [|exact IH].
  now rewrite duplicate_source_for_cons, for_source_target.
Qed.

Lemma duplicate_source_for_app f a b :
  duplicate_source_for f (a ++ b) = duplicate_source_for f a ++ duplicate_source_for f b.
Proof. apply filter_app. Qed.

Lemma detect_duplicate_source f ms :
  duplicate_source_for f (detect ms) =
  if 1 <? List.length (ids_with source_field f ms)
  then [source_conflict f (ids_with source_field f ms)] else [].
Proof.
  unfold detect. rewrite duplicate_source_for_app, duplicate_source_for_target, app_nil_r.
  rewrite duplicate_source_for_source by apply fieldCounts_NoDup.
  rewrite fieldCounts_get.
  destruct (ids_with source_field f ms); reflexivity.
Qed.

Lemma push_conflicts_In mk m c :
  In c (push_conflicts mk m) ->
  exists k v, In (k, v) m /\ c = mk k v /\ 2 <= List.length v.
Proof.
  induction m as [|[k v] m IH]; simpl; [tauto|].
  destruct (1 <? List.length v) eqn:E; simpl.
  - intros [H|H].
    + exists k, v. apply Nat.ltb_lt in E. auto.
    + destruct (IH H) as (k' & v' & ? & ? & ?). exists k', v'. auto.
  - intros H. destruct (IH H) as (k' & v' & ? & ? & ?). exists k', v'. auto.
Qed.

Lemma In_map_get k v m :
  NoDup (map fst m) -> In (k, v) m -> map_get k m = Some v.
Proof.
  induction m as [|[k0 v0] m IH]; simpl; [tauto|].
  intros Hnd [H|H]; inversion Hnd; subst.
  - inversion H; subst. now rewrite String.eqb_refl.
  - destruct (String.eqb k k0) eqn:E; [|auto].
    apply String.eqb_eq in E. subst k0.
    exfalso. apply H2. change k with (fst (k, v)). now apply in_map.
Qed.


End StoreFacts.

Section RemoveMapping.
Import Store StoreDefs Fixtures.

Lemma includes_id_In xs x : includes_id xs x = true <-> In x xs.
Proof.
  unfold includes_id. rewrite existsb_exists. split.
  - intros (y & Hy & E). apply String.eqb_eq in E. now subst.
  - intros H. exists x. split; [assumption | apply String.eqb_refl].
Qed.

(** C4, as the specification words it, refuted: removing [m1] from two
    mappings in conflict on [a] does not leave the conflict with [m1]
    stripped from it; the conflict is gone. *)
Lemma removeMapping_does_not_strip :
  let w' := removeMapping "m1" two_on_a in
  conflicts (store two_on_a) = [source_conflict "a" ["m1"; "m2"]]
  /\ conflicts (store w') <> map (strip_id "m1") (conflicts (store two_on_a))
  /\ conflicts (store w') = [].
Proof.
  vm_compute. repeat split. discriminate.
Qed.

(** C4, amended: [removeMapping ident] keeps, in order, exactly the mappings
    whose id differs from [ident], keeps, unchanged and in order, exactly
    the conflicts that do not name [ident] (a conflict that names it is
    dropped whole), and touches nothing else: no validation pass runs, the
    clock is not read. *)
Theorem removeMapping_drops_record_and_conflicts (ident : string) (w : World) :
  let w' := removeMapping ident w in
  mappings (store w') = filter (fun m => negb (String.eqb (id m) ident)) (mappings (store w))
  /\ (forall m, In m (mappings (store w')) <->
                In m (mappings (store w)) /\ id m <> ident)
  /\ conflicts (store w') =
       filter (fun c => negb (includes_id (affected_mappings c) ident)) (conflicts (store w))
  /\ (forall c, In c (conflicts (store w')) <->
                In c (conflicts (store w)) /\ ~ In ident (affected_mappings c))
  /\ documentId (store w') = documentId (store w)
  /\ tick w' = tick w /\ oracle w' = oracle w.
Proof.
  cbn.
  split; [reflexivity|]. split.
  { intros m. rewrite filter_In, negb_true_iff, String.eqb_neq. tauto. }
  split; [reflexivity|]. split.
  { intros c. rewrite filter_In, negb_true_iff.
    rewrite <- (includes_id_In (affected_mappings c) ident).
    destruct (includes_id (affected_mappings c) ident); intuition congruence. }
  repeat split.
Qed.

(** The conflict list after [removeMapping] can differ from what a
    validation pass would compute: with three mappings on [a], removing one
    leaves two in conflict and no conflict recorded. *)
Lemma removeMapping_no_validation :
  let w' := removeMapping "m1" three_on_a in
  conflicts (store w') = []
  /\ fst (validateMappings w') = [source_conflict "a" ["m2"; "m3"]].
Proof. vm_compute. split; reflexivity. Qed.

End RemoveMapping.

Section ConflictResolution.
Import Store StoreDefs Fixtures.

(** C5 at the failing input: resolving the conflict of [two_on_a] with
    [modify] and a new target field rewrites [target_field] and
    [updated_at] of both mappings and leaves [user_modified] false. *)
Theorem resolveConflict_modify_keeps_user_modified :
  let w' := resolveConflict "conflict-duplicate-source-a" modify
              (Some (retarget "z")) two_on_a in
  map target_field (mappings (store two_on_a)) = ["x"; "y"]
  /\ map target_field (mappings (store w')) = ["z"; "z"]
  /\ map updated_at (mappings (store w')) = ["T0"; "T1"]
  /\ map user_modified (mappings (store w')) = [false; false].
Proof. vm_compute. repeat split. Qed.

Lemma update_matching_tick o ident u ms : forall t,
  t <= snd (update_matching o ident u ms t).
Proof.
  induction ms as [|m ms IH]; intros t; simpl; [lia|].
  destruct (String.eqb (id m) ident).
  - specialize (IH (S t)). destruct (update_matching o ident u ms (S t)); simpl in *. lia.
  - specialize (IH t). destruct (update_matching o ident u ms t); simpl in *. lia.
Qed.

(** What [updateMapping] does to each record: one that carries the id gets
    the updates merged, [user_modified = true] and a fresh [updated_at]
    read from the clock during the call; any other record is unchanged. *)
Lemma update_matching_spec o ident u ms : forall t,
  Forall2
    (fun m m' =>
       if String.eqb (id m) ident
       then user_modified m' = true
            /\ (exists t', t <= t' < snd (update_matching o ident u ms t)
                           /\ updated_at m' = isoString o t')
            /\ m' = set_user_modified (set_updated_at (spread m u) (updated_at m')) true
       else m' = m)
    ms (fst (update_matching o ident u ms t)).
Proof.
  induction ms as [|m ms IH]; intros t; simpl; [constructor|].
  destruct (String.eqb (id m) ident) eqn:E.
  - specialize (IH (S t)). pose proof (update_matching_tick o ident u ms (S t)) as Ht.
    destruct (update_matching o ident u ms (S t)) as [ms' t'] eqn:Eu; simpl in *.
    constructor.
    + rewrite E. split; [reflexivity|]. split; [|reflexivity].
      exists t. split; [lia | reflexivity].
    + eapply Forall2_impl; [|exact IH]. intros a b. cbv beta.
      destruct (String.eqb (id a) ident); [|auto].
      intros (H1 & (t0 & H2 & H3) & H4). split; [assumption|]. split; [|assumption].
      exists t0. split; [lia | assumption].
  - specialize (IH t).
    destruct (update_matching o ident u ms t) as [ms' t'] eqn:Eu; simpl in *.
    constructor; [now rewrite E | exact IH].
Qed.

Lemma updateMapping_sets_user_modified ident u w :
  Forall2
    (fun m m' =>
       if String.eqb (id m) ident
       then user_modified m' = true
            /\ (exists t', tick w <= t' < tick (updateMapping ident u w)
                           /\ updated_at m' = isoString (oracle w) t')
            /\ m' = set_user_modified (set_updated_at (spread m u) (updated_at m')) true
       else m' = m)
    (mappings (store w)) (mappings (store (updateMapping ident u w))).
Proof.
  unfold updateMapping.
  pose proof (update_matching_spec (oracle w) ident u (mappings (store w)) (tick w)) as H.
  destruct (update_matching (oracle w) ident u (mappings (store w)) (tick w)) as [ms t'].
  exact H.
Qed.

End ConflictResolution.


(* ================================================================== *)
(** ** [levenshteinDistance] is the edit distance *)
(* ================================================================== *)

Section LevenshteinFacts.
Import Similarity EditDistance.

Lemma lev_nil_r s : lev s [] = List.length s.
Proof. destruct s; reflexivity. Qed.

Lemma lev_cons a s b t :
  lev (a :: s) (b :: t) =
  Nat.min (Nat.min (lev s (b :: t) + 1) (lev (a :: s) t + 1))
          (lev s t + indicator a b).
Proof. reflexivity. Qed.

Lemma edits_insert_all t : edits [] t (List.length t).
Proof. induction t; cbn; constructor; assumption. Qed.

Lemma edits_delete_all s : edits s [] (List.length s).
Proof. induction s; cbn; constructor; assumption. Qed.

(** The recursive distance is the cost of some edit script ... *)
Lemma lev_edits s : forall t, edits s t (lev s t).
Proof.
  induction s as [|a s IHs]; intros t.
  - apply edits_insert_all.
  - induction t as [|b t IHt].
    + rewrite lev_nil_r. apply edits_delete_all.
    + rewrite lev_cons.
      destruct (Nat.min_dec (Nat.min (lev s (b :: t) + 1) (lev (a :: s) t + 1))
                            (lev s t + indicator a b)) as [E|E]; rewrite E.
      * destruct (Nat.min_dec (lev s (b :: t) + 1) (lev (a :: s) t + 1)) as [E'|E'];
          rewrite E', Nat.add_1_r.
        -- apply edits_delete, IHs.
        -- apply edits_insert, IHt.
      * apply edits_substitute, IHs.
Qed.

(** ... and no edit script is cheaper. *)
Lemma lev_least s t n : edits s t n -> lev s t <= n.
Proof.
  induction 1 as [|a s t n H IH|b s t n H IH|a b s t n H IH].
  - reflexivity.
  - destruct t as [|b t].
    + rewrite !lev_nil_r in *. cbn. lia.
    + rewrite lev_cons. lia.
  - destruct s as [|a s].
    + cbn in *. lia.
    + rewrite lev_cons. lia.
  - rewrite lev_cons. lia.
Qed.

Lemma edits_snoc_delete s t n a : edits s t n -> edits (s ++ [a]) t (S n).
Proof.
  induction 1 as [|a0 s t n H IH|b s t n H IH|a0 b s t n H IH]; cbn.
  - apply edits_delete, edits_nil.
  - apply edits_delete, IH.
  - apply edits_insert, IH.
  - change (S (n + indicator a0 b)) with (S n + indicator a0 b).
    apply edits_substitute, IH.
Qed.

Lemma edits_snoc_insert s t n b : edits s t n -> edits s (t ++ [b]) (S n).
Proof.
  induction 1 as [|a s t n H IH|b0 s t n H IH|a b0 s t n H IH]; cbn.
  - apply edits_insert, edits_nil.
  - apply edits_delete, IH.
  - apply edits_insert, IH.
  - change (S (n + indicator a b0)) with (S n + indicator a b0).
    apply edits_substitute, IH.
Qed.

Lemma edits_snoc_substitute s t n a b :
  edits s t n -> edits (s ++ [a]) (t ++ [b]) (n + indicator a b).
Proof.
  induction 1 as [|a0 s t n H IH|b0 s t n H IH|a0 b0 s t n H IH]; cbn.
  - apply (edits_substitute a b edits_nil).
  - apply edits_delete, IH.
  - apply edits_insert, IH.
  - replace (n + indicator a0 b0 + indicator a b)
      with (n + indicator a b + indicator a0 b0) by lia.
    apply edits_substitute, IH.
Qed.

Lemma edits_rev s t n : edits s t n -> edits (rev s) (rev t) n.
Proof.
  induction 1 as [|a s t n H IH|b s t n H IH|a b s t n H IH]; cbn.
  - constructor.
  - now apply edits_snoc_delete.
  - now apply edits_snoc_insert.
  - now apply edits_snoc_substitute.
Qed.

Lemma lev_rev s t : lev (rev s) (rev t) = lev s t.
Proof.
  apply Nat.le_antisymm.
  - apply lev_least, edits_rev, lev_edits.
  - rewrite <- (rev_involutive s), <- (rev_involutive t) at 1.
    apply lev_least, edits_rev, lev_edits.
Qed.

Lemma chars_length s : List.length (chars s) = String.length s.
Proof. induction s; cbn; [reflexivity | now rewrite IHs]. Qed.

Lemma firstn_snoc {A} (x : list A) c rest :
  firstn (S (List.length x)) (x ++ c :: rest) = x ++ [c].
Proof.
  induction x as [|a x IH]; cbn [List.length app]; [reflexivity|].
  now rewrite firstn_cons, IH.
Qed.

Lemma firstn_exact {A} (x rest : list A) :
  firstn (List.length x) (x ++ rest) = x.
Proof.
  induction x as [|a x IH]; cbn [List.length app]; [now destruct rest|].
  now rewrite firstn_cons, IH.
Qed.

(** One row of the matrix from the previous one. *)
Lemma lev_row_spec c2 y : forall rest x,
  lev_row c2 rest
    (matrix_row (x ++ chars rest) y (List.length x) (S (String.length rest)))
    (lev (rev x) (rev (y ++ [c2])))
  = matrix_row (x ++ chars rest) (y ++ [c2]) (S (List.length x)) (String.length rest).
Proof.
  induction rest as [|c1 rest IH]; intros x.
  - reflexivity.
  - cbn [chars String.length].
    unfold matrix_row at 1. cbn [seq map lev_row].
    change (map (fun i => lev (rev (firstn i (x ++ c1 :: chars rest))) (rev y))
              (seq (S (S (List.length x))) (String.length rest)))
      with (matrix_row (x ++ c1 :: chars rest) y (S (S (List.length x)))
              (String.length rest)).
    rewrite firstn_exact, firstn_snoc.
    unfold matrix_row at 2. cbn [seq map]. rewrite firstn_snoc.
    assert (Hv :
      Nat.min (Nat.min (lev (rev x) (rev (y ++ [c2])) + 1)
                       (lev (rev (x ++ [c1])) (rev y) + 1))
              (lev (rev x) (rev y) + (if Ascii.eqb c1 c2 then 0 else 1))
      = lev (rev (x ++ [c1])) (rev (y ++ [c2]))).
    { rewrite !rev_app_distr. cbn [rev app]. rewrite lev_cons. reflexivity. }
    rewrite Hv. f_equal.
    specialize (IH (x ++ [c1])).
    rewrite <- app_assoc in IH. cbn [app] in IH.
    rewrite length_app in IH. cbn [List.length] in IH.
    rewrite Nat.add_1_r in IH.
    unfold matrix_row in *. cbn [seq map] in IH. rewrite firstn_snoc in IH.
    exact IH.
Qed.

Lemma matrix_row_zero s from count :
  from + count <= S (List.length s) ->
  matrix_row s [] from count = seq from count.
Proof.
  revert from. induction count as [|count IH]; intros from H; [reflexivity|].
  unfold matrix_row in *. cbn [seq map]. rewrite IH by lia.
  f_equal. cbn [rev]. rewrite lev_nil_r, length_rev, length_firstn. lia.
Qed.

(** All rows: after the characters of [rest], the row of [y ++ rest]. *)
Lemma lev_rows_spec str1 : forall rest y,
  lev_rows rest str1 (List.length y)
    (matrix_row (chars str1) y 0 (S (String.length str1)))
  = matrix_row (chars str1) (y ++ chars rest) 0 (S (String.length str1)).
Proof.
  induction rest as [|c2 rest IH]; intros y.
  - cbn [lev_rows chars]. now rewrite app_nil_r.
  - cbn [lev_rows chars].
    pose proof (lev_row_spec c2 y str1 []) as Hrow.
    cbn [app List.length rev lev] in Hrow.
    rewrite length_rev, length_app in Hrow. cbn [List.length] in Hrow.
    rewrite Nat.add_1_r in Hrow.
    rewrite Hrow.
    specialize (IH (y ++ [c2])). rewrite <- app_assoc in IH. cbn [app] in IH.
    rewrite length_app in IH. cbn [List.length] in IH. rewrite Nat.add_1_r in IH.
    replace (S (List.length y)
               :: matrix_row (chars str1) (y ++ [c2]) 1 (String.length str1))
      with (matrix_row (chars str1) (y ++ [c2]) 0 (S (String.length str1)));
      [exact IH|].
    unfold matrix_row. cbn [seq map firstn rev]. f_equal.
    cbn [lev]. now rewrite length_rev, length_app, Nat.add_1_r.
Qed.

Lemma last_matrix_row s y :
  last (matrix_row s y 0 (S (List.length s))) 0 = lev (rev s) (rev y).
Proof.
  unfold matrix_row. rewrite seq_S, map_app. cbn [map Nat.add].
  now rewrite last_last, firstn_all.
Qed.

(** [levenshteinDistance str1 str2] is the least cost of an edit script
    from [str1] to [str2]: some script has that cost and none has less. *)
Theorem levenshteinDistance_is_edit_distance (str1 str2 : string) :
  levenshteinDistance str1 str2 = lev (chars str1) (chars str2)
  /\ edits (chars str1) (chars str2) (levenshteinDistance str1 str2)
  /\ (forall n, edits (chars str1) (chars str2) n ->
                levenshteinDistance str1 str2 <= n).
Proof.
  assert (E : levenshteinDistance str1 str2 = lev (chars str1) (chars str2)).
  { unfold levenshteinDistance.
    pose proof (lev_rows_spec str1 str2 []) as H.
    cbn [List.length app] in H.
    rewrite matrix_row_zero in H by (rewrite chars_length; lia).
    rewrite H, <- chars_length, last_matrix_row. apply lev_rev. }
  rewrite E. split; [reflexivity|]. split; [apply lev_edits | apply lev_least].
Qed.

End LevenshteinFacts.


(* ================================================================== *)
(** ** Properties of the similarity scorer *)
(* ================================================================== *)

Section SimilarityFacts.
Import Similarity EditDistance.


Lemma includes_in_empty p : p <> EmptyString -> Str.includes EmptyString p = false.
Proof. destruct p; [congruence | reflexivity]. Qed.

Lemma length_zero_empty s : String.length s = 0 -> s = EmptyString.
Proof. destruct s; [reflexivity | discriminate]. Qed.




End SimilarityFacts.


(* ================================================================== *)
(** ** Properties of the command parser *)
(* ================================================================== *)

Section ParserFacts.
Import Parser ParserDefs.








Lemma truthy_Some raw : raw <> EmptyString -> truthy (Some raw) = true.
Proof.
  intros H. unfold truthy. apply negb_true_iff, String.eqb_neq. exact H.
Qed.






End ParserFacts.


(* ================================================================== *)
(** ** Characters, tokens and the matcher *)
(* ================================================================== *)

Section CharFacts.
Import Regex TokenDefs.

Lemma lower_char_idem c : Str.lower_char (Str.lower_char c) = Str.lower_char c.
Proof. by_cases_on c. Qed.

Lemma lower_char_class k c : in_class k (Str.lower_char c) = in_class k c
                              \/ k = CWord \/ k = CDigit.
Proof. destruct k; auto; left; by_cases_on c. Qed.

Lemma lower_char_tok c : in_class CTok (Str.lower_char c) = in_class CTok c.
Proof. by_cases_on c. Qed.

Lemma tok_not_space c : in_class CTok c = true -> in_class CSpace c = false.
Proof. destruct c as [[] [] [] [] [] [] [] []]; vm_compute; congruence. Qed.

Lemma tok_not_quote c : in_class CTok c = true -> in_class CQuote c = false.
Proof. destruct c as [[] [] [] [] [] [] [] []]; vm_compute; congruence. Qed.

Lemma toLowerCase_app s t :
  Str.toLowerCase (s ++ t) = (Str.toLowerCase s ++ Str.toLowerCase t)%string.
Proof. induction s; simpl; [reflexivity | now rewrite IHs]. Qed.

Lemma toLowerCase_idem s : Str.toLowerCase (Str.toLowerCase s) = Str.toLowerCase s.
Proof.
  induction s; cbn [Str.toLowerCase]; [reflexivity | now rewrite lower_char_idem, IHs].
Qed.

Lemma all_in_tok_lower s : all_in CTok (Str.toLowerCase s) = all_in CTok s.
Proof.
  induction s; cbn [all_in Str.toLowerCase]; [reflexivity | now rewrite lower_char_tok, IHs].
Qed.

Lemma is_token_lower s : is_token (Str.toLowerCase s) = is_token s.
Proof.
  unfold is_token. rewrite all_in_tok_lower. destruct s; reflexivity.
Qed.

Lemma is_token_inv s :
  is_token s = true ->
  exists c s', s = String c s' /\ in_class CTok c = true /\ all_in CTok s' = true.
Proof.
  unfold is_token. destruct s as [|c s']; [discriminate|].
  cbn [String.eqb negb andb all_in]. intros H. apply andb_true_iff in H.
  exists c, s'. tauto.
Qed.

Lemma all_in_head_not_space s : all_in CTok s = true -> head_not CSpace s.
Proof.
  destruct s as [|c s']; [exact (fun _ => I)|]. cbn [all_in head_not].
  intros H. apply andb_true_iff in H. apply tok_not_space. tauto.
Qed.

Lemma all_in_head_not_quote s : all_in CTok s = true -> head_not CQuote s.
Proof.
  destruct s as [|c s']; [exact (fun _ => I)|]. cbn [all_in head_not].
  intros H. apply andb_true_iff in H. apply tok_not_quote. tauto.
Qed.

Lemma trimEnd_token s : is_token s = true -> Str.trimEnd s = s.
Proof.
  intros H. apply is_token_inv in H. destruct H as (c & s' & -> & Hc & Hs).
  revert c Hc. induction s' as [|d s' IH]; intros c Hc.
  - cbn. apply tok_not_space in Hc. cbn in Hc. now rewrite Hc.
  - cbn [all_in] in Hs. apply andb_true_iff in Hs. destruct Hs as [Hd Hs].
    specialize (IH Hs d Hd).
    change (Str.trimEnd (String c (String d s')))
      with (match Str.trimEnd (String d s') with
            | EmptyString => if Str.is_space c then EmptyString else String c EmptyString
            | t => String c t
            end).
    now rewrite IH.
Qed.

Lemma trimEnd_app s t :
  t <> EmptyString -> Str.trimEnd t = t -> Str.trimEnd (s ++ t) = (s ++ t)%string.
Proof.
  intros Hne Ht. induction s as [|c s IH]; [exact Ht|].
  cbn [append Str.trimEnd]. rewrite IH.
  destruct (s ++ t)%string eqn:E; [|reflexivity].
  destruct s; [simpl in E; congruence | discriminate].
Qed.

Lemma is_token_nonempty s : is_token s = true -> s <> EmptyString.
Proof. destruct s; [discriminate | discriminate]. Qed.

Lemma string_length_app s t : String.length (s ++ t) = String.length s + String.length t.
Proof. induction s; simpl; [reflexivity | now rewrite IHs]. Qed.

Lemma substring_prefix s t : substring 0 (String.length s) (s ++ t) = s.
Proof. induction s; simpl; [destruct t; reflexivity | now rewrite IHs]. Qed.

Lemma consumed_app s t : consumed (s ++ t) t = s.
Proof.
  unfold consumed. rewrite string_length_app.
  replace (String.length s + String.length t - String.length t) with (String.length s) by lia.
  apply substring_prefix.
Qed.

Lemma app_empty_r s : (s ++ EmptyString)%string = s.
Proof. induction s; simpl; [reflexivity | now rewrite IHs]. Qed.

Lemma app_assoc_string s t u : ((s ++ t) ++ u)%string = (s ++ (t ++ u))%string.
Proof. induction s; simpl; [reflexivity | now rewrite IHs]. Qed.

End CharFacts.

Section MatcherFacts.
Import Regex TokenDefs.

Variable R : Type.

Lemma plus_from_head_not k s (cont : string -> option R) :
  head_not k s -> plus_from k s cont = None.
Proof.
  destruct s as [|c s]; [reflexivity|]. cbn [head_not plus_from].
  now intros ->.
Qed.

(** The greedy run: when the continuation accepts what follows the whole
    run, that is the match. *)
Lemma plus_from_run k run rest (cont : string -> option R) x :
  all_in k run = true -> run <> EmptyString -> head_not k rest ->
  cont rest = Some x ->
  plus_from k (run ++ rest) cont = Some x.
Proof.
  intros Hall Hne Hrest Hcont.
  induction run as [|c run IH]; [congruence|].
  cbn [all_in] in Hall. apply andb_true_iff in Hall. destruct Hall as [Hc Hall].
  cbn [append plus_from]. rewrite Hc.
  destruct run as [|d run'].
  - cbn [append]. rewrite plus_from_head_not by assumption. exact Hcont.
  - rewrite IH; [reflexivity | assumption | discriminate].
Qed.

(** When the continuation rejects every input, so does the run. *)
Lemma plus_from_none k s (cont : string -> option R) :
  (forall s', cont s' = None) -> plus_from k s cont = None.
Proof.
  intros H. induction s as [|c s IH]; [reflexivity|].
  cbn [plus_from]. rewrite IH, H. now destruct (in_class k c).
Qed.

Lemma rmatch_quote_opt_skip s caps (cont : string -> list string -> option R) :
  head_not CQuote s -> rmatch quote_opt s caps cont = cont s caps.
Proof.
  destruct s as [|c s]; [reflexivity|]. cbn [head_not]. intros H.
  unfold quote_opt. cbn [rmatch]. now rewrite H.
Qed.

Lemma rmatch_sp_one s caps (cont : string -> list string -> option R) :
  head_not CSpace s -> rmatch sp (String " " s) caps cont = cont s caps.
Proof.
  intros H. unfold sp. cbn [rmatch plus_from].
  change (in_class CSpace " ") with true. cbv iota.
  now rewrite plus_from_head_not by assumption.
Qed.

Lemma rmatch_sp_fail s caps (cont : string -> list string -> option R) :
  head_not CSpace s -> rmatch sp s caps cont = None.
Proof. intros H. unfold sp. cbn [rmatch]. now apply plus_from_head_not. Qed.

Lemma rmatch_field_tok run rest caps (cont : string -> list string -> option R) x :
  all_in CTok run = true -> run <> EmptyString -> head_not CTok rest ->
  cont rest (caps ++ [run]) = Some x ->
  rmatch field_tok (run ++ rest) caps cont = Some x.
Proof.
  intros Hall Hne Hrest Hcont. unfold field_tok. cbn [rmatch].
  apply plus_from_run; auto. now rewrite consumed_app.
Qed.

End MatcherFacts.


(* ================================================================== *)
(** ** The pattern [map X to Y] on the instruction [Map a to b] *)
(* ================================================================== *)

Section MapPattern.
Import Regex TokenDefs Parser.

Lemma map_tail2_unfold s caps :
  rmatch map_tail2 s caps final =
  rmatch quote_opt s caps (fun s1 c1 =>
  rmatch sp s1 c1 (fun s2 c2 =>
  rmatch (RLit "to") s2 c2 (fun s3 c3 =>
  rmatch sp s3 c3 (fun s4 c4 =>
  rmatch quote_opt s4 c4 (fun s5 c5 =>
  rmatch field_tok s5 c5 (fun s6 c6 =>
  rmatch quote_opt s6 c6 final)))))).
Proof. reflexivity. Qed.

Lemma map_tail_unfold s caps :
  rmatch map_tail s caps final =
  rmatch quote_opt s caps (fun s1 c1 =>
  rmatch field_tok s1 c1 (fun s2 c2 =>
  rmatch map_tail2 s2 c2 final)).
Proof. reflexivity. Qed.

Lemma map_pattern_unfold s caps :
  rmatch map_pattern s caps final =
  rmatch (RLit "map") s caps (fun s1 c1 =>
  rmatch sp s1 c1 (fun s2 c2 =>
  rmatch (word_opt "field") s2 c2 (fun s3 c3 =>
  rmatch map_tail s3 c3 final))).
Proof. reflexivity. Qed.

Lemma is_token_all s : is_token s = true -> all_in CTok s = true.
Proof. unfold is_token. intros H. apply andb_true_iff in H. tauto. Qed.

Lemma rmatch_lit l s s' caps (cont : string -> list string -> option (list string)) :
  strip_lit l s = Some s' -> rmatch (RLit l) s caps cont = cont s' caps.
Proof. intros H. cbn [rmatch]. now rewrite H. Qed.

Lemma rmatch_lit_fail l s caps (cont : string -> list string -> option (list string)) :
  strip_lit l s = None -> rmatch (RLit l) s caps cont = None.
Proof. intros H. cbn [rmatch]. now rewrite H. Qed.

Lemma strip_lit_token_suffix l s s' :
  strip_lit l s = Some s' -> all_in CTok s = true -> all_in CTok s' = true.
Proof.
  revert s. induction l as [|a l IH]; intros s H Hall.
  - cbn in H. congruence.
  - destruct s as [|c s]; [discriminate|]. cbn [strip_lit] in H.
    destruct (Ascii.eqb a (Str.lower_char c)); [|discriminate].
    cbn [all_in] in Hall. apply andb_true_iff in Hall. apply (IH s); tauto.
Qed.

Lemma map_tail2_ok lb caps :
  is_token lb = true ->
  rmatch map_tail2 (" to " ++ lb) caps final = Some (caps ++ [lb]).
Proof.
  intros Hb. pose proof (@is_token_nonempty lb Hb) as Hne.
  pose proof (@is_token_all lb Hb) as Hall.
  rewrite map_tail2_unfold.
  rewrite rmatch_quote_opt_skip by reflexivity.
  change (" to " ++ lb)%string with (String " " ("to " ++ lb)).
  rewrite rmatch_sp_one by reflexivity.
  rewrite (@rmatch_lit "to" ("to " ++ lb) (String " " lb)) by reflexivity.
  rewrite rmatch_sp_one by (now apply all_in_head_not_space).
  rewrite rmatch_quote_opt_skip by (now apply all_in_head_not_quote).
  rewrite <- (app_empty_r lb) at 1.
  apply rmatch_field_tok.
  - exact Hall.
  - exact Hne.
  - exact I.
  - reflexivity.
Qed.

Lemma map_tail_ok la lb caps :
  is_token la = true -> is_token lb = true ->
  rmatch map_tail (la ++ " to " ++ lb) caps final = Some (caps ++ [la; lb]).
Proof.
  intros Ha Hb.
  rewrite map_tail_unfold.
  rewrite rmatch_quote_opt_skip.
  2:{ apply is_token_inv in Ha. destruct Ha as (c & s' & -> & Hc & _).
      cbn [append head_not]. now apply tok_not_quote. }
  apply rmatch_field_tok.
  - now apply is_token_all.
  - now apply is_token_nonempty.
  - reflexivity.
  - rewrite map_tail2_ok by assumption. now rewrite <- app_assoc.
Qed.

Lemma map_tail2_fail_o lb caps :
  rmatch map_tail2 ("o " ++ lb) caps final = None.
Proof.
  rewrite map_tail2_unfold.
  rewrite rmatch_quote_opt_skip by reflexivity.
  now rewrite rmatch_sp_fail by reflexivity.
Qed.

Lemma map_tail2_fail_sp lb caps :
  all_in CTok lb = true ->
  rmatch map_tail2 (" " ++ lb) caps final = None.
Proof.
  intros Hall.
  rewrite map_tail2_unfold.
  rewrite rmatch_quote_opt_skip by reflexivity.
  change (" " ++ lb)%string with (String " " lb).
  rewrite rmatch_sp_one by (now apply all_in_head_not_space).
  destruct (strip_lit "to" lb) as [lb'|] eqn:E.
  - rewrite (@rmatch_lit _ _ _ caps _ E).
    apply rmatch_sp_fail. apply all_in_head_not_space.
    exact (@strip_lit_token_suffix _ _ _ E Hall).
  - now apply rmatch_lit_fail.
Qed.

(** After the word [field], the text [to b] cannot be a source field
    followed by the word [to]. *)
Lemma map_tail_on_to lb caps :
  all_in CTok lb = true ->
  rmatch map_tail ("to " ++ lb) caps final = None.
Proof.
  intros Hall.
  rewrite map_tail_unfold.
  rewrite rmatch_quote_opt_skip by reflexivity.
  unfold field_tok. cbn [rmatch].
  change ("to " ++ lb)%string with (String "t" (String "o" (String " " lb))).
  cbn [plus_from].
  change (in_class CTok "t") with true.
  change (in_class CTok "o") with true.
  change (in_class CTok " ") with false.
  cbv iota.
  change (String " " lb) with (" " ++ lb)%string.
  rewrite map_tail2_fail_sp by assumption.
  change (String "o" (" " ++ lb)) with ("o " ++ lb)%string.
  now rewrite map_tail2_fail_o.
Qed.

(** A literal made of token characters, matched on a token followed by a
    space, ends inside the token. *)
Lemma strip_lit_within l : forall la rest s',
  all_in CTok l = true -> all_in CTok la = true ->
  strip_lit l (la ++ String " " rest) = Some s' ->
  exists la', s' = (la' ++ String " " rest)%string /\ all_in CTok la' = true.
Proof.
  induction l as [|a l IH]; intros la rest s' Hl Hla H.
  - cbn in H. inversion H. eauto.
  - cbn [all_in] in Hl. apply andb_true_iff in Hl. destruct Hl as [Ha Hl].
    destruct la as [|c la].
    + cbn [append strip_lit] in H.
      destruct (Ascii.eqb a (Str.lower_char " ")) eqn:E; [|discriminate].
      apply Ascii.eqb_eq in E. subst a. discriminate.
    + cbn [append strip_lit] in H.
      destruct (Ascii.eqb a (Str.lower_char c)); [|discriminate].
      cbn [all_in] in Hla. apply andb_true_iff in Hla.
      apply (IH la rest s'); tauto.
Qed.

Lemma field_detour_fails la lb caps :
  is_token la = true -> is_token lb = true ->
  rmatch (RSeq (RLit "field") sp) (la ++ " to " ++ lb) caps
    (fun s c => rmatch map_tail s c final) = None.
Proof.
  intros Ha Hb. cbn [rmatch].
  change (la ++ " to " ++ lb)%string with (la ++ String " " ("to " ++ lb))%string.
  destruct (strip_lit "field" (la ++ String " " ("to " ++ lb))) as [s'|] eqn:E;
    [|reflexivity].
  apply strip_lit_within in E; [|reflexivity | now apply is_token_all].
  destruct E as (la' & -> & Hla').
  destruct la' as [|c la'].
  - cbn [append].
    rewrite rmatch_sp_one by reflexivity.
    apply map_tail_on_to. now apply is_token_all.
  - apply rmatch_sp_fail. cbn [append head_not].
    cbn [all_in] in Hla'. apply andb_true_iff in Hla'. apply tok_not_space. tauto.
Qed.

Lemma map_pattern_here la lb :
  is_token la = true -> is_token lb = true ->
  match_here map_pattern ("map " ++ la ++ " to " ++ lb) = Some [la; lb].
Proof.
  intros Ha Hb. unfold match_here. fold final.
  rewrite map_pattern_unfold.
  rewrite (@rmatch_lit "map" ("map " ++ la ++ " to " ++ lb)
             (String " " (la ++ " to " ++ lb))) by reflexivity.
  rewrite rmatch_sp_one.
  2:{ apply is_token_inv in Ha. destruct Ha as (c & s' & -> & Hc & _).
      cbn [append head_not]. now apply tok_not_space. }
  unfold word_opt. cbn [rmatch].
  pose proof (@field_detour_fails la lb [] Ha Hb) as Hd. cbn [rmatch] in Hd.
  rewrite Hd.
  now rewrite map_tail_ok.
Qed.

Lemma map_pattern_search la lb :
  is_token la = true -> is_token lb = true ->
  search map_pattern ("map " ++ la ++ " to " ++ lb) = Some [la; lb].
Proof.
  intros Ha Hb.
  change ("map " ++ la ++ " to " ++ lb)%string
    with (String "m" ("ap " ++ la ++ " to " ++ lb)).
  cbn [search].
  change (String "m" ("ap " ++ la ++ " to " ++ lb))
    with ("map " ++ la ++ " to " ++ lb)%string.
  now rewrite map_pattern_here.
Qed.

Lemma first_match_map la lb :
  is_token la = true -> is_token lb = true ->
  first_match ("map " ++ la ++ " to " ++ lb) COMMAND_PATTERNS
  = Some (create, extract_source_target [la; lb]).
Proof.
  intros Ha Hb. unfold COMMAND_PATTERNS. cbn [first_match pattern ptype extract].
  now rewrite map_pattern_search.
Qed.

Lemma normalize_map_instruction a b :
  is_token b = true ->
  Str.toLowerCase (Str.trim (map_instruction a b))
  = ("map " ++ Str.toLowerCase a ++ " to " ++ Str.toLowerCase b)%string.
Proof.
  intros Hb. unfold map_instruction, Str.trim.
  change (Str.trimStart ("Map " ++ a ++ " to " ++ b)) with ("Map " ++ a ++ " to " ++ b)%string.
  replace ("Map " ++ a ++ " to " ++ b)%string with (("Map " ++ a ++ " to ") ++ b)%string
    by (now rewrite !app_assoc_string).
  rewrite trimEnd_app;
    [| now apply is_token_nonempty | now apply trimEnd_token].
  rewrite !app_assoc_string, !toLowerCase_app. reflexivity.
Qed.

(** The parse of [Map a to b] when [a] and [b] are tokens and are the
    first fields of their vocabularies with their spelling up to case. *)
Lemma parseCommand_map a b fields :
  is_token a = true -> is_token b = true ->
  exact_match a (source fields) = Some a ->
  exact_match b (target fields) = Some b ->
  parseCommand (map_instruction a b) fields =
  {| command :=
       Some {| type := create; sourceField := Some a; targetField := Some b;
               transformationType := None; confidence := None;
               reasoning := None; mappingId := None;
               originalCommand := map_instruction a b; parameters := None |};
     parse_confidence := (9 # 10)%Q;
     ambiguities := [];
     suggestions := [] |}.
Proof.
  intros Ha Hb Hsa Htb. unfold parseCommand.
  rewrite normalize_map_instruction by assumption.
  rewrite first_match_map by (now rewrite is_token_lower).
  unfold build_result, extract_source_target, group.
  cbn [nth_error Nat.sub e_sourceField e_targetField e_confidence
       e_transformationType resolve_confidence].
  assert (Hres : forall x vocab label,
             is_token x = true -> exact_match x vocab = Some x ->
             resolve_field label (Some (Str.toLowerCase x)) vocab = (Some x, [], [])).
  { intros x vocab label Hx Hex. unfold resolve_field.
    rewrite truthy_Some.
    2:{ apply is_token_nonempty. now rewrite is_token_lower. }
    unfold exact_match in *. rewrite toLowerCase_idem. now rewrite Hex. }
  rewrite (Hres a (source fields) "Source" Ha Hsa).
  rewrite (Hres b (target fields) "Target" Hb Htb).
  reflexivity.
Qed.

End MapPattern.


(* ================================================================== *)
(** ** Processing [Map a to b] twice *)
(* ================================================================== *)

Section MapTwice.
Import Store Parser Processor TokenDefs ProcessorDefs Fixtures.

(** C2, as the specification words it, refuted: [first name] is in the
    source vocabulary and [b] in the target vocabulary, yet
    [Map first name to b] matches no pattern; processed twice in
    succession it reports no applied change either time and the store ends
    without any mapping. *)
Lemma map_field_with_space_not_created :
  let instruction := map_instruction "first name" "b" in
  let run1 := process instruction ["first name"] ["b"] empty_world in
  let w1 := world_of (outcome_of run1) in
  let run2 := process instruction ["first name"] ["b"] w1 in
  let w2 := world_of (outcome_of run2) in
  In "first name" ["first name"] /\ In "b" ["b"]
  /\ first_match (Str.toLowerCase (Str.trim instruction)) COMMAND_PATTERNS = None
  /\ (exists r, outcome_of run1 = Returned r w1
                /\ success r = false /\ appliedChanges r = [])
  /\ (exists r, outcome_of run2 = Returned r w2
                /\ success r = false /\ appliedChanges r = [])
  /\ mappings (store w2) = []
  /\ active_on "first name" (mappings (store w2)) = [].
Proof.
  cbv zeta. split; [now left|]. split; [now left|]. split; [reflexivity|].
  split; [eexists; split; [reflexivity|]; split; reflexivity|].
  split; [eexists; split; [reflexivity|]; split; reflexivity|].
  split; reflexivity.
Qed.

(** The field of the command is the first of the vocabulary that equals
    the token up to case: with [A] listed before [a], [Map a to b] creates
    a mapping from [A]. *)
Lemma map_instruction_case_variant :
  let run := process (map_instruction "a" "b") ["A"; "a"] ["b"] empty_world in
  map source_field (mappings (store (world_of (outcome_of run)))) = ["A"].
Proof. reflexivity. Qed.

Lemma find_active_app_new a ms m :
  find_active a ms = None ->
  source_field m = a -> status m = active ->
  find_active a (ms ++ [m]) = Some m.
Proof.
  intros Hnone Hs Hst. unfold find_active in *.
  induction ms as [|x ms IH]; cbn [app find] in *.
  - rewrite Hs, Hst, String.eqb_refl. reflexivity.
  - destruct (String.eqb (source_field x) a && Status_eqb (status x) active);
      [discriminate | auto].
Qed.

Lemma update_matching_fresh o ident u ms t :
  ~ In ident (map id ms) -> update_matching o ident u ms t = (ms, t).
Proof.
  induction ms as [|m ms IH]; cbn [map In update_matching]; intros H; [reflexivity|].
  destruct (String.eqb (id m) ident) eqn:E.
  - apply String.eqb_eq in E. tauto.
  - rewrite IH by tauto. reflexivity.
Qed.

Lemma update_matching_app o ident u ms ms' t :
  update_matching o ident u (ms ++ ms') t =
  let (a, t1) := update_matching o ident u ms t in
  let (b, t2) := update_matching o ident u ms' t1 in
  (a ++ b, t2).
Proof.
  revert t. induction ms as [|m ms IH]; intros t; cbn [app update_matching].
  - destruct (update_matching o ident u ms' t); reflexivity.
  - destruct (String.eqb (id m) ident).
    + rewrite IH. destruct (update_matching o ident u ms (S t)) as [a t1].
      destruct (update_matching o ident u ms' t1) as [b t2]. reflexivity.
    + rewrite IH. destruct (update_matching o ident u ms t) as [a t1].
      destruct (update_matching o ident u ms' t1) as [b t2]. reflexivity.
Qed.

Lemma active_on_none a ms :
  find_active a ms = None -> active_on a ms = [].
Proof.
  unfold find_active, active_on, is_active.
  induction ms as [|m ms IH]; cbn [find filter]; [reflexivity|].
  destruct (String.eqb (source_field m) a), (Status_eqb (status m) active);
    cbn [andb]; try discriminate; auto.
Qed.

Lemma defined_token s : is_token s = true -> defined (Some s) = Some s.
Proof.
  intros H. unfold defined. now rewrite (truthy_Some (is_token_nonempty H)).
Qed.

Lemma executeCommand_create_new instruction a b ms w :
  is_token a = true -> is_token b = true ->
  find_active a ms = None ->
  exists w1,
    executeCommand (api := zustand) (create_command instruction a b) ms w =
      Returned (plain true ("✅ Created mapping: " ++ a ++ " → " ++ b)
                  [created_change (fresh_id w) a b]) w1
    /\ mappings (store w1) = mappings (store w) ++ [created_by instruction a b w]
    /\ tick w1 = tick w + 4 /\ oracle w1 = oracle w.
Proof.
  intros Ha Hb Hnone. eexists.
  unfold executeCommand, try_catch, execute_body, create_command.
  cbn [type sourceField targetField originalCommand].
  rewrite (@defined_token a Ha), (@defined_token b Hb), Hnone.
  unfold bind, ret. cbn [api_addMapping zustand].
  unfold addMapping. cbn [fst snd].
  split; [reflexivity|]. repeat split.
Qed.

Lemma executeCommand_create_existing instruction a b ms m w :
  is_token a = true -> is_token b = true ->
  find_active a ms = Some m ->
  executeCommand (api := zustand) (create_command instruction a b) ms w =
    Returned (plain true ("✅ Updated mapping: " ++ a ++ " → " ++ b)
                [updated_change (id m) a (target_field m) b])
      (updateMapping (id m)
         {| p_id := None; p_source_field := None; p_target_field := Some b;
            p_transformation_type := None; p_confidence := None;
            p_reasoning := Some ("Updated via AI command: " ++ Str.dq
                                   ++ instruction ++ Str.dq)%string;
            p_transformation_logic := None; p_potential_issues := None;
            p_sample_transformation := None; p_status := None;
            p_created_at := None; p_updated_at := None;
            p_user_modified := None; p_original_mapping := None;
            p_conflict_reason := None;
            p_user_command := Some (Some instruction) |} w).
Proof.
  intros Ha Hb Hsome.
  unfold executeCommand, try_catch, execute_body, create_command.
  cbn [type sourceField targetField originalCommand].
  rewrite (@defined_token a Ha), (@defined_token b Hb), Hsome.
  reflexivity.
Qed.

Lemma leave_alone instruction context :
  leave instruction context true
    {| processingQueue := [instruction]; isProcessing := true |} = (idle, []).
Proof.
  unfold leave. cbn [processingQueue filter]. now rewrite String.eqb_refl.
Qed.

(** C2, amended: let [a] and [b] be tokens (not empty, no white space, no
    quote character), each the first field of its vocabulary with that
    spelling up to case, let no active mapping of the store have source
    [a], and let the id the store generates be new.  Processing [Map a to b]
    twice, each time with the current mappings of the store as context,
    first succeeds with one change of type created and appends the record
    [a -> b] (direct_mapping, confidence 0.85, active, user_modified), then
    succeeds with one change of type updated and rewrites that same record
    in place (same id, source, target [b]; reasoning, command text and
    updated_at are refreshed); no second record is created and the store
    has exactly one active mapping with source [a]. *)
Theorem map_twice_one_mapping
  (a b : string) (src tgt : list string) (w : World) :
  is_token a = true -> is_token b = true ->
  exact_match a src = Some a -> exact_match b tgt = Some b ->
  find_active a (mappings (store w)) = None ->
  ~ In (fresh_id w) (map id (mappings (store w))) ->
  let instruction := map_instruction a b in
  let run1 := process instruction src tgt w in
  let w1 := world_of (outcome_of run1) in
  let run2 := process instruction src tgt w1 in
  let w2 := world_of (outcome_of run2) in
  let m1 := created_by instruction a b w in
  let m2 := redirected_by instruction b (isoString (oracle w) (tick w + 4)) m1 in
  run1 = (Returned (plain true ("✅ Created mapping: " ++ a ++ " → " ++ b)
                      [created_change (fresh_id w) a b]) w1, idle, [])
  /\ mappings (store w1) = mappings (store w) ++ [m1]
  /\ run2 = (Returned (plain true ("✅ Updated mapping: " ++ a ++ " → " ++ b)
                         [updated_change (fresh_id w) a b b]) w2, idle, [])
  /\ mappings (store w2) = mappings (store w) ++ [m2]
  /\ active_on a (mappings (store w2)) = [m2]
  /\ List.length (mappings (store w2)) = List.length (mappings (store w1)).
Proof.
  intros Ha Hb Hsa Htb Hnone Hfresh. cbv zeta.
  set (instruction := map_instruction a b).
  set (m1 := created_by instruction a b w).
  assert (Hparse : forall w0,
    processInstruction (api := zustand) instruction (context_of src tgt w0) =
    executeCommand (api := zustand)
      (create_command instruction a b) (mappings (store w0))).
  { intros w0. unfold processInstruction, fields_of, context_of.
    cbn [sourceFields targetFields currentMappings].
    unfold instruction.
    rewrite (@parseCommand_map a b {| source := src; target := tgt |} Ha Hb Hsa Htb).
    reflexivity. }
  destruct (@executeCommand_create_new instruction a b (mappings (store w)) w Ha Hb Hnone)
    as (w1 & Hexec1 & Hms1 & Htick1 & Horacle1).
  fold m1 in Hms1.
  assert (Hrun1 : process instruction src tgt w =
                  (Returned (plain true ("✅ Created mapping: " ++ a ++ " → " ++ b)
                               [created_change (fresh_id w) a b]) w1, idle, [])).
  { unfold process, processUserInstruction.
    cbn [enter idle isProcessing processingQueue app].
    rewrite Hparse, Hexec1, leave_alone. reflexivity. }
  rewrite Hrun1. cbn [outcome_of fst world_of].
  assert (Hfind : find_active a (mappings (store w1)) = Some m1).
  { rewrite Hms1. now apply find_active_app_new. }
  assert (Hrun2 : process instruction src tgt w1 =
                  (Returned (plain true ("✅ Updated mapping: " ++ a ++ " → " ++ b)
                               [updated_change (fresh_id w) a b b])
                     (world_of (outcome_of (process instruction src tgt w1))),
                   idle, [])).
  { unfold process, processUserInstruction.
    cbn [enter idle isProcessing processingQueue app].
    rewrite Hparse, (@executeCommand_create_existing instruction a b _ _ w1 Ha Hb Hfind),
      leave_alone.
    reflexivity. }
  assert (Hms2 : mappings (store (world_of (outcome_of (process instruction src tgt w1))))
                 = mappings (store w) ++
                   [redirected_by instruction b (isoString (oracle w) (tick w + 4)) m1]).
  { unfold process, processUserInstruction.
    cbn [enter idle isProcessing processingQueue app].
    rewrite Hparse, (@executeCommand_create_existing instruction a b _ _ w1 Ha Hb Hfind),
      leave_alone.
    cbn [outcome_of fst world_of].
    unfold updateMapping. rewrite Hms1, update_matching_app.
    rewrite update_matching_fresh by exact Hfresh.
    cbn [update_matching].
    change (id m1) with (fresh_id w). rewrite String.eqb_refl.
    cbn [validateMappings snd store mappings with_store].
    rewrite Htick1, Horacle1. reflexivity. }
  split; [reflexivity|]. split; [exact Hms1|]. split; [exact Hrun2|].
  split; [exact Hms2|]. split.
  - rewrite Hms2. unfold active_on. rewrite filter_app.
    fold (active_on a (mappings (store w))). rewrite (@active_on_none a _ Hnone).
    cbn [filter app redirected_by source_field status is_active m1 created_by
         Status_eqb andb].
    now rewrite String.eqb_refl.
  - rewrite Hms2, Hms1, !List.length_app. reflexivity.
Qed.

(** The amended statement in the scenario of the specification: fields
    [id] and [user_id], empty store. *)
Lemma map_twice_one_mapping_witness :
  let instruction := map_instruction "id" "user_id" in
  let src := ["id"; "name"; "email"] in
  let tgt := ["user_id"; "full_name"; "email_address"] in
  let w := empty_world in
  let run1 := process instruction src tgt w in
  let w1 := world_of (outcome_of run1) in
  let run2 := process instruction src tgt w1 in
  let w2 := world_of (outcome_of run2) in
  let m1 := created_by instruction "id" "user_id" w in
  let m2 := redirected_by instruction "user_id" (isoString (oracle w) (tick w + 4)) m1 in
  run1 = (Returned (plain true ("✅ Created mapping: " ++ "id" ++ " → " ++ "user_id")
                      [created_change (fresh_id w) "id" "user_id"]) w1, idle, [])
  /\ mappings (store w1) = mappings (store w) ++ [m1]
  /\ run2 = (Returned (plain true ("✅ Updated mapping: " ++ "id" ++ " → " ++ "user_id")
                         [updated_change (fresh_id w) "id" "user_id" "user_id"]) w2, idle, [])
  /\ mappings (store w2) = mappings (store w) ++ [m2]
  /\ active_on "id" (mappings (store w2)) = [m2]
  /\ List.length (mappings (store w2)) = List.length (mappings (store w1)).
Proof.
  apply (@map_twice_one_mapping "id" "user_id"
           ["id"; "name"; "email"] ["user_id"; "full_name"; "email_address"]
           empty_world);
    try reflexivity.
  simpl. tauto.
Defined.

End MapTwice.


(* ================================================================== *)
(** ** Properties of command execution *)
(* ================================================================== *)

Section ExecutionFacts.
Import Store Parser Processor Fixtures.

(** C10: a command of type [update] is not executed.  Whatever store the
    processor runs against, [executeCommand] returns the failure
    [Could not execute command] with no applied change, without calling any
    store action: the world is the one it started from.  Such commands
    arise: [Update mapping for a to b] parses to one with confidence 0.9,
    and [processUserInstruction] answers it with that failure. *)
Theorem executeCommand_update_not_executed
  (api : MappingStoreApi) (c : MappingCommand)
  (currentMappings : list DynamicMapping) (w : World) :
  type c = update ->
  executeCommand c currentMappings w = Returned could_not_execute w
  /\ success could_not_execute = false
  /\ message could_not_execute = "❌ Could not execute command"
  /\ appliedChanges could_not_execute = []
  /\ (let r := parseCommand "Update mapping for a to b" (ParserDefs.single_fields "a" "b") in
      option_map type (command r) = Some update
      /\ parse_confidence r = (9 # 10)%Q)
  /\ processUserInstruction (api := zustand) "Update mapping for a to b"
       (context_of ["a"] ["b"] w) idle w
     = (Returned could_not_execute w, idle, []).
Proof.
  intros Hty. split.
  - unfold executeCommand, try_catch, execute_body. rewrite Hty. reflexivity.
  - repeat split.
Qed.

(** C10 at the command parsed from [Update mapping for a to b]. *)
Lemma executeCommand_update_not_executed_witness :
  executeCommand (api := zustand)
    {| type := update; sourceField := Some "a"; targetField := Some "b";
       transformationType := None; confidence := None; reasoning := None;
       mappingId := None; originalCommand := "Update mapping for a to b";
       parameters := None |}
    (mappings (store two_on_a)) two_on_a
  = Returned could_not_execute two_on_a.
Proof.
  exact (proj1 (@executeCommand_update_not_executed zustand
                  {| type := update; sourceField := Some "a"; targetField := Some "b";
                     transformationType := None; confidence := None; reasoning := None;
                     mappingId := None; originalCommand := "Update mapping for a to b";
                     parameters := None |}
                  (mappings (store two_on_a)) two_on_a eq_refl)).
Defined.

End ExecutionFacts.


(* ================================================================== *)
(** ** Bulk instructions *)
(* ================================================================== *)

Section BulkFacts.
Import Store Parser Processor TokenDefs ProcessorDefs Fixtures.

(** C3 at the failing input: the instruction of the [Clear All] quick
    action, [Delete all mappings], on a store with two active mappings
    removes neither of them; it contains [all] and [map] and is handled as
    bulk mapping, which here adds three mappings and reports three changes
    of type created. *)
Theorem delete_all_mappings_is_bulk_mapping :
  let src := ["id"; "name"; "email"] in
  let tgt := ["user_id"; "full_name"; "email_address"] in
  let run := process "Delete all mappings" src tgt two_on_a in
  let w' := world_of (outcome_of run) in
  List.length (exportMappings two_on_a) = 2
  /\ (exists r, outcome_of run = Returned r w'
                /\ success r = true
                /\ map ch_type (appliedChanges r) = [created; created; created])
  /\ map id (exportMappings w')
     = ["m1"; "m2"; "mapping-0-r1"; "mapping-4-r5"; "mapping-8-r9"].
Proof.
  cbv zeta. split; [reflexivity|]. split; [|reflexivity].
  eexists. split; [reflexivity|]. split; reflexivity.
Qed.

Lemma parse_not_confident instruction fields :
  first_match (Str.toLowerCase (Str.trim instruction)) COMMAND_PATTERNS = None ->
  Qgt_bool (parse_confidence (parseCommand instruction fields)) (5 # 10) = false
  /\ Qgt_bool (parse_confidence (parseCommand instruction fields)) (6 # 10) = false.
Proof.
  intros H. unfold parseCommand. rewrite H.
  destruct (0 <? List.length (Parser.extractFieldMentions instruction fields)); split; reflexivity.
Qed.

(** An instruction without separator that matches no pattern is handed to
    the contextual heuristics. *)
Lemma processInstruction_contextual (api : MappingStoreApi) instruction context :
  first_match (Str.toLowerCase (Str.trim instruction)) COMMAND_PATTERNS = None ->
  Regex.split separators instruction = [instruction] ->
  first_match (Str.toLowerCase (Str.trim (Str.trim instruction))) COMMAND_PATTERNS = None ->
  processInstruction instruction context = contextualInterpretation instruction context.
Proof.
  intros H1 H2 H3.
  assert (Hai : aiEnhancedProcessing instruction context
                = contextualInterpretation instruction context).
  { unfold aiEnhancedProcessing, extractMultipleCommands. rewrite H2.
    cbn [flat_map].
    destruct (parse_not_confident (Str.trim instruction) (fields_of context) H3) as [E _].
    rewrite E. destruct (command _); reflexivity. }
  unfold processInstruction.
  destruct (parse_not_confident instruction (fields_of context) H1) as [_ E].
  rewrite E, Hai. destruct (command _); reflexivity.
Qed.

Lemma filter_all {A} (f : A -> bool) l :
  (forall x, In x l -> f x = true) -> filter f l = l.
Proof.
  induction l as [|x l IH]; cbn [filter]; intros H; [reflexivity|].
  rewrite (H x (or_introl eq_refl)). f_equal. apply IH. intros y Hy. apply H. now right.
Qed.

Lemma filter_none {A} (f : A -> bool) l :
  (forall x, In x l -> f x = false) -> filter f l = [].
Proof.
  induction l as [|x l IH]; cbn [filter]; intros H; [reflexivity|].
  rewrite (H x (or_introl eq_refl)). apply IH. intros y Hy. apply H. now right.
Qed.

Lemma filter_twice {A} (f g : A -> bool) l :
  filter f (filter g l) = filter (fun x => g x && f x) l.
Proof.
  induction l as [|x l IH]; cbn [filter]; [reflexivity|].
  destruct (g x); cbn [filter andb]; [destruct (f x); now rewrite IH | exact IH].
Qed.

(** Bulk removal against the zustand store: one change per mapping, and
    the store loses every record that carries one of the removed ids. *)
Lemma bulk_remove_zustand l : forall w,
  exists w',
    bulk_remove (api := zustand) l w = Returned (map bulk_removed l) w'
    /\ mappings (store w') =
       filter (fun m => negb (includes_id (map id l) (id m))) (mappings (store w)).
Proof.
  induction l as [|m l IH]; intros w.
  - exists w. split; [reflexivity|].
    symmetry. apply filter_all. reflexivity.
  - destruct (IH (removeMapping (id m) w)) as (w' & Hrun & Hms).
    exists w'. split.
    + cbn [bulk_remove]. unfold bind at 1. cbn [api_removeMapping zustand].
      unfold bind at 1. rewrite Hrun. reflexivity.
    + rewrite Hms. unfold removeMapping. cbn [with_store store mappings].
      rewrite filter_twice. apply filter_ext. intros x.
      unfold includes_id. cbn [map existsb].
      now rewrite negb_orb.
Qed.

Lemma active_ids_included ms m :
  In m ms -> is_active m = true ->
  includes_id (map id (filter is_active ms)) (id m) = true.
Proof.
  intros Hin Hact. apply includes_id_In. apply in_map. apply filter_In. auto.
Qed.

Lemma contextual_clear (api : MappingStoreApi) context :
  contextualInterpretation "clear" context = handleBulkRemoval "clear" context.
Proof. reflexivity. Qed.

(** The bulk removal the specification describes is reached by [clear]:
    every active mapping of the store is removed and reported, one change
    of type deleted each. *)
Lemma clear_removes_all (src tgt : list string) (w : World) :
  let run := process "clear" src tgt w in
  let w' := world_of (outcome_of run) in
  (exists r, outcome_of run = Returned r w'
             /\ appliedChanges r = map bulk_removed (exportMappings w))
  /\ exportMappings w' = [].
Proof.
  cbv zeta. unfold process, processUserInstruction.
  cbn [enter idle isProcessing processingQueue app].
  rewrite (@processInstruction_contextual zustand "clear" (context_of src tgt w)
             eq_refl eq_refl eq_refl).
  rewrite contextual_clear. unfold handleBulkRemoval.
  cbn [currentMappings context_of].
  destruct (bulk_remove_zustand (filter is_active (mappings (store w))) w)
    as (w' & Hrun & Hms).
  unfold bind. rewrite Hrun. unfold ret.
  cbn [leave outcome_of fst world_of].
  split.
  - eexists. split; [reflexivity|]. reflexivity.
  - unfold exportMappings. rewrite Hms, filter_twice.
    apply filter_none. intros x Hx.
    destruct (is_active x) eqn:E; [|now rewrite andb_false_r].
    now rewrite (@active_ids_included _ x Hx E).
Qed.

(** For every vocabulary and store, [Delete all mappings] is handled by the
    bulk mapper. *)
Lemma delete_all_mappings_routing (api : MappingStoreApi) context :
  processInstruction "Delete all mappings" context
  = handleBulkMapping "Delete all mappings" context.
Proof.
  now rewrite (@processInstruction_contextual api "Delete all mappings" context
                 eq_refl eq_refl eq_refl).
Qed.

End BulkFacts.


(* ================================================================== *)
(** ** Errors thrown by the store *)
(* ================================================================== *)

Section ErrorFacts.
Import Store Parser Processor TokenDefs ProcessorDefs Fixtures.







End ErrorFacts.


(* ================================================================== *)
(** ** The single-flight guard *)
(* ================================================================== *)

Section SingleFlight.
Import Processor EventLoop.

(** A call made while the flag is set returns at once with the
    [please wait] failure; its instruction is appended to the queue and
    nothing else changes. *)
Lemma invoke_while_processing instruction context s :
  isProcessing (inst s) = true ->
  invoke instruction context s =
  (Some please_wait,
   {| inst := {| processingQueue := processingQueue (inst s) ++ [instruction];
                 isProcessing := true |};
      inflight := inflight s; timers := timers s |})
  /\ success please_wait = false
  /\ appliedChanges please_wait = []
  /\ message please_wait = "Processing previous instruction, please wait...".
Proof.
  intros H. unfold invoke, enter. rewrite H. repeat split.
Qed.

Lemma remove_nth_length {A} n (l : list A) x :
  nth_error l n = Some x -> S (List.length (remove_nth n l)) = List.length l.
Proof.
  revert l. induction n as [|n IH]; intros [|y l]; cbn; try discriminate.
  - reflexivity.
  - intros H. now rewrite (IH l H).
Qed.

(** At most one call is past the guard at any time, and the flag is set
    exactly while one is. *)
Lemma single_flight s :
  reachable s ->
  List.length (inflight s) <= 1
  /\ (isProcessing (inst s) = true <-> inflight s <> []).
Proof.
  assert (Hinvoke : forall i c s0,
            List.length (inflight s0) <= 1
            /\ (isProcessing (inst s0) = true <-> inflight s0 <> []) ->
            List.length (inflight (snd (invoke i c s0))) <= 1
            /\ (isProcessing (inst (snd (invoke i c s0))) = true
                <-> inflight (snd (invoke i c s0)) <> [])).
  { intros i c s0 [Hlen Hflag]. unfold invoke, enter.
    destruct (isProcessing (inst s0)) eqn:E; cbn [snd inst inflight isProcessing].
    - split; [assumption|]. split; [intros _; now apply Hflag | reflexivity].
    - destruct (inflight s0) as [|x l].
      + cbn. split; [lia|]. split; [discriminate | reflexivity].
      + exfalso. assert (false = true) by (apply Hflag; discriminate). discriminate. }
  induction 1 as [|s e s' Hr IH Hstep].
  - cbn. split; [lia|]. split; [discriminate | congruence].
  - destruct e as [i c|n b|]; cbn [step] in Hstep.
    + inversion Hstep; subst. now apply Hinvoke.
    + unfold settle in Hstep.
      destruct (nth_error (inflight s) n) as [c|] eqn:E; [|discriminate].
      destruct (leave _ _ _ _) as [p' scheduled] eqn:El.
      inversion Hstep; subst. cbn [inflight inst].
      pose proof (remove_nth_length _ _ E) as Hl.
      destruct IH as [Hlen _].
      assert (Hnil : remove_nth n (inflight s) = []).
      { destruct (remove_nth n (inflight s)); [reflexivity | cbn in Hl; lia]. }
      rewrite Hnil. unfold leave in El. inversion El; subst.
      cbn. split; [lia|]. split; [discriminate | congruence].
    + unfold fire in Hstep. destruct (timers s) as [|t rest]; [discriminate|].
      inversion Hstep; subst. apply Hinvoke. exact IH.
Qed.

(** C9 at the failing input: the same instruction text is submitted twice
    in a row.  The second call is turned away with [please wait] and
    queued behind the first; when the first settles, the filter that takes
    it off the queue takes the second entry with it, no timer is
    registered, and the processor is back in its start state: the second
    instruction is never retried. *)
Theorem same_instruction_never_retried (instruction : string) (context : Context) :
  let s1 := snd (invoke instruction context start) in
  let s2 := snd (invoke instruction context s1) in
  inflight s1 = [ {| call_instruction := instruction; call_context := context |} ]
  /\ fst (invoke instruction context s1) = Some please_wait
  /\ processingQueue (inst s2) = [instruction; instruction]
  /\ settle 0 true s2 = Some start
  /\ fire start = None.
Proof.
  cbn. rewrite String.eqb_refl. cbn. repeat split.
Qed.

(** With two different instructions the retry is registered: when the
    first settles, a timer for the second is pending, and when it fires the
    second instruction passes the guard. *)
Lemma other_instruction_retried (i1 i2 : string) (context : Context) :
  i1 <> i2 ->
  exists s3 s4,
    run [Invoke i1 context; Invoke i2 context; Settle 0 true] start = Some s3
    /\ timers s3 = [ {| t_instruction := i2; t_context := context |} ]
    /\ inflight s3 = []
    /\ fire s3 = Some s4
    /\ inflight s4 = [ {| call_instruction := i2; call_context := context |} ]
    /\ timers s4 = [].
Proof.
  intros Hne. apply String.eqb_neq in Hne.
  eexists _, _. cbn. rewrite String.eqb_refl.
  rewrite String.eqb_sym, Hne. cbn. repeat split.
Qed.

End SingleFlight.

(* ================================================================== *)
(** ** The scenarios of the specification, evaluated *)
(* ================================================================== *)

Section Scenarios.
Import Store Processor ProcessorDefs Fixtures.

Example parse_known_fields :
  Parser.parse_confidence
    (Parser.parseCommand "Map customer_id to user_id"
       {| Parser.source := ["customer_id"]; Parser.target := ["user_id"] |})
  = (9 # 10)%Q.
Proof. reflexivity. Qed.

Example parse_misspelled_field :
  let r := Parser.parseCommand "Map custmer_id to user_id"
             {| Parser.source := ["customer_id"]; Parser.target := ["user_id"] |} in
  Parser.parse_confidence r = (6 # 10)%Q
  /\ Parser.suggestions r = ["Did you mean: customer_id?"].
Proof. split; reflexivity. Qed.

Example levenshtein_kitten_sitting :
  Similarity.levenshteinDistance "kitten" "sitting" = 3.
Proof. reflexivity. Qed.

Example similarity_identical :
  Similarity.calculateFieldSimilarity "customer_id" "customer_id" = 1%Q.
Proof. reflexivity. Qed.

Example scenario_redirect_then_delete :
  let src := ["id"; "name"; "email"] in
  let tgt := ["user_id"; "full_name"; "email_address"] in
  let w1 := world_of (outcome_of (process "Map id to user_id" src tgt empty_world)) in
  let w2 := world_of (outcome_of (process "Map id to full_name" src tgt w1)) in
  let w3 := world_of (outcome_of (process "Delete mapping for id" src tgt w2)) in
  map target_field (exportMappings w1) = ["user_id"]
  /\ map target_field (exportMappings w2) = ["full_name"]
  /\ exportMappings w3 = [].
Proof. repeat split. Qed.

End Scenarios.


(* ================================================================== *)
(** ** More on validation *)
(* ================================================================== *)

Section ValidationFacts.
Import Store StoreDefs StoreDefs2.

Lemma for_target_target f k v : for_target f (target_conflict k v) = String.eqb k f.
Proof.
  unfold for_target, target_conflict.
  cbn [c_id c_type is_duplicate_target andb]. apply eqb_append_l.
Qed.






(** Every conflict of a validation pass comes from one key of one of the
    two count maps. *)
Lemma detect_inv ms c :
  In c (detect ms) ->
  exists f,
    (c = source_conflict f (ids_with source_field f ms)
     /\ 2 <= List.length (ids_with source_field f ms))
    \/ (c = target_conflict f (ids_with target_field f ms)
        /\ 2 <= List.length (ids_with target_field f ms)).
Proof.
  unfold detect. intros Hin. apply in_app_or in Hin. destruct Hin as [Hin|Hin];
    apply push_conflicts_In in Hin; destruct Hin as (k & v & Hkv & -> & Hlen);
    (apply In_map_get in Hkv; [|apply fieldCounts_NoDup]);
    rewrite fieldCounts_get in Hkv;
    [destruct (ids_with source_field k ms) eqn:E
    |destruct (ids_with target_field k ms) eqn:E]; try discriminate;
    inversion Hkv; subst; exists k; rewrite E; auto.
Qed.


Lemma push_conflicts_ids mk m :
  (forall k v, c_id (mk k v) = c_id (mk k [])) ->
  map c_id (push_conflicts mk m) =
  map (fun kv => c_id (mk (fst kv) []))
      (filter (fun kv => 1 <? List.length (snd kv)) m).
Proof.
  intros Hid. induction m as [|[k v] m IH]; [reflexivity|].
  cbn [push_conflicts filter snd fst].
  destruct (1 <? List.length v); cbn [map fst]; rewrite ?IH, ?(Hid k v); reflexivity.
Qed.

Lemma NoDup_filter {A} (f : A -> bool) l : NoDup l -> NoDup (filter f l).
Proof.
  induction 1 as [|x l Hx Hnd IH]; cbn [filter]; [constructor|].
  destruct (f x); [|assumption].
  constructor; [|assumption]. intros H. apply filter_In in H. tauto.
Qed.

Lemma NoDup_map_fst_filter {A B} (f : A * B -> bool) (l : list (A * B)) :
  NoDup (map fst l) -> NoDup (map fst (filter f l)).
Proof.
  induction l as [|x l IH]; cbn [filter map]; intros H; [constructor|].
  inversion H as [|? ? Hx Hnd]; subst.
  destruct (f x); cbn [map]; [|auto].
  constructor; [|auto].
  intros Hin. apply Hx. apply in_map_iff in Hin. destruct Hin as (y & Hy & Hin).
  apply filter_In in Hin. rewrite <- Hy. apply in_map. tauto.
Qed.

Lemma NoDup_map_injective {A B} (f : A -> B) l :
  (forall a b, f a = f b -> a = b) -> NoDup l -> NoDup (map f l).
Proof.
  intros Hinj. induction 1 as [|x l Hx Hnd IH]; cbn [map]; constructor; [|assumption].
  intros H. apply in_map_iff in H. destruct H as (y & Hy & Hin).
  apply Hinj in Hy. now subst.
Qed.

Lemma ids_with_active key f ms i :
  In i (ids_with key f ms) ->
  exists m, In m ms /\ id m = i /\ is_active m = true /\ key m = f.
Proof.
  unfold ids_with. intros H. apply in_map_iff in H. destruct H as (m & Hid & Hin).
  apply filter_In in Hin. destruct Hin as [Hin Hb].
  apply andb_true_iff in Hb. destruct Hb as [Ha Hk]. apply String.eqb_eq in Hk.
  exists m. auto.
Qed.

(** X2: what a validation pass returns is well formed: the conflict ids
    are pairwise distinct, every conflict is of type duplicate_source or
    duplicate_target (the two reserved types never occur), names at least
    two mappings, and names only ids of active mappings of the store. *)
Theorem validateMappings_well_formed (w : World) :
  let cs := fst (validateMappings w) in
  NoDup (map c_id cs)
  /\ Forall (fun c =>
               (c_type c = duplicate_source \/ c_type c = duplicate_target)
               /\ 2 <= List.length (affected_mappings c)
               /\ Forall (fun i => exists m, In m (mappings (store w))
                                             /\ id m = i /\ status m = active)
                         (affected_mappings c)) cs.
Proof.
  cbn. set (ms := mappings (store w)). split.
  - unfold detect. rewrite map_app.
    rewrite (push_conflicts_ids source_conflict), (push_conflicts_ids target_conflict)
      by reflexivity.
    apply NoDup_app.
    + rewrite <- (map_map fst (fun k => c_id (source_conflict k []))).
      apply NoDup_map_injective.
      * intros a b H. cbn [c_id source_conflict target_conflict] in H.
        exact (append_inj_l _ _ _ H).
      * apply NoDup_map_fst_filter, fieldCounts_NoDup.
    + rewrite <- (map_map fst (fun k => c_id (target_conflict k []))).
      apply NoDup_map_injective.
      * intros a b H. cbn [c_id source_conflict target_conflict] in H.
        exact (append_inj_l _ _ _ H).
      * apply NoDup_map_fst_filter, fieldCounts_NoDup.
    + intros x H1 H2. apply in_map_iff in H1. apply in_map_iff in H2.
      destruct H1 as (a & Ha & _). destruct H2 as (b & Hb & _).
      rewrite <- Hb in Ha. cbn in Ha. discriminate.
  - apply Forall_forall. intros c Hin.
    destruct (detect_inv _ _ Hin) as (f & [[-> H]|[-> H]]); cbn [c_type affected_mappings].
    + split; [auto|]. split; [assumption|]. apply Forall_forall. intros i Hi.
      destruct (ids_with_active _ _ _ _ Hi) as (m & Hm & Hid & Hact & _).
      exists m. repeat split; auto. unfold is_active in Hact. now destruct (status m).
    + split; [auto|]. split; [assumption|]. apply Forall_forall. intros i Hi.
      destruct (ids_with_active _ _ _ _ Hi) as (m & Hm & Hid & Hact & _).
      exists m. repeat split; auto. unfold is_active in Hact. now destruct (status m).
Qed.

End ValidationFacts.


Section ConflictFreedom.
Import Store StoreDefs StoreDefs2.

Lemma push_conflicts_nil mk m :
  push_conflicts mk m = [] <-> (forall k v, In (k, v) m -> List.length v <= 1).
Proof.
  induction m as [|[k v] m IH]; cbn [push_conflicts].
  - split; [intros _ k v [] | reflexivity].
  - destruct (1 <? List.length v) eqn:E.
    + split; [discriminate|]. intros H. apply Nat.ltb_lt in E.
      specialize (H k v (or_introl eq_refl)). lia.
    + apply Nat.ltb_ge in E. rewrite IH. split.
      * intros H k' v' [H'|H']; [inversion H'; subst; assumption | eauto].
      * intros H k' v' H'. apply (H k' v'). now right.
Qed.

Lemma map_get_In k v m : map_get k m = Some v -> In (k, v) m.
Proof.
  induction m as [|[k0 v0] m IH]; cbn [map_get]; [discriminate|].
  destruct (String.eqb k k0) eqn:E.
  - apply String.eqb_eq in E. subst. intros H. inversion H. now left.
  - intros H. right. auto.
Qed.

Lemma fieldCounts_conflict_free key mk ms :
  push_conflicts mk (fieldCounts key ms) = [] <->
  (forall f, List.length (ids_with key f ms) <= 1).
Proof.
  rewrite push_conflicts_nil. split.
  - intros H f. pose proof (fieldCounts_get key ms f) as Hg.
    destruct (ids_with key f ms) as [|i l] eqn:E; [cbn; lia|].
    apply map_get_In in Hg. exact (H _ _ Hg).
  - intros H k v Hin.
    apply In_map_get in Hin; [|apply fieldCounts_NoDup].
    rewrite fieldCounts_get in Hin. specialize (H k).
    destruct (ids_with key k ms); [discriminate|]. inversion Hin; subst. exact H.
Qed.

Lemma ids_with_count key f ms :
  List.length (ids_with key f ms) =
  count_occ string_dec (map key (active_of ms)) f.
Proof.
  unfold ids_with, active_of. rewrite length_map.
  induction ms as [|m ms IH]; [reflexivity|].
  cbn [filter]. destruct (is_active m); cbn [andb map count_occ filter].
  - destruct (string_dec (key m) f) as [E|E].
    + subst. rewrite String.eqb_refl. cbn [List.length]. now rewrite IH.
    + apply String.eqb_neq in E. rewrite E. exact IH.
  - exact IH.
Qed.

(** X3: a validation pass reports no conflict exactly when the active
    mappings have pairwise distinct source fields and pairwise distinct
    target fields; mappings that are not active play no part. *)
Theorem validateMappings_conflict_free (w : World) :
  fst (validateMappings w) = [] <->
  NoDup (map source_field (active_of (mappings (store w))))
  /\ NoDup (map target_field (active_of (mappings (store w)))).
Proof.
  cbn [validateMappings fst]. unfold detect.
  rewrite !(NoDup_count_occ string_dec).
  split.
  - intros H. apply app_eq_nil in H. destruct H as [Hs Ht].
    rewrite fieldCounts_conflict_free in Hs, Ht.
    split; intros f; rewrite <- ids_with_count; auto.
  - intros [Hs Ht].
    assert (Es : push_conflicts source_conflict (fieldCounts source_field (mappings (store w))) = []).
    { apply fieldCounts_conflict_free. intros f. rewrite ids_with_count. apply Hs. }
    assert (Et : push_conflicts target_conflict (fieldCounts target_field (mappings (store w))) = []).
    { apply fieldCounts_conflict_free. intros f. rewrite ids_with_count. apply Ht. }
    now rewrite Es, Et.
Qed.

End ConflictFreedom.


(* ================================================================== *)
(** ** More on the store actions *)
(* ================================================================== *)

Section StoreActions.
Import Store StoreDefs StoreDefs2 Fixtures.

Lemma of_suggestions_spec o doc l : forall index t,
  let ms := fst (of_suggestions o doc index t l) in
  snd (of_suggestions o doc index t l) = t + 2 * List.length l
  /\ map id ms = map (document_id doc) (seq index (List.length l))
  /\ map source_field ms = map s_source_field l
  /\ map target_field ms = map s_target_field l
  /\ map transformation_type ms = map s_transformation_type l
  /\ map Store.confidence ms = map s_confidence l
  /\ Forall (fun m => status m = active /\ user_modified m = false
                      /\ user_command m = None) ms.
Proof.
  induction l as [|s l IH]; intros index t; cbn [of_suggestions].
  - cbn. repeat split; try lia. constructor.
  - specialize (IH (S index) (S (S t))).
    destruct (of_suggestions o doc (S index) (S (S t)) l) as [ms t'].
    cbn [fst snd] in *. destruct IH as (Ht & Hid & Hs & Htg & Hty & Hc & Hall).
    cbn [map List.length seq]. rewrite Hid, Hs, Htg, Hty, Hc.
    repeat split; try lia. constructor; [repeat split | assumption].
Qed.

Lemma filter_all_true {A} (f : A -> bool) l :
  Forall (fun x => f x = true) l -> filter f l = l.
Proof.
  induction 1 as [|x l Hx H IH]; cbn [filter]; [reflexivity|]. now rewrite Hx, IH.
Qed.

(** X4: [setDocumentMappings] replaces the collection by one record per
    suggestion, in order and with the suggestion's fields; the record at
    index [i] has id [mapping-<documentId>-<i>], every record is active and
    not user-modified, so all of them are exported; the document id is
    set, the conflicts are those of a validation pass over the new
    records, and the clock is read twice per record.  Nothing of the
    previous collection survives. *)
Theorem setDocumentMappings_replaces
  (documentId : string) (l : list MappingSuggestion) (w : World) :
  let w' := setDocumentMappings documentId l w in
  let ms := mappings (store w') in
  Store.documentId (store w') = Some documentId
  /\ map id ms = map (document_id documentId) (seq 0 (List.length l))
  /\ map source_field ms = map s_source_field l
  /\ map target_field ms = map s_target_field l
  /\ map transformation_type ms = map s_transformation_type l
  /\ map Store.confidence ms = map s_confidence l
  /\ Forall (fun m => status m = active /\ user_modified m = false) ms
  /\ exportMappings w' = ms
  /\ conflicts (store w') = detect ms
  /\ tick w' = tick w + 2 * List.length l.
Proof.
  cbv zeta. unfold setDocumentMappings.
  pose proof (of_suggestions_spec (oracle w) documentId l 0 (tick w)) as H.
  destruct (of_suggestions (oracle w) documentId 0 (tick w) l) as [ms t'].
  cbn [fst snd] in H. destruct H as (Ht & Hid & Hs & Htg & Hty & Hc & Hall).
  cbn [validateMappings snd store mappings conflicts with_store Store.documentId tick].
  repeat split; auto.
  - eapply Forall_impl; [|exact Hall]. cbv beta. tauto.
  - unfold exportMappings. cbn [store mappings]. apply filter_all_true.
    eapply Forall_impl; [|exact Hall]. cbv beta. intros m (Hst & _).
    unfold is_active. now rewrite Hst.
Qed.

Lemma find_app_l {A} (f : A -> bool) l l' x :
  find f l = Some x -> find f (l ++ l') = Some x.
Proof.
  induction l as [|a l IH]; cbn [find app]; [discriminate|].
  destruct (f a); auto.
Qed.

Lemma find_app_r {A} (f : A -> bool) l l' :
  find f l = None -> find f (l ++ l') = find f l'.
Proof.
  induction l as [|a l IH]; cbn [find app]; [reflexivity|].
  destruct (f a); [discriminate | auto].
Qed.

Lemma getMappingByFields_source src w :
  getMappingByFields src None w =
  find (fun m => String.eqb (source_field m) src) (mappings (store w)).
Proof. reflexivity. Qed.

(** X5: [addMapping] appends one record that carries the argument's
    fields and the returned id, leaves the earlier records as they were
    and re-validates; a lookup by the new record's source field then
    succeeds, and returns the new record itself when no earlier record
    had that source field. *)
Theorem addMapping_then_lookup (n : NewMapping) (w : World) :
  let ident := fst (addMapping n w) in
  let w' := snd (addMapping n w) in
  exists m,
    mappings (store w') = mappings (store w) ++ [m]
    /\ id m = ident /\ ident = fresh_id w
    /\ source_field m = n_source_field n
    /\ target_field m = n_target_field n
    /\ status m = n_status n
    /\ user_modified m = n_user_modified n
    /\ conflicts (store w') = detect (mappings (store w'))
    /\ (exists found,
          getMappingByFields (n_source_field n) None w' = Some found
          /\ source_field found = n_source_field n)
    /\ (getMappingByFields (n_source_field n) None w = None ->
        getMappingByFields (n_source_field n) None w' = Some m).
Proof.
  cbv zeta. unfold addMapping. cbn [fst snd validateMappings store mappings with_store conflicts].
  eexists. split; [reflexivity|].
  cbn [id source_field target_field status user_modified].
  repeat (split; [reflexivity|]).
  rewrite !getMappingByFields_source. cbn [store mappings with_store].
  split.
  - destruct (find (fun m => String.eqb (source_field m) (n_source_field n))
                   (mappings (store w))) as [x|] eqn:E.
    + exists x. split; [now apply find_app_l|].
      apply find_some in E. destruct E as [_ E]. now apply String.eqb_eq in E.
    + eexists. rewrite (find_app_r _ _ _ E). cbn [find source_field].
      rewrite String.eqb_refl. split; reflexivity.
  - intros E. rewrite (find_app_r _ _ _ E). cbn [find source_field].
    now rewrite String.eqb_refl.
Qed.

(** X6: [updateMapping] with an id no record carries changes no record
    and reads no clock; it is not an error, and the conflicts are
    re-validated all the same. *)
Theorem updateMapping_unknown_id (ident : string) (u : Partial) (w : World) :
  ~ In ident (map id (mappings (store w))) ->
  let w' := updateMapping ident u w in
  mappings (store w') = mappings (store w)
  /\ tick w' = tick w
  /\ documentId (store w') = documentId (store w)
  /\ conflicts (store w') = detect (mappings (store w)).
Proof.
  intros H. cbv zeta. unfold updateMapping.
  rewrite update_matching_fresh by exact H.
  cbn. repeat split.
Qed.

Lemma updateMapping_unknown_id_witness :
  let w' := updateMapping "m9" (retarget "z") two_on_a in
  mappings (store w') = mappings (store two_on_a)
  /\ tick w' = tick two_on_a
  /\ documentId (store w') = documentId (store two_on_a)
  /\ conflicts (store w') = detect (mappings (store two_on_a)).
Proof.
  apply (@updateMapping_unknown_id "m9" (retarget "z") two_on_a).
  cbn. intros [H|[H|[]]]; discriminate.
Defined.

(** X7: [updateMapping] rewrites every record that carries the id, and no
    other: such a record gets the updates merged over its fields, then
    [user_modified = true] and an [updated_at] read from the clock during
    the call, whatever the updates say about these two fields. *)
Theorem updateMapping_merges (ident : string) (u : Partial) (w : World) :
  Forall2
    (fun m m' =>
       if String.eqb (id m) ident
       then user_modified m' = true
            /\ (exists t', tick w <= t' < tick (updateMapping ident u w)
                           /\ updated_at m' = isoString (oracle w) t')
            /\ source_field m' = over (p_source_field u) (source_field m)
            /\ target_field m' = over (p_target_field u) (target_field m)
            /\ status m' = over (p_status u) (status m)
            /\ Store.confidence m' = over (p_confidence u) (Store.confidence m)
            /\ created_at m' = over (p_created_at u) (created_at m)
       else m' = m)
    (mappings (store w)) (mappings (store (updateMapping ident u w))).
Proof.
  eapply Forall2_impl; [|apply updateMapping_sets_user_modified].
  intros m m'. cbv beta. destruct (String.eqb (id m) ident); [|auto].
  intros (H1 & H2 & H3). split; [assumption|]. split; [assumption|].
  rewrite H3. repeat split.
Qed.

Lemma filter_comm {A} (f g : A -> bool) l :
  filter f (filter g l) = filter g (filter f l).
Proof.
  induction l as [|x l IH]; cbn [filter]; [reflexivity|].
  destruct (f x) eqn:Ef, (g x) eqn:Eg; cbn [filter]; rewrite ?Ef, ?Eg, IH; reflexivity.
Qed.

Lemma filter_idem {A} (f : A -> bool) l : filter f (filter f l) = filter f l.
Proof.
  induction l as [|x l IH]; cbn [filter]; [reflexivity|].
  destruct (f x) eqn:Ef; cbn [filter]; rewrite ?Ef, IH; reflexivity.
Qed.

(** X8: removing an id twice is the same as removing it once, and two
    removals give the same store in either order. *)
Theorem removeMapping_idempotent_commutes (a b : string) (w : World) :
  removeMapping a (removeMapping a w) = removeMapping a w
  /\ removeMapping a (removeMapping b w) = removeMapping b (removeMapping a w).
Proof.
  unfold removeMapping, with_store. cbn [store mappings conflicts documentId tick oracle].
  split.
  - now rewrite !filter_idem.
  - f_equal. f_equal; apply filter_comm.
Qed.

End StoreActions.


(* ================================================================== *)
(** ** Resolving a conflict, then validating *)
(* ================================================================== *)

Section ResolutionFacts.
Import Store StoreDefs StoreDefs2 Fixtures.

Lemma set_status_same m : set_status m (status m) = m.
Proof. destruct m; reflexivity. Qed.

Lemma NoDup_id_unique (ms : list DynamicMapping) a b :
  NoDup (map id ms) -> In a ms -> In b ms -> id a = id b -> a = b.
Proof.
  induction ms as [|m ms IH]; cbn [map In]; [tauto|].
  intros Hnd Ha Hb E. inversion Hnd as [|? ? Hm Hnd']; subst.
  destruct Ha as [->|Ha], Hb as [->|Hb]; auto.
  - exfalso. apply Hm. rewrite E. now apply in_map.
  - exfalso. apply Hm. rewrite <- E. now apply in_map.
Qed.


Lemma resolveConflict_accept_reject cid st w found :
  find (fun c => String.eqb (c_id c) cid) (conflicts (store w)) = Some found ->
  forall res d, (res = accept /\ st = active) \/ (res = reject /\ st = disabled) ->
  resolveConflict cid res d w =
  {| store := {| mappings := map (restatus (affected_mappings found) st)
                                 (mappings (store w));
                 conflicts := filter (fun c => negb (String.eqb (c_id c) cid))
                                     (conflicts (store w));
                 documentId := documentId (store w) |};
     tick := tick w; oracle := oracle w |}.
Proof.
  intros Hf res d [[-> ->]|[-> ->]]; unfold resolveConflict; rewrite Hf; reflexivity.
Qed.

Lemma find_none_filter cid cs :
  find (fun c => String.eqb (c_id c) cid) cs = None ->
  filter (fun c => negb (String.eqb (c_id c) cid)) cs = cs
  /\ Forall (fun c => c_id c <> cid) cs.
Proof.
  intros H. split.
  - apply filter_all. intros c Hc. apply (find_none _ _ H) in Hc. now rewrite Hc.
  - apply Forall_forall. intros c Hc. apply (find_none _ _ H) in Hc.
    now apply String.eqb_neq.
Qed.

(** X9: in a validated store whose records have distinct ids, accepting
    a conflict changes no record (the records it names are active
    already) and only takes the conflict off the list; the next
    validation pass reports it again with all the others. *)
Theorem resolveConflict_accept_is_redetected
  (cid : string) (d : option Partial) (w : World) :
  NoDup (map id (mappings (store w))) ->
  conflicts (store w) = detect (mappings (store w)) ->
  let w' := resolveConflict cid accept d w in
  mappings (store w') = mappings (store w)
  /\ conflicts (store w') =
       filter (fun c => negb (String.eqb (c_id c) cid)) (conflicts (store w))
  /\ tick w' = tick w
  /\ fst (validateMappings w') = conflicts (store w).
Proof.
  intros Hnd Hval. cbv zeta.
  destruct (find (fun c => String.eqb (c_id c) cid) (conflicts (store w)))
    as [found|] eqn:Hf.
  - rewrite (resolveConflict_accept_reject cid w Hf d (or_introl (conj eq_refl eq_refl))).
    cbn [store mappings conflicts tick validateMappings fst].
    assert (Hmap : map (restatus (affected_mappings found) active) (mappings (store w))
                   = mappings (store w)).
    { rewrite <- (map_id (mappings (store w))) at 2. apply map_ext_in.
      intros m Hm. unfold restatus.
      destruct (includes_id (affected_mappings found) (id m)) eqn:E; [|reflexivity].
      apply includes_id_In in E.
      apply find_some in Hf. destruct Hf as [Hin _]. rewrite Hval in Hin.
      destruct (detect_inv _ _ Hin) as (f & [[-> _]|[-> _]]);
        cbn [affected_mappings] in E;
        destruct (ids_with_active _ _ _ _ E) as (m0 & Hm0 & Hid & Hact & _);
        rewrite <- (NoDup_id_unique _ _ _ Hnd Hm0 Hm Hid);
        unfold is_active in Hact; destruct (status m0) eqn:Es; try discriminate;
        rewrite <- Es; apply set_status_same. }
    rewrite Hmap. repeat split. now symmetry.
  - unfold resolveConflict. rewrite Hf.
    destruct (find_none_filter _ _ Hf) as [-> _].
    cbn. repeat split. now symmetry.
Qed.

Lemma resolveConflict_accept_is_redetected_witness :
  let w' := resolveConflict "conflict-duplicate-source-a" accept None two_on_a in
  mappings (store w') = mappings (store two_on_a)
  /\ conflicts (store w') =
       filter (fun c => negb (String.eqb (c_id c) "conflict-duplicate-source-a"))
              (conflicts (store two_on_a))
  /\ tick w' = tick two_on_a
  /\ fst (validateMappings w') = conflicts (store two_on_a).
Proof.
  apply (@resolveConflict_accept_is_redetected "conflict-duplicate-source-a" None two_on_a).
  - cbn. constructor; [intros [H|[]]; discriminate|].
    constructor; [intros []|constructor].
  - reflexivity.
Defined.

Lemma key_set_status_source m st : source_field (set_status m st) = source_field m.
Proof. reflexivity. Qed.





End ResolutionFacts.


(* ================================================================== *)
(** ** The edit distance as a metric; symmetry of the scorers *)
(* ================================================================== *)

Section MetricFacts.
Import Similarity EditDistance.

Lemma indicator_sym a b : indicator a b = indicator b a.
Proof. unfold indicator. now rewrite Ascii.eqb_sym. Qed.

Lemma indicator_refl a : indicator a a = 0.
Proof. unfold indicator. now rewrite Ascii.eqb_refl. Qed.

Lemma indicator_zero a b : indicator a b = 0 -> a = b.
Proof.
  unfold indicator. destruct (Ascii.eqb a b) eqn:E; [|discriminate].
  intros _. now apply Ascii.eqb_eq.
Qed.

Lemma indicator_triangle a b c : indicator a c <= indicator a b + indicator b c.
Proof.
  unfold indicator.
  destruct (Ascii.eqb a b) eqn:E1, (Ascii.eqb b c) eqn:E2, (Ascii.eqb a c) eqn:E3;
    cbn; try lia.
  apply Ascii.eqb_eq in E1, E2. subst. rewrite Ascii.eqb_refl in E3. discriminate.
Qed.

Lemma edits_sym s t n : edits s t n -> edits t s n.
Proof.
  induction 1 as [|a s t n H IH|b s t n H IH|a b s t n H IH].
  - constructor.
  - now apply edits_insert.
  - now apply edits_delete.
  - rewrite indicator_sym. now apply edits_substitute.
Qed.

Lemma edits_refl s : edits s s 0.
Proof.
  induction s as [|a s IH]; [constructor|].
  rewrite <- (indicator_refl a). change (indicator a a) with (0 + indicator a a).
  now apply edits_substitute.
Qed.

Lemma edits_zero s t n : edits s t n -> n = 0 -> s = t.
Proof.
  induction 1 as [|a s t n H IH|b s t n H IH|a b s t n H IH]; intros E;
    try discriminate; [reflexivity|].
  assert (n = 0) by lia. assert (indicator a b = 0) by lia.
  f_equal; [now apply indicator_zero | auto].
Qed.

Lemma edits_lengths s t n :
  edits s t n -> List.length s <= List.length t + n /\ List.length t <= List.length s + n.
Proof.
  induction 1 as [|a s t n H IH|b s t n H IH|a b s t n H IH]; cbn [List.length]; lia.
Qed.

Lemma edits_within_max s : forall t,
  exists n, n <= Nat.max (List.length s) (List.length t) /\ edits s t n.
Proof.
  induction s as [|a s IH]; intros t.
  - exists (List.length t). split; [cbn; lia | apply edits_insert_all].
  - destruct t as [|b t].
    + exists (List.length (a :: s)). split; [lia | apply edits_delete_all].
    + destruct (IH t) as (n & Hn & He).
      exists (n + indicator a b). split; [|now apply edits_substitute].
      cbn [List.length]. unfold indicator. destruct (Ascii.eqb a b); lia.
Qed.

(** Edit scripts compose, at no more than the sum of their costs. *)
Lemma edits_compose s t n :
  edits s t n -> forall u m, edits t u m -> exists k, k <= n + m /\ edits s u k.
Proof.
  induction 1 as [|a s t n H IH|b s t n H IH|a b s t n H IH]; intros u m Hu.
  - exists m. split; [lia | assumption].
  - destruct (IH u m Hu) as (k & Hk & He).
    exists (S k). split; [lia | now apply edits_delete].
  - remember (b :: t) as bt eqn:Ebt.
    induction Hu as [|b' t' u m Hu IHu|c t' u m Hu IHu|b' c t' u m Hu IHu].
    + discriminate.
    + inversion Ebt; subst. destruct (IH u m Hu) as (k & Hk & He).
      exists k. split; [lia | assumption].
    + destruct (IHu Ebt) as (k & Hk & He).
      exists (S k). split; [lia | now apply edits_insert].
    + inversion Ebt; subst. destruct (IH u m Hu) as (k & Hk & He).
      exists (S k). split; [lia | now apply edits_insert].
  - remember (b :: t) as bt eqn:Ebt.
    induction Hu as [|b' t' u m Hu IHu|c t' u m Hu IHu|b' c t' u m Hu IHu].
    + discriminate.
    + inversion Ebt; subst. destruct (IH u m Hu) as (k & Hk & He).
      exists (S k). split; [lia | now apply edits_delete].
    + destruct (IHu Ebt) as (k & Hk & He).
      exists (S k). split; [lia | now apply edits_insert].
    + inversion Ebt; subst. destruct (IH u m Hu) as (k & Hk & He).
      exists (k + indicator a c). split; [|now apply edits_substitute].
      pose proof (indicator_triangle a b c). lia.
Qed.

Lemma chars_inj s t : chars s = chars t -> s = t.
Proof.
  revert t. induction s as [|a s IH]; intros [|b t]; cbn [chars]; try discriminate.
  - reflexivity.
  - intros H. inversion H. f_equal. auto.
Qed.

Lemma levenshteinDistance_lev s t : levenshteinDistance s t = lev (chars s) (chars t).
Proof. apply levenshteinDistance_is_edit_distance. Qed.

(** X11: the distance is a metric bounded by the lengths: it is zero
    exactly between equal strings, symmetric, obeys the triangle
    inequality, is at least the difference of the lengths and at most the
    longer length. *)
Theorem levenshteinDistance_metric (s t u : string) :
  levenshteinDistance s s = 0
  /\ (levenshteinDistance s t = 0 <-> s = t)
  /\ levenshteinDistance s t = levenshteinDistance t s
  /\ levenshteinDistance s u <= levenshteinDistance s t + levenshteinDistance t u
  /\ String.length s - String.length t <= levenshteinDistance s t
  /\ String.length t - String.length s <= levenshteinDistance s t
  /\ levenshteinDistance s t <= Nat.max (String.length s) (String.length t).
Proof.
  rewrite !levenshteinDistance_lev.
  assert (Hrefl : forall x, lev (chars x) (chars x) = 0).
  { intros x. apply Nat.le_0_r. apply lev_least, edits_refl. }
  split; [apply Hrefl|]. split.
  { split.
    - intros H. apply chars_inj. apply (edits_zero (lev_edits _ _)). exact H.
    - intros ->. apply Hrefl. }
  split.
  { apply Nat.le_antisymm; apply lev_least, edits_sym, lev_edits. }
  split.
  { destruct (edits_compose (lev_edits (chars s) (chars t)) (lev_edits (chars t) (chars u)))
      as (k & Hk & He).
    apply lev_least in He. lia. }
  pose proof (edits_lengths (lev_edits (chars s) (chars t))) as [H1 H2].
  rewrite !chars_length in H1, H2.
  split; [lia|]. split; [lia|].
  destruct (edits_within_max (chars s) (chars t)) as (n & Hn & He).
  apply lev_least in He. rewrite !chars_length in Hn. lia.
Qed.

Lemma levenshteinDistance_sym s t : levenshteinDistance s t = levenshteinDistance t s.
Proof.
  rewrite !levenshteinDistance_lev.
  apply Nat.le_antisymm; apply lev_least, edits_sym, lev_edits.
Qed.

Lemma shares_common_word_sym f1 f2 :
  shares_common_word f1 f2 = shares_common_word f2 f1.
Proof.
  unfold shares_common_word. induction commonWords as [|w l IH]; [reflexivity|].
  cbn [existsb]. now rewrite IH, andb_comm.
Qed.

(** X12: both similarity scorers are symmetric: the score of [a] against
    [b] is the score of [b] against [a]. *)
Theorem calculateFieldSimilarity_symmetric (a b : string) :
  calculateFieldSimilarity a b = calculateFieldSimilarity b a
  /\ Processor.calculateFieldSimilarity a b = Processor.calculateFieldSimilarity b a.
Proof.
  unfold calculateFieldSimilarity, Processor.calculateFieldSimilarity.
  set (f1 := normalize a). set (f2 := normalize b).
  rewrite (String.eqb_sym f2 f1), (orb_comm (Str.includes f2 f1)),
    (shares_common_word_sym f2 f1).
  rewrite (levenshteinDistance_sym f2 f1), (Nat.max_comm (String.length f2)).
  split; reflexivity.
Qed.

Lemma Qnat_pos n : 0 < n -> (0 < Qnat n)%Q.
Proof.
  intros H. unfold Qnat. change 0%Q with (inject_Z 0). rewrite <- Zlt_Qlt. lia.
Qed.

(** The edit-distance fallback between different strings lies in [0, 1). *)
Lemma fallback_bounds f1 f2 :
  f1 <> f2 ->
  (0 <= Qmax 0 (1 - Qnat (levenshteinDistance f1 f2)
                    / Qnat (Nat.max (String.length f1) (String.length f2))))%Q
  /\ (Qmax 0 (1 - Qnat (levenshteinDistance f1 f2)
                   / Qnat (Nat.max (String.length f1) (String.length f2))) < 1)%Q.
Proof.
  intros E.
  set (d := levenshteinDistance f1 f2).
  set (m := Nat.max (String.length f1) (String.length f2)).
  assert (Hd : 0 < d).
  { destruct (Nat.eq_dec d 0) as [H0|]; [|lia]. exfalso. apply E.
    unfold d in H0. rewrite levenshteinDistance_lev in H0.
    apply chars_inj. apply (edits_zero (lev_edits _ _)). exact H0. }
  assert (Hm : d <= m).
  { unfold d, m. rewrite levenshteinDistance_lev.
    destruct (edits_within_max (chars f1) (chars f2)) as (n & Hn & He).
    apply lev_least in He. rewrite !chars_length in Hn. lia. }
  assert (Hq : (0 < Qnat d / Qnat m)%Q).
  { apply Qlt_shift_div_l; [apply Qnat_pos; lia|].
    rewrite Qmult_0_l. now apply Qnat_pos. }
  split; [apply Q.le_max_l|]. apply Q.max_lub_lt; lra.
Qed.

Lemma calculateFieldSimilarity_bounds a b :
  (0 <= calculateFieldSimilarity a b)%Q /\ (calculateFieldSimilarity a b <= 1)%Q.
Proof.
  unfold calculateFieldSimilarity.
  set (f1 := normalize a). set (f2 := normalize b).
  destruct (String.eqb f1 f2) eqn:E; [split; lra|].
  apply String.eqb_neq in E.
  destruct (Str.includes f1 f2 || Str.includes f2 f1); [split; lra|].
  destruct (shares_common_word f1 f2); [split; lra|].
  cbv zeta. destruct (fallback_bounds E). split; lra.
Qed.

(** X13: the generator's score always lies between 0 and 1, and it is 1
    exactly when the two names are equal after normalisation; no other
    pair, however close, reaches the score of an exact match. *)
Theorem calculateFieldSimilarity_range (a b : string) :
  (0 <= calculateFieldSimilarity a b)%Q
  /\ (calculateFieldSimilarity a b <= 1)%Q
  /\ ((calculateFieldSimilarity a b == 1)%Q <-> normalize a = normalize b).
Proof.
  destruct (calculateFieldSimilarity_bounds a b) as [H0 H1].
  split; [assumption|]. split; [assumption|].
  unfold calculateFieldSimilarity.
  set (f1 := normalize a). set (f2 := normalize b).
  destruct (String.eqb f1 f2) eqn:E.
  { apply String.eqb_eq in E. split; auto; reflexivity. }
  apply String.eqb_neq in E.
  destruct (Str.includes f1 f2 || Str.includes f2 f1).
  { split; [lra | intros; contradiction]. }
  destruct (shares_common_word f1 f2).
  { split; [lra | intros; contradiction]. }
  cbv zeta. destruct (fallback_bounds E) as [_ Hlt].
  split; [|intros; contradiction].
  intros H. rewrite H in Hlt. lra.
Qed.

End MetricFacts.


(* ================================================================== *)
(** ** The shape of what [parseCommand] returns *)
(* ================================================================== *)

Section ParserShape.
Import Parser.

Lemma first_match_In s ps ty e :
  first_match s ps = Some (ty, e) -> exists p, In p ps /\ ptype p = ty.
Proof.
  induction ps as [|p ps IH]; cbn [first_match]; [discriminate|].
  destruct (Regex.search (pattern p) s).
  - intros H. inversion H. exists p. split; [now left | reflexivity].
  - intros H. destruct (IH H) as (q & Hq & Hty). exists q. split; [now right | assumption].
Qed.

Lemma first_match_known s ty e :
  first_match s COMMAND_PATTERNS = Some (ty, e) -> ty <> unknown.
Proof.
  intros H. destruct (first_match_In _ _ H) as (p & Hp & <-).
  cbn in Hp. repeat (destruct Hp as [<-|Hp]; [discriminate|]). destruct Hp.
Qed.

Lemma build_result_shape command fields ty e :
  let r := build_result command fields ty e in
  exists c, Parser.command r = Some c
    /\ type c = ty /\ originalCommand c = command
    /\ reasoning c = None /\ mappingId c = None /\ parameters c = None
    /\ transformationType c = e_transformationType e
    /\ ((parse_confidence r = (9 # 10)%Q /\ ambiguities r = [])
        \/ (parse_confidence r = (6 # 10)%Q /\ ambiguities r <> [])).
Proof.
  unfold build_result.
  destruct (resolve_field "Source" _ _) as [[src amb_s] sug_s].
  destruct (resolve_field "Target" _ _) as [[tgt amb_t] sug_t].
  destruct (resolve_confidence _) as [conf amb_c].
  cbv zeta. eexists. split; [reflexivity|].
  cbn [type originalCommand reasoning mappingId parameters transformationType
       parse_confidence ambiguities].
  repeat (split; [reflexivity|]).
  destruct (amb_s ++ amb_t ++ amb_c); cbn; [left | right]; split; congruence.
Qed.

(** X14: the result of [parseCommand] has one of four confidences,
    and the confidence tells its shape: 0 exactly when there is no
    command, 0.3 exactly when the command is of type unknown (no pattern
    matched but a field name occurs), 0.9 exactly when there is no
    ambiguity.  A command carries the instruction verbatim and never a
    reasoning, a mapping id or parameters; an unknown one has no fields. *)
Theorem parseCommand_shape (command : string) (fields : AvailableFields) :
  let r := parseCommand command fields in
  (parse_confidence r = 0%Q \/ parse_confidence r = (3 # 10)%Q
   \/ parse_confidence r = (6 # 10)%Q \/ parse_confidence r = (9 # 10)%Q)
  /\ (Parser.command r = None <-> parse_confidence r = 0%Q)
  /\ (ambiguities r = [] <-> parse_confidence r = (9 # 10)%Q)
  /\ (forall c, Parser.command r = Some c ->
        originalCommand c = command
        /\ reasoning c = None /\ mappingId c = None /\ parameters c = None
        /\ (type c = unknown <-> parse_confidence r = (3 # 10)%Q)
        /\ (type c = unknown ->
            sourceField c = None /\ targetField c = None
            /\ transformationType c = None /\ confidence c = None)).
Proof.
  unfold parseCommand.
  destruct (first_match _ COMMAND_PATTERNS) as [[ty e]|] eqn:Em.
  - pose proof (first_match_known _ Em) as Hty.
    destruct (build_result_shape command fields ty e)
      as (c & Hc & Hct & Ho & Hr & Hi & Hp & _ & Hconf).
    cbv zeta in *. rewrite Hc.
    destruct Hconf as [[-> Ha]|[-> Ha]].
    + split; [auto|]. split; [split; discriminate|].
      split; [split; auto|].
      intros c' Hc'. inversion Hc'; subst c'.
      repeat (split; [assumption|]). rewrite Hct.
      split; [split; [contradiction|discriminate]|contradiction].
    + split; [auto|]. split; [split; discriminate|].
      split; [split; [contradiction|discriminate]|].
      intros c' Hc'. inversion Hc'; subst c'.
      repeat (split; [assumption|]). rewrite Hct.
      split; [split; [contradiction|discriminate]|contradiction].
  - destruct (0 <? List.length (extractFieldMentions command fields));
      cbn [Parser.command parse_confidence ambiguities].
    + split; [auto|]. split; [split; discriminate|].
      split; [split; discriminate|].
      intros c' Hc'. inversion Hc'; subst c'. cbn. repeat split.
    + split; [auto|]. split; [split; reflexivity|].
      split; [split; discriminate|].
      intros c' Hc'. discriminate.
Qed.

Section Dispatch.
Import Processor.
Context {api : MappingStoreApi}.

(** X15: [processInstruction] executes the parsed command at once
    exactly when a pattern matched without ambiguity; the command is then
    never of type unknown.  Every other instruction, a matched one with an
    ambiguity included, goes to [aiEnhancedProcessing]. *)
Theorem processInstruction_dispatch (instruction : string) (context : Context) :
  let r := parseCommand instruction (fields_of context) in
  (ambiguities r = [] ->
     exists c, Parser.command r = Some c /\ type c <> unknown
       /\ processInstruction instruction context
          = executeCommand c (currentMappings context))
  /\ (ambiguities r <> [] ->
     processInstruction instruction context
     = aiEnhancedProcessing instruction context).
Proof.
  cbv zeta. unfold processInstruction, parseCommand.
  destruct (first_match _ COMMAND_PATTERNS) as [[ty e]|] eqn:Em.
  - pose proof (first_match_known _ Em) as Hty.
    destruct (build_result_shape instruction (fields_of context) ty e)
      as (c & Hc & Hct & _ & _ & _ & _ & _ & Hconf).
    cbv zeta in *. rewrite Hc.
    destruct Hconf as [[-> Ha]|[-> Ha]]; split; intros H; try contradiction.
    + exists c. rewrite Hct. repeat split; assumption.
    + reflexivity.
  - destruct (0 <? List.length (Parser.extractFieldMentions instruction (fields_of context)));
      cbn [Parser.command parse_confidence ambiguities];
      split; intros H; try discriminate; reflexivity.
Qed.

End Dispatch.

(* ------------------------------------------------------------------ *)
(** *** Confidence values *)



(* ------------------------------------------------------------------ *)
(** *** Field mentions *)

Lemma dedupe_spec xs : forall seen x,
  In x (dedupe seen xs) <-> In x xs /\ ~ In x seen.
Proof.
  induction xs as [|y xs IH]; intros seen x; cbn [dedupe].
  - cbn. tauto.
  - destruct (Store.includes_id seen y) eqn:E.
    + rewrite IH. apply includes_id_In in E. cbn [In].
      split; [tauto|]. intros [[<-|H] Hn]; [contradiction|tauto].
    + assert (Hy : ~ In y seen).
      { intros H. apply includes_id_In in H. congruence. }
      cbn [In]. rewrite IH. cbn [In].
      destruct (String.string_dec y x) as [<-|Hne]; tauto.
Qed.

Lemma dedupe_NoDup xs : forall seen, NoDup (dedupe seen xs).
Proof.
  induction xs as [|y xs IH]; intros seen; cbn [dedupe]; [constructor|].
  destruct (Store.includes_id seen y); [apply IH|].
  constructor; [|apply IH].
  rewrite dedupe_spec. cbn [In]. tauto.
Qed.

(** The field mentions of the parser are exactly the available
    field names, source or target, whose lower-case form occurs in the
    lower-case command, each listed once. *)
Lemma extractFieldMentions_spec (command : string) (fields : AvailableFields) :
  NoDup (extractFieldMentions command fields)
  /\ (forall f, In f (extractFieldMentions command fields) <->
        (In f (source fields) \/ In f (target fields))
        /\ Str.includes (Str.toLowerCase command) (Str.toLowerCase f) = true).
Proof.
  unfold extractFieldMentions. split; [apply dedupe_NoDup|].
  intros f. rewrite dedupe_spec, filter_In, in_app_iff. cbn [In]. tauto.
Qed.

End ParserShape.


(* ================================================================== *)
(** ** What [executeCommand] and [processInstruction] do to the store *)
(* ================================================================== *)

Section ExecutionEffects.
Import Store StoreDefs Parser Processor ProcessorDefs ProcessorDefs2 Fixtures.

(** X17: a command other than [create] whose source field has no
    active mapping in the snapshot fails without calling the store,
    whatever the store is: the world is unchanged and no change is
    reported.  For [delete] the message names the field and the suggestion
    lists the source field of every mapping of the snapshot, active or
    not. *)
Theorem executeCommand_unmapped_source
  (api : MappingStoreApi) (c : MappingCommand)
  (ms : list DynamicMapping) (w : World) :
  type c <> create ->
  (forall src, defined (sourceField c) = Some src -> find_active src ms = None) ->
  exists r,
    executeCommand c ms w = Returned r w
    /\ success r = false /\ appliedChanges r = []
    /\ (type c = delete -> forall src, defined (sourceField c) = Some src ->
          message r = ("❌ No mapping found for " ++ Str.dq ++ src ++ Str.dq)%string
          /\ result_suggestions r =
             Some [ ("Available source fields: "
                       ++ Str.join ", " (map source_field ms))%string ]).
Proof.
  intros Hty Hnone. unfold executeCommand, try_catch, execute_body.
  destruct (type c) eqn:Et; try contradiction;
    repeat match goal with
           | |- context [match defined (sourceField c) with _ => _ end] =>
               let Es := fresh "Es" in
               destruct (defined (sourceField c)) as [src|] eqn:Es;
               [rewrite ?(Hnone src eq_refl)|]
           | |- context [match defined (transformationType c) with _ => _ end] =>
               destruct (defined (transformationType c))
           | |- context [match Parser.confidence c with _ => _ end] =>
               destruct (Parser.confidence c)
           end;
    eexists; (split; [reflexivity|]); (split; [reflexivity|]);
    (split; [reflexivity|]); intros E; try discriminate E;
    intros src' E'; inversion E'; subst; split; reflexivity.
Qed.

Lemma executeCommand_unmapped_source_witness :
  exists r,
    executeCommand (api := failing_store "quota exceeded")
      (delete_command "Delete mapping for b" "b")
      (mappings (store two_on_a)) two_on_a = Returned r two_on_a
    /\ success r = false /\ appliedChanges r = []
    /\ (type (delete_command "Delete mapping for b" "b") = delete ->
        forall src,
          defined (sourceField (delete_command "Delete mapping for b" "b")) = Some src ->
          message r = ("❌ No mapping found for " ++ Str.dq ++ src ++ Str.dq)%string
          /\ result_suggestions r =
             Some [ ("Available source fields: "
                       ++ Str.join ", "
                            (map source_field (mappings (store two_on_a))))%string ]).
Proof.
  apply (@executeCommand_unmapped_source (failing_store "quota exceeded")
           (delete_command "Delete mapping for b" "b")
           (mappings (store two_on_a)) two_on_a).
  - discriminate.
  - intros src E. inversion E. reflexivity.
Defined.

(** Against the zustand store a command returns, a failure leaves the
    world as it was and a success reports exactly one change. *)
Lemma executeCommand_zustand c ms w :
  exists r w',
    executeCommand (api := zustand) c ms w = Returned r w'
    /\ (success r = false -> w' = w /\ appliedChanges r = [])
    /\ (success r = true -> List.length (appliedChanges r) = 1).
Proof.
  unfold executeCommand, try_catch, execute_body.
  destruct (type c);
    repeat match goal with
           | |- context [match defined ?x with _ => _ end] => destruct (defined x)
           | |- context [match Parser.confidence ?x with _ => _ end] =>
               destruct (Parser.confidence x)
           | |- context [match find_active ?a ?b with _ => _ end] =>
               destruct (find_active a b)
           end;
    unfold bind, ret; cbn [api_updateMapping api_addMapping api_removeMapping zustand];
    try match goal with
        | |- context [Store.addMapping ?n ?w] => destruct (Store.addMapping n w)
        end;
    eexists _, _; (split; [reflexivity|]);
    cbn [success appliedChanges plain could_not_execute List.length];
    split; intros H; try discriminate; auto.
Qed.

Lemma execute_all_zustand cs ms : forall w,
  exists rs w',
    execute_all (api := zustand) cs ms w = Returned rs w'
    /\ (Forall (fun r => success r = false) rs -> w' = w)
    /\ Forall (fun r => (success r = false -> appliedChanges r = [])
                        /\ (success r = true -> appliedChanges r <> [])) rs.
Proof.
  induction cs as [|c cs IH]; intros w.
  - exists [], w. repeat split; constructor.
  - destruct (executeCommand_zustand c ms w) as (r & w1 & Hr & Hf & Ht).
    destruct (IH w1) as (rs & w' & Hrs & Hfs & Hall).
    exists (r :: rs), w'. split; [|split].
    + cbn [execute_all]. unfold bind at 1. rewrite Hr.
      unfold bind. rewrite Hrs. reflexivity.
    + intros H. inversion H; subst. destruct (Hf H2) as [-> _]. auto.
    + constructor; [|assumption]. split; [apply Hf|].
      intros H E. specialize (Ht H). rewrite E in Ht. discriminate.
Qed.

Lemma bulk_map_unchanged instruction targets sources : forall w,
  exists changes w',
    bulk_map (api := zustand) instruction sources targets w = Returned changes w'
    /\ (changes = [] -> w' = w).
Proof.
  induction sources as [|s sources IH]; intros w; cbn [bulk_map].
  - exists [], w. split; [reflexivity | auto].
  - destruct (findBestFieldMatch s targets) as [[field|] score]; [|apply IH].
    destruct (Qgt_bool score (6 # 10)); [|apply IH].
    unfold bind at 1. cbn [api_addMapping zustand].
    destruct (Store.addMapping _ w) as [ident w1].
    destruct (IH w1) as (changes & w' & Hrun & _).
    unfold bind, ret. rewrite Hrun.
    eexists _, _. split; [reflexivity|]. discriminate.
Qed.

Lemma bulk_remove_unchanged l : forall w,
  exists changes w',
    bulk_remove (api := zustand) l w = Returned changes w'
    /\ (changes = [] -> w' = w).
Proof.
  induction l as [|m l IH]; intros w; cbn [bulk_remove].
  - exists [], w. split; [reflexivity | auto].
  - unfold bind at 1. cbn [api_removeMapping zustand].
    destruct (IH (removeMapping (id m) w)) as (changes & w' & Hrun & _).
    unfold bind, ret. rewrite Hrun.
    eexists _, _. split; [reflexivity|]. discriminate.
Qed.

Lemma length_zero_nil {A} (l : list A) : (0 <? List.length l) = false -> l = [].
Proof. destruct l; [reflexivity | discriminate]. Qed.

Lemma filter_success_none rs :
  filter success rs = [] -> Forall (fun r => success r = false) rs.
Proof.
  induction rs as [|r rs IH]; cbn [filter]; [constructor|].
  destruct (success r) eqn:E; [discriminate|]. intros H. constructor; auto.
Qed.

Lemma flat_map_nil {A B} (f : A -> list B) l :
  flat_map f l = [] -> Forall (fun x => f x = []) l.
Proof.
  induction l as [|x l IH]; cbn [flat_map]; [constructor|].
  intros H. apply app_eq_nil in H. destruct H. constructor; auto.
Qed.

Lemma contextualInterpretation_zustand instruction context w :
  exists r w',
    contextualInterpretation (api := zustand) instruction context w = Returned r w'
    /\ (success r = false -> w' = w)
    /\ (appliedChanges r = [] -> w' = w).
Proof.
  unfold contextualInterpretation.
  destruct (Str.includes _ "all" && Str.includes _ "map").
  { unfold handleBulkMapping, bind, ret.
    destruct (bulk_map_unchanged instruction (targetFields context)
                (firstn maxMappings (sourceFields context)) w)
      as (changes & w' & Hrun & Hnil).
    rewrite Hrun. eexists _, _. split; [reflexivity|].
    cbn [success appliedChanges plain]. split; [|exact Hnil].
    intros H. apply Hnil. now apply length_zero_nil. }
  destruct (Str.includes _ "similar" || Str.includes _ "like").
  { eexists _, _. split; [reflexivity|]. auto. }
  destruct (Str.includes _ "remove" || Str.includes _ "clear").
  { unfold handleBulkRemoval, bind, ret.
    destruct (bulk_remove_unchanged (filter is_active (currentMappings context)) w)
      as (changes & w' & Hrun & Hnil).
    rewrite Hrun. eexists _, _. split; [reflexivity|].
    cbn [success appliedChanges plain]. split; [|exact Hnil].
    intros H. apply Hnil. now apply length_zero_nil. }
  destruct (fst _) as [|s0 ?]; [eexists _, _; split; [reflexivity | auto]|].
  destruct (snd _) as [|t0 ?]; eexists _, _; (split; [reflexivity | auto]).
Qed.

Lemma aiEnhancedProcessing_zustand instruction context w :
  exists r w',
    aiEnhancedProcessing (api := zustand) instruction context w = Returned r w'
    /\ (success r = false -> w' = w)
    /\ (appliedChanges r = [] -> w' = w).
Proof.
  unfold aiEnhancedProcessing.
  destruct (0 <? List.length (extractMultipleCommands instruction context));
    [|apply contextualInterpretation_zustand].
  destruct (execute_all_zustand (extractMultipleCommands instruction context)
              (currentMappings context) w) as (rs & w' & Hrun & Hf & Hall).
  unfold bind, ret. rewrite Hrun. eexists _, _. split; [reflexivity|].
  cbn [success appliedChanges]. split.
  - intros H. apply Hf, filter_success_none. now apply length_zero_nil.
  - intros H. apply Hf. apply flat_map_nil in H.
    rewrite Forall_forall in *. intros r Hr.
    destruct (Hall r Hr) as [_ Ht]. specialize (H r Hr).
    destruct (success r); [|reflexivity]. now destruct (Ht eq_refl).
Qed.

(** X18: against the store of lib/mapping-store, processing an
    instruction always returns a result, and an instruction that fails, or
    that reports no change, leaves the store, the clock and the random
    source exactly as they were: no path changes the store behind a
    failure. *)
Theorem processInstruction_failure_leaves_store
  (instruction : string) (context : Context) (w : World) :
  exists r w',
    processInstruction (api := zustand) instruction context w = Returned r w'
    /\ (success r = false -> w' = w)
    /\ (appliedChanges r = [] -> w' = w).
Proof.
  unfold processInstruction.
  destruct (command (parseCommand instruction (fields_of context))) as [c|];
    [|apply aiEnhancedProcessing_zustand].
  destruct (Qgt_bool _ (6 # 10)); [|apply aiEnhancedProcessing_zustand].
  destruct (executeCommand_zustand c (currentMappings context) w)
    as (r & w' & Hr & Hf & Ht).
  exists r, w'. split; [assumption|]. split.
  - intros H. now destruct (Hf H).
  - intros H. destruct (success r); [|now destruct (Hf eq_refl)].
    specialize (Ht eq_refl). rewrite H in Ht. discriminate.
Qed.

End ExecutionEffects.


(* ================================================================== *)
(** ** Bulk mapping *)
(* ================================================================== *)

Section BulkMappingFacts.
Import Store StoreDefs Parser Processor ProcessorDefs ProcessorDefs2 Fixtures.

Lemma Qgt_bool_true x y : Qgt_bool x y = true <-> (y < x)%Q.
Proof.
  unfold Qgt_bool. rewrite negb_true_iff. split.
  - intros H. apply Qnot_le_lt. intros Hle. apply Qle_bool_iff in Hle. congruence.
  - intros H. destruct (Qle_bool x y) eqn:E; [|reflexivity].
    apply Qle_bool_iff in E. lra.
Qed.

Lemma Qgt_bool_false x y : Qgt_bool x y = false <-> (x <= y)%Q.
Proof.
  unfold Qgt_bool. rewrite negb_false_iff. apply Qle_bool_iff.
Qed.

(** The loop that keeps the best-scoring candidate, from any starting
    point: [findBestFieldMatch] and the generator run it with their own
    scorer. *)
Lemma best_fold (score : string -> Q) targets : forall init,
  let step := fun (best : option string * Q) targetField =>
                if Qgt_bool (score targetField) (snd best)
                then (Some targetField, score targetField) else best in
  let res := fold_left step targets init in
  (snd init <= snd res)%Q
  /\ (forall t, In t targets -> (score t <= snd res)%Q)
  /\ (res = init
      \/ exists t, In t targets
           /\ res = (Some t, score t)
           /\ (snd init < score t)%Q).
Proof.
  cbv zeta. induction targets as [|t targets IH]; intros init; cbn [fold_left].
  - split; [lra|]. split; [intros t []|]. now left.
  - destruct (Qgt_bool _ (snd init)) eqn:E.
    + apply Qgt_bool_true in E.
      destruct (IH (Some t, score t)) as (Hle & Hall & Hres). cbn [snd] in *.
      split; [lra|]. split.
      * intros t' [<-|H]; [assumption | auto].
      * right. destruct Hres as [->|(t' & Hin & -> & Hlt)].
        -- exists t. split; [now left|]. split; [reflexivity | assumption].
        -- exists t'. split; [now right|]. split; [reflexivity | lra].
    + apply Qgt_bool_false in E.
      destruct (IH init) as (Hle & Hall & Hres).
      split; [assumption|]. split.
      * intros t' [<-|H]; [lra | auto].
      * destruct Hres as [->|(t' & Hin & -> & Hlt)]; [now left|].
        right. exists t'. split; [now right|]. split; [reflexivity | assumption].
Qed.

Lemma processor_score_values a b :
  Processor.calculateFieldSimilarity a b = 1%Q
  \/ Processor.calculateFieldSimilarity a b = (8 # 10)%Q
  \/ Processor.calculateFieldSimilarity a b = (6 # 10)%Q
  \/ Processor.calculateFieldSimilarity a b = 0%Q.
Proof.
  unfold Processor.calculateFieldSimilarity.
  destruct (String.eqb _ _); [auto|].
  destruct (_ || _); [auto|].
  destruct (Similarity.shares_common_word _ _); auto.
Qed.

(** X19: [findBestFieldMatch] returns the highest score among the
    targets, never exceeded by any of them.  When some target scores above
    zero the field is a target with exactly that score; when none does, the
    score is 0 and the field is the first target, or undefined when there
    is no target at all. *)
Theorem findBestFieldMatch_spec (sourceField : string) (targets : list string) :
  let best := findBestFieldMatch sourceField targets in
  (forall t, In t targets ->
     (Processor.calculateFieldSimilarity sourceField t <= snd best)%Q)
  /\ (best = (hd_error targets, 0%Q)
      \/ exists t, In t targets
           /\ best = (Some t, Processor.calculateFieldSimilarity sourceField t)
           /\ (0 < Processor.calculateFieldSimilarity sourceField t)%Q)
  /\ (targets = [] -> best = (None, 0%Q)).
Proof.
  cbv zeta. unfold findBestFieldMatch.
  destruct (best_fold (Processor.calculateFieldSimilarity sourceField) targets
              (hd_error targets, 0%Q)) as (_ & Hall & Hres).
  cbv zeta in *. cbn [snd] in *. split; [exact Hall|]. split; [exact Hres|].
  intros ->. reflexivity.
Qed.

Lemma findBestFieldMatch_cases sourceField targets :
  snd (findBestFieldMatch sourceField targets) = 0%Q
  \/ exists t, In t targets
       /\ findBestFieldMatch sourceField targets
          = (Some t, Processor.calculateFieldSimilarity sourceField t)
       /\ (0 < Processor.calculateFieldSimilarity sourceField t)%Q.
Proof.
  unfold findBestFieldMatch.
  destruct (best_fold (Processor.calculateFieldSimilarity sourceField) targets
              (hd_error targets, 0%Q)) as (_ & _ & Hres).
  cbv zeta in Hres. cbn [snd] in Hres.
  destruct Hres as [->|H]; [now left | now right].
Qed.

(** What [bulk_map] adds to the zustand store. *)
Lemma bulk_map_zustand instruction targets sources : forall w,
  exists changes w' news,
    bulk_map (api := zustand) instruction sources targets w = Returned changes w'
    /\ mappings (store w') = mappings (store w) ++ news
    /\ Forall2 reports changes news
    /\ List.length news <= List.length sources
    /\ Forall (fun m =>
                 In (source_field m) sources /\ In (target_field m) targets
                 /\ status m = active /\ user_modified m = true
                 /\ user_command m = Some instruction
                 /\ Store.confidence m
                    = Processor.calculateFieldSimilarity (source_field m) (target_field m)
                 /\ (Store.confidence m = 1%Q \/ Store.confidence m = (8 # 10)%Q))
              news.
Proof.
  induction sources as [|s sources IH]; intros w; cbn [bulk_map].
  - exists [], w, []. rewrite app_nil_r. repeat split; constructor.
  - assert (Hskip :
      exists changes w' news,
        bulk_map (api := zustand) instruction sources targets w = Returned changes w'
        /\ mappings (store w') = mappings (store w) ++ news
        /\ Forall2 reports changes news
        /\ List.length news <= List.length (s :: sources)
        /\ Forall (fun m =>
                 In (source_field m) (s :: sources) /\ In (target_field m) targets
                 /\ status m = active /\ user_modified m = true
                 /\ user_command m = Some instruction
                 /\ Store.confidence m
                    = Processor.calculateFieldSimilarity (source_field m) (target_field m)
                 /\ (Store.confidence m = 1%Q \/ Store.confidence m = (8 # 10)%Q))
              news).
    { destruct (IH w) as (changes & w' & news & Hrun & Hms & Hrep & Hlen & Hall).
      exists changes, w', news. repeat (split; [assumption|]).
      split; [cbn [List.length]; lia|].
      eapply Forall_impl; [|exact Hall]. cbn [In]. intros m H. tauto. }
    destruct (findBestFieldMatch_cases s targets) as [Hund|Hdef].
    + destruct (findBestFieldMatch s targets) as [field score].
      cbn [snd] in Hund. destruct field as [field|]; [|exact Hskip].
      assert (E : Qgt_bool score (6 # 10) = false)
        by (apply Qgt_bool_false; rewrite Hund; lra).
      rewrite E. exact Hskip.
    + destruct Hdef as (t & Hin & -> & Hpos).
      destruct (Qgt_bool _ (6 # 10)) eqn:E; [|exact Hskip].
      apply Qgt_bool_true in E.
      unfold bind at 1. cbn [api_addMapping zustand]. unfold Store.addMapping.
      cbv zeta. cbn [n_source_field n_target_field n_transformation_type
                     n_confidence n_reasoning n_transformation_logic
                     n_potential_issues n_sample_transformation n_status
                     n_user_modified n_original_mapping n_conflict_reason
                     n_user_command].
      match goal with
      | |- context [snd (validateMappings ?x)] => set (w1 := snd (validateMappings x))
      end.
      match goal with
      | _ := snd (validateMappings
                    {| store := {| mappings := _ ++ [?m] |} |}) |- _ =>
          set (new := m) in *
      end.
      destruct (IH w1) as (changes & w' & news & Hrun & Hms & Hrep & Hlen & Hall).
      unfold bind, ret. rewrite Hrun.
      eexists _, w', (new :: news). split; [reflexivity|].
      split; [rewrite Hms; unfold w1; cbn [validateMappings snd with_store store mappings];
              now rewrite <- app_assoc|].
      split; [constructor; [repeat split | assumption]|].
      split; [cbn [List.length]; lia|].
      constructor.
      * cbn [new source_field target_field status user_modified user_command
             Store.confidence In].
        repeat (split; [auto; fail|]).
        destruct (processor_score_values s t) as [H|[H|[H|H]]]; auto;
          rewrite H in E; lra.
      * eapply Forall_impl; [|exact Hall]. cbn [In]. intros m H. tauto.
Qed.

(** X20: bulk mapping against the zustand store looks at the first
    five source fields only and never at the current mappings.  It appends
    one active, user-modified record per reported change, at most five,
    each from one of those source fields to an available target whose
    processor score is above 0.6; that score, which is then 0.8 or 1, is
    the confidence of the record, so a pair that only shares a common word
    is never mapped.  The result succeeds exactly when a record was
    added. *)
Theorem handleBulkMapping_adds
  (instruction : string) (context : Context) (w : World) :
  exists r w' news,
    handleBulkMapping (api := zustand) instruction context w = Returned r w'
    /\ mappings (store w') = mappings (store w) ++ news
    /\ Forall2 reports (appliedChanges r) news
    /\ List.length news <= 5
    /\ success r = (0 <? List.length news)
    /\ Forall (fun m =>
                 In (source_field m) (firstn 5 (sourceFields context))
                 /\ In (target_field m) (targetFields context)
                 /\ status m = active /\ user_modified m = true
                 /\ user_command m = Some instruction
                 /\ Store.confidence m
                    = Processor.calculateFieldSimilarity (source_field m) (target_field m)
                 /\ (Store.confidence m = 1%Q \/ Store.confidence m = (8 # 10)%Q))
              news.
Proof.
  unfold handleBulkMapping, maxMappings.
  destruct (bulk_map_zustand instruction (targetFields context)
              (firstn 5 (sourceFields context)) w)
    as (changes & w' & news & Hrun & Hms & Hrep & Hlen & Hall).
  unfold bind, ret. rewrite Hrun.
  eexists _, w', news. split; [reflexivity|].
  cbn [appliedChanges success plain].
  split; [assumption|]. split; [assumption|].
  split; [rewrite length_firstn in Hlen; lia|].
  split; [now rewrite (Forall2_length Hrep)|]. assumption.
Qed.

End BulkMappingFacts.


(* ================================================================== *)
(** ** Bulk removal *)
(* ================================================================== *)

Section BulkRemovalFacts.
Import Store StoreDefs Processor ProcessorDefs Fixtures.

Lemma bulk_remove_store l : forall w,
  exists w',
    bulk_remove (api := zustand) l w = Returned (map bulk_removed l) w'
    /\ mappings (store w') =
       filter (fun m => negb (includes_id (map id l) (id m))) (mappings (store w))
    /\ conflicts (store w') =
       filter (fun c => negb (existsb (includes_id (affected_mappings c)) (map id l)))
              (conflicts (store w))
    /\ documentId (store w') = documentId (store w)
    /\ tick w' = tick w /\ oracle w' = oracle w.
Proof.
  induction l as [|m l IH]; intros w.
  - exists w. split; [reflexivity|].
    split; [symmetry; apply filter_all; reflexivity|].
    split; [symmetry; apply filter_all; reflexivity|]. repeat split.
  - destruct (IH (removeMapping (id m) w)) as (w' & Hrun & Hms & Hcs & Hdoc & Ht & Ho).
    exists w'. split; [|split; [|split]].
    + cbn [bulk_remove]. unfold bind at 1. cbn [api_removeMapping zustand].
      unfold bind at 1. rewrite Hrun. reflexivity.
    + rewrite Hms. unfold removeMapping. cbn [with_store store mappings].
      rewrite filter_twice. apply filter_ext. intros x.
      unfold includes_id. cbn [map existsb].
      now rewrite negb_orb.
    + rewrite Hcs. unfold removeMapping. cbn [with_store store conflicts].
      rewrite filter_twice. apply filter_ext. intros c.
      cbn [map existsb]. now rewrite negb_orb.
    + rewrite Hdoc, Ht, Ho. repeat split.
Qed.

(** X21: bulk removal against the zustand store removes every record
    that carries the id of an active mapping of the snapshot, reports one
    change of type deleted per such mapping, and keeps only the conflicts
    that name none of them; it reads neither the clock nor the instruction.
    It succeeds exactly when the snapshot has an active mapping.  When the
    snapshot is the content of the store, no active mapping is left. *)
Theorem handleBulkRemoval_removes_active
  (instruction : string) (context : Context) (w : World) :
  let removed := filter is_active (currentMappings context) in
  exists w',
    handleBulkRemoval (api := zustand) instruction context w
    = Returned
        (plain (0 <? List.length removed)
           ("✅ Removed " ++ Str.string_of_nat (List.length removed) ++ " mappings")
           (map bulk_removed removed)) w'
    /\ mappings (store w') =
       filter (fun m => negb (includes_id (map id removed) (id m)))
              (mappings (store w))
    /\ conflicts (store w') =
       filter (fun c => negb (existsb (includes_id (affected_mappings c))
                                      (map id removed)))
              (conflicts (store w))
    /\ tick w' = tick w
    /\ (currentMappings context = mappings (store w) -> exportMappings w' = []).
Proof.
  cbv zeta. unfold handleBulkRemoval.
  destruct (bulk_remove_store (filter is_active (currentMappings context)) w)
    as (w' & Hrun & Hms & Hcs & _ & Ht & _).
  exists w'. unfold bind, ret. rewrite Hrun, !length_map.
  split; [reflexivity|]. split; [assumption|]. split; [assumption|].
  split; [assumption|].
  intros Hsnap. unfold exportMappings. rewrite Hms, Hsnap, filter_twice.
  apply filter_none. intros x Hx.
  destruct (is_active x) eqn:E; [|now rewrite andb_false_r].
  now rewrite (@active_ids_included _ x Hx E).
Qed.

End BulkRemovalFacts.


(* ================================================================== *)
(** ** Commands in sequence *)
(* ================================================================== *)

Section CommandSequences.
Import Store StoreDefs StoreDefs2 Parser TokenDefs Processor ProcessorDefs
       ProcessorDefs2 Fixtures.

Lemma fieldCounts_snoc key ms m :
  fieldCounts key (ms ++ [m]) = count_step key (fieldCounts key ms) m.
Proof. unfold fieldCounts. now rewrite fold_left_app. Qed.

Lemma ids_with_app key f ms ms' :
  ids_with key f (ms ++ ms') = ids_with key f ms ++ ids_with key f ms'.
Proof. unfold ids_with. now rewrite filter_app, map_app. Qed.

Lemma ids_with_none a ms :
  find_active a ms = None -> ids_with source_field a ms = [].
Proof.
  intros H. change (map id (active_on a ms) = []). now rewrite (active_on_none _ _ H).
Qed.

Lemma ids_with_created i a b w :
  ids_with source_field a [created_by i a b w] = [fresh_id w].
Proof.
  unfold ids_with. cbn [filter is_active status source_field created_by Status_eqb andb].
  rewrite String.eqb_refl. reflexivity.
Qed.

(** A [create] command for an unmapped source against the zustand store:
    the record is appended and the store is validated again. *)
Lemma executeCommand_create_validated instruction a b ms w :
  is_token a = true -> is_token b = true ->
  find_active a ms = None ->
  exists w1,
    executeCommand (api := zustand) (create_command instruction a b) ms w =
      Returned (plain true ("✅ Created mapping: " ++ a ++ " → " ++ b)
                  [created_change (fresh_id w) a b]) w1
    /\ mappings (store w1) = mappings (store w) ++ [created_by instruction a b w]
    /\ conflicts (store w1) = detect (mappings (store w1))
    /\ tick w1 = tick w + 4 /\ oracle w1 = oracle w.
Proof.
  intros Ha Hb Hnone. eexists.
  unfold executeCommand, try_catch, execute_body, create_command.
  cbn [type sourceField targetField originalCommand].
  rewrite (@defined_token a Ha), (@defined_token b Hb), Hnone.
  unfold bind, ret. cbn [api_addMapping zustand].
  unfold addMapping. cbn [fst snd].
  split; [reflexivity|]. repeat split.
Qed.

(** X22: two [create] commands for the same unmapped source field,
    executed in one batch, both see the snapshot taken before the batch:
    the second does not find the record the first one added, so two active
    records with that source are appended and the store reports them as a
    duplicate-source conflict. *)
Theorem execute_all_stale_snapshot
  (a b c i1 i2 : string) (ms : list DynamicMapping) (w : World) :
  is_token a = true -> is_token b = true -> is_token c = true ->
  find_active a ms = None ->
  exists w1 w2,
    tick w1 = tick w + 4 /\ oracle w1 = oracle w
    /\ execute_all (api := zustand)
         [create_command i1 a b; create_command i2 a c] ms w
       = Returned
           [ plain true ("✅ Created mapping: " ++ a ++ " → " ++ b)
               [created_change (fresh_id w) a b];
             plain true ("✅ Created mapping: " ++ a ++ " → " ++ c)
               [created_change (fresh_id w1) a c] ] w2
    /\ mappings (store w2)
       = mappings (store w) ++ [created_by i1 a b w; created_by i2 a c w1]
    /\ duplicate_source_for a (conflicts (store w2))
       = [ source_conflict a
             (ids_with source_field a (mappings (store w))
                ++ [fresh_id w; fresh_id w1]) ].
Proof.
  intros Ha Hb Hc Hnone.
  destruct (@executeCommand_create_validated i1 a b ms w Ha Hb Hnone)
    as (w1 & Hrun1 & Hms1 & _ & Ht1 & Ho1).
  destruct (@executeCommand_create_validated i2 a c ms w1 Ha Hc Hnone)
    as (w2 & Hrun2 & Hms2 & Hcs2 & _ & _).
  exists w1, w2. split; [assumption|]. split; [assumption|].
  split; [|split].
  - cbn [execute_all]. unfold bind, ret. rewrite Hrun1. cbv beta iota.
    rewrite Hrun2. reflexivity.
  - rewrite Hms2, Hms1, <- app_assoc. reflexivity.
  - rewrite Hcs2, detect_duplicate_source.
    rewrite Hms2, Hms1, !ids_with_app, !ids_with_created.
    rewrite <- app_assoc. cbn [app].
    rewrite length_app. cbn [List.length].
    replace (1 <? _) with true by (symmetry; apply Nat.ltb_lt; lia).
    reflexivity.
Qed.

Lemma execute_all_stale_snapshot_witness :
  exists w1 w2,
    tick w1 = tick empty_world + 4 /\ oracle w1 = oracle empty_world
    /\ execute_all (api := zustand)
         [create_command "Map id to user_id" "id" "user_id";
          create_command "map id to account_id" "id" "account_id"]
         [] empty_world
       = Returned
           [ plain true ("✅ Created mapping: " ++ "id" ++ " → " ++ "user_id")
               [created_change (fresh_id empty_world) "id" "user_id"];
             plain true ("✅ Created mapping: " ++ "id" ++ " → " ++ "account_id")
               [created_change (fresh_id w1) "id" "account_id"] ] w2
    /\ mappings (store w2)
       = mappings (store empty_world)
           ++ [created_by "Map id to user_id" "id" "user_id" empty_world;
               created_by "map id to account_id" "id" "account_id" w1]
    /\ duplicate_source_for "id" (conflicts (store w2))
       = [ source_conflict "id"
             (ids_with source_field "id" (mappings (store empty_world))
                ++ [fresh_id empty_world; fresh_id w1]) ].
Proof.
  apply (@execute_all_stale_snapshot "id" "user_id" "account_id"
           "Map id to user_id" "map id to account_id" [] empty_world);
    reflexivity.
Defined.

(* ------------------------------------------------------------------ *)
(** *** Creating a mapping and deleting it again *)

Lemma push_conflicts_without mk newid m :
  (forall k v, affected_mappings (mk k v) = v) ->
  (forall k v, In (k, v) m -> ~ In newid v) ->
  filter (fun c => negb (includes_id (affected_mappings c) newid))
         (push_conflicts mk m) = push_conflicts mk m.
Proof.
  intros Haff. induction m as [|[k v] m IH]; intros Hfresh; [reflexivity|].
  cbn [push_conflicts]. destruct (1 <? List.length v).
  - cbn [filter]. rewrite Haff.
    destruct (includes_id v newid) eqn:E.
    + apply includes_id_In in E. now destruct (Hfresh k v (or_introl eq_refl)).
    + cbn [negb]. f_equal. apply IH. intros k' v' H. apply (Hfresh k' v'). now right.
  - apply IH. intros k' v' H. apply (Hfresh k' v'). now right.
Qed.

Lemma push_conflicts_other_key mk p k m :
  (forall k v, c_id (mk k v) = (p ++ k)%string) ->
  ~ In k (map fst m) ->
  filter (fun c => negb (String.eqb (c_id c) (p ++ k))) (push_conflicts mk m)
  = push_conflicts mk m.
Proof.
  intros Hid. induction m as [|[k0 v0] m IH]; intros Hk; [reflexivity|].
  cbn [map fst In] in Hk. cbn [push_conflicts]. destruct (1 <? List.length v0).
  - cbn [filter]. rewrite Hid, eqb_append_l.
    destruct (String.eqb k0 k) eqn:E; [apply String.eqb_eq in E; tauto|].
    cbn [negb]. f_equal. apply IH. tauto.
  - apply IH. tauto.
Qed.

(** Appending a fresh id under key [k] and dropping the conflicts that name
    it leaves the conflicts of the other keys. *)
Lemma push_conflicts_set_fresh mk p newid k m : forall ex,
  (forall k v, affected_mappings (mk k v) = v) ->
  (forall k v, c_id (mk k v) = (p ++ k)%string) ->
  NoDup (map fst m) ->
  (forall k v, In (k, v) m -> ~ In newid v) ->
  filter (fun c => negb (includes_id (affected_mappings c) newid))
         (push_conflicts mk (map_set k (ex ++ [newid]) m))
  = filter (fun c => negb (String.eqb (c_id c) (p ++ k))) (push_conflicts mk m).
Proof.
  intros ex Haff Hid. induction m as [|[k0 v0] m IH]; intros Hnd Hfresh.
  - cbn [map_set push_conflicts]. destruct (1 <? _); [|reflexivity].
    cbn [filter]. rewrite Haff.
    replace (includes_id (ex ++ [newid]) newid) with true; [reflexivity|].
    symmetry. apply includes_id_In. apply in_or_app. right. now left.
  - cbn [map fst] in Hnd. inversion Hnd as [|? ? Hk0 Hnd']; subst.
    assert (Hfresh' : forall k v, In (k, v) m -> ~ In newid v).
    { intros k' v' H. apply (Hfresh k' v'). now right. }
    cbn [map_set]. destruct (String.eqb k k0) eqn:E.
    + apply String.eqb_eq in E. subst k0.
      cbn [push_conflicts].
      assert (Hl : filter (fun c => negb (includes_id (affected_mappings c) newid))
                     (push_conflicts mk m) = push_conflicts mk m)
        by (now apply push_conflicts_without).
      assert (Hr : filter (fun c => negb (String.eqb (c_id c) (p ++ k)))
                     (push_conflicts mk m) = push_conflicts mk m)
        by (now apply push_conflicts_other_key).
      assert (Hin : includes_id (ex ++ [newid]) newid = true).
      { apply includes_id_In. apply in_or_app. right. now left. }
      destruct (1 <? List.length (ex ++ [newid])), (1 <? List.length v0);
        cbn [filter]; rewrite ?Haff, ?Hid, ?Hin, ?String.eqb_refl; cbn [negb];
        now rewrite Hl, Hr.
    + cbn [push_conflicts]. destruct (1 <? List.length v0).
      * cbn [filter]. rewrite Haff, Hid, eqb_append_l.
        rewrite String.eqb_sym, E. cbn [negb].
        destruct (includes_id v0 newid) eqn:Ein.
        -- apply includes_id_In in Ein.
           now destruct (Hfresh k0 v0 (or_introl eq_refl)).
        -- cbn [negb]. f_equal. now apply IH.
      * now apply IH.
Qed.

Lemma fieldCounts_values key ms k v :
  In (k, v) (fieldCounts key ms) -> v = ids_with key k ms.
Proof.
  intros H. apply In_map_get in H; [|apply fieldCounts_NoDup].
  rewrite fieldCounts_get in H. destruct (ids_with key k ms); congruence.
Qed.

Lemma fieldCounts_fresh key ms newid k v :
  ~ In newid (map id ms) -> In (k, v) (fieldCounts key ms) -> ~ In newid v.
Proof.
  intros Hfresh H Hin. apply fieldCounts_values in H. subst v.
  apply ids_with_active in Hin. destruct Hin as (m & Hm & <- & _).
  apply Hfresh. now apply in_map.
Qed.

(** The conflicts left when a fresh active record is appended, the store
    validated, and the record removed again. *)
Lemma detect_append_remove ms m :
  is_active m = true ->
  ~ In (id m) (map id ms) ->
  ids_with source_field (source_field m) ms = [] ->
  filter (fun c => negb (includes_id (affected_mappings c) (id m)))
         (detect (ms ++ [m]))
  = filter (fun c => negb (for_target (target_field m) c)) (detect ms).
Proof.
  intros Hact Hfresh Hsrc. unfold detect. rewrite !filter_app, !fieldCounts_snoc.
  unfold count_step. rewrite Hact. f_equal.
  - rewrite (@push_conflicts_set_fresh source_conflict "conflict-duplicate-source-"
               (id m) (source_field m) (fieldCounts source_field ms));
      try reflexivity;
      [|apply fieldCounts_NoDup|intros k v; now apply fieldCounts_fresh].
    assert (Hk : ~ In (source_field m) (map fst (fieldCounts source_field ms))).
    { apply map_get_none_keys. rewrite fieldCounts_get, Hsrc. reflexivity. }
    rewrite push_conflicts_other_key by (try reflexivity; assumption).
    symmetry. apply filter_all. intros c Hc.
    apply push_conflicts_In in Hc. destruct Hc as (k & v & _ & -> & _). reflexivity.
  - rewrite (@push_conflicts_set_fresh target_conflict "conflict-duplicate-target-"
               (id m) (target_field m) (fieldCounts target_field ms));
      try reflexivity;
      [|apply fieldCounts_NoDup|intros k v; now apply fieldCounts_fresh].
    apply filter_ext_in. intros c Hc.
    apply push_conflicts_In in Hc. destruct Hc as (k & v & _ & -> & _).
    rewrite for_target_target. cbn [c_id target_conflict].
    now rewrite eqb_append_l.
Qed.

(** X23: creating a mapping for an unmapped source field and then
    deleting it, each command on the current snapshot, restores the list of
    mappings.  The conflicts are not those of the restored list: every
    duplicate-target conflict on the target of the deleted record is gone,
    also when older mappings still share that target; the other conflicts
    are the ones validation finds. *)
Theorem create_then_delete_restores
  (a b i1 i2 : string) (w : World) :
  is_token a = true -> is_token b = true ->
  find_active a (mappings (store w)) = None ->
  ~ In (fresh_id w) (map id (mappings (store w))) ->
  exists w1 w2,
    executeCommand (api := zustand) (create_command i1 a b)
      (mappings (store w)) w
    = Returned (plain true ("✅ Created mapping: " ++ a ++ " → " ++ b)
                  [created_change (fresh_id w) a b]) w1
    /\ executeCommand (api := zustand) (delete_command i2 a)
         (mappings (store w1)) w1
       = Returned (plain true ("✅ Deleted mapping for: " ++ a)
                     [deleted_change (fresh_id w) a b]) w2
    /\ mappings (store w2) = mappings (store w)
    /\ conflicts (store w2)
       = filter (fun c => negb (for_target b c)) (detect (mappings (store w))).
Proof.
  intros Ha Hb Hnone Hfresh.
  destruct (@executeCommand_create_validated i1 a b (mappings (store w)) w Ha Hb Hnone)
    as (w1 & Hrun1 & Hms1 & Hcs1 & _ & _).
  set (m1 := created_by i1 a b w) in *.
  assert (Hfind : find_active a (mappings (store w1)) = Some m1).
  { rewrite Hms1. now apply find_active_app_new. }
  exists w1, (removeMapping (fresh_id w) w1).
  split; [assumption|]. split; [|split].
  - unfold executeCommand, try_catch, execute_body, delete_command.
    cbn [type sourceField]. rewrite (@defined_token a Ha), Hfind.
    reflexivity.
  - unfold removeMapping. cbn [with_store store mappings]. rewrite Hms1, filter_app.
    cbn [filter id m1 created_by]. rewrite String.eqb_refl. cbn [negb].
    rewrite app_nil_r. apply filter_all. intros m Hm.
    apply negb_true_iff, String.eqb_neq. intros E. apply Hfresh.
    rewrite <- E. now apply in_map.
  - unfold removeMapping. cbn [with_store store conflicts]. rewrite Hcs1, Hms1.
    apply (@detect_append_remove (mappings (store w)) m1); [reflexivity|assumption|].
    now apply ids_with_none.
Qed.

Lemma create_then_delete_restores_witness :
  exists w1 w2,
    executeCommand (api := zustand) (create_command "Map b to x" "b" "x")
      (mappings (store two_on_a)) two_on_a
    = Returned (plain true ("✅ Created mapping: " ++ "b" ++ " → " ++ "x")
                  [created_change (fresh_id two_on_a) "b" "x"]) w1
    /\ executeCommand (api := zustand) (delete_command "Delete mapping for b" "b")
         (mappings (store w1)) w1
       = Returned (plain true ("✅ Deleted mapping for: " ++ "b")
                     [deleted_change (fresh_id two_on_a) "b" "x"]) w2
    /\ mappings (store w2) = mappings (store two_on_a)
    /\ conflicts (store w2)
       = filter (fun c => negb (for_target "x" c))
                (detect (mappings (store two_on_a))).
Proof.
  apply (@create_then_delete_restores "b" "x" "Map b to x" "Delete mapping for b"
           two_on_a); try reflexivity.
  cbn. intros [H|[H|[]]]; discriminate.
Defined.

End CommandSequences.


(* ================================================================== *)
(** ** The queue of [processUserInstruction] under interleaving *)
(* ================================================================== *)

Section QueueFacts.
Import Processor EventLoop EventLoopDefs.

Lemma remove_nth_In {A} n (l : list A) x : In x (remove_nth n l) -> In x l.
Proof.
  revert l. induction n as [|n IH]; intros [|y l]; cbn [remove_nth In]; auto.
  intros [H|H]; auto.
Qed.

(** X24: in every state the processor can reach, whatever the
    interleaving of calls, completions, failures and timers, at most one
    call is past the guard, the flag is set exactly while one is, and the
    instruction of that call is still in the queue. *)
Theorem processing_invariant (s : State) :
  reachable s ->
  List.length (inflight s) <= 1
  /\ (isProcessing (inst s) = true <-> inflight s <> [])
  /\ (forall c, In c (inflight s) ->
        In (call_instruction c) (processingQueue (inst s))).
Proof.
  intros Hreach.
  destruct (single_flight Hreach) as [Hlen Hflag].
  split; [assumption|]. split; [assumption|]. clear Hlen Hflag.
  assert (Hinvoke : forall i c s0,
            (forall c0, In c0 (inflight s0) ->
               In (call_instruction c0) (processingQueue (inst s0))) ->
            forall c0, In c0 (inflight (snd (invoke i c s0))) ->
               In (call_instruction c0) (processingQueue (inst (snd (invoke i c s0))))).
  { intros i c s0 H c0. unfold invoke, enter.
    destruct (isProcessing (inst s0));
      cbn [snd inst inflight processingQueue]; intros Hin.
    - apply in_or_app. left. auto.
    - apply in_app_or in Hin. apply in_or_app. destruct Hin as [Hin|[<-|[]]].
      + left. auto.
      + right. now left. }
  induction Hreach as [|s e s' Hreach IH Hstep]; [intros c []|].
  destruct e as [i c|n completed|]; cbn [step] in Hstep.
  - inversion Hstep; subst. now apply Hinvoke.
  - unfold settle in Hstep.
    destruct (nth_error (inflight s) n) as [c0|] eqn:En; [|discriminate].
    destruct (single_flight Hreach) as [Hlen _].
    assert (Hone : inflight s = [c0]).
    { destruct (inflight s) as [|x [|y l]]; cbn [List.length] in Hlen; try lia.
      - destruct n; discriminate.
      - destruct n as [|n]; cbn in En; [now inversion En | destruct n; discriminate]. }
    assert (Hn : n = 0).
    { rewrite Hone in En. destruct n as [|n]; [reflexivity | destruct n; discriminate]. }
    subst n. unfold leave in Hstep. inversion Hstep; subst s'.
    cbn [inflight]. rewrite Hone. cbn [remove_nth]. intros c [].
  - unfold fire in Hstep. destruct (timers s) as [|t rest]; [discriminate|].
    inversion Hstep; subst s'. apply Hinvoke. exact IH.
Qed.

Lemma processing_invariant_witness :
  let s := snd (invoke "Map a to b"
                  {| sourceFields := ["a"]; targetFields := ["b"];
                     currentMappings := []; conversationHistory := None |}
                  start) in
  List.length (inflight s) <= 1
  /\ (isProcessing (inst s) = true <-> inflight s <> [])
  /\ (forall c, In c (inflight s) ->
        In (call_instruction c) (processingQueue (inst s))).
Proof.
  apply processing_invariant.
  apply (@reach_step start
           (Invoke "Map a to b"
              {| sourceFields := ["a"]; targetFields := ["b"];
                 currentMappings := []; conversationHistory := None |}));
    [apply reach_start | reflexivity].
Defined.

(** X25: an instruction that arrives while another is processed is
    answered with the wait message and run later by the timer, with the
    context of the call that finished, not with its own. *)
Theorem queued_instruction_gets_finishing_context
  (i1 i2 : string) (c1 c2 : Context) :
  i1 <> i2 ->
  exists s2 s3 s4,
    run [Invoke i1 c1] start = Some s2
    /\ fst (invoke i2 c2 s2) = Some please_wait
    /\ run [Invoke i2 c2; Settle 0 true] s2 = Some s3
    /\ timers s3 = [ {| t_instruction := i2; t_context := c1 |} ]
    /\ inflight s3 = [] /\ isProcessing (inst s3) = false
    /\ fire s3 = Some s4
    /\ inflight s4 = [ {| call_instruction := i2; call_context := c1 |} ]
    /\ processingQueue (inst s4) = [i2; i2]
    /\ timers s4 = [].
Proof.
  intros Hne. apply String.eqb_neq in Hne.
  eexists _, _, _. split; [reflexivity|]. split; [reflexivity|].
  split.
  { cbn. rewrite String.eqb_refl, String.eqb_sym, Hne. reflexivity. }
  cbn. repeat split.
Qed.

Lemma queued_instruction_gets_finishing_context_witness :
  exists s2 s3 s4,
    run [Invoke "Map a to b"
           {| sourceFields := ["a"]; targetFields := ["b"];
              currentMappings := []; conversationHistory := None |}] start
    = Some s2
    /\ fst (invoke "Map c to d"
              {| sourceFields := ["c"]; targetFields := ["d"];
                 currentMappings := []; conversationHistory := None |} s2)
       = Some please_wait
    /\ run [Invoke "Map c to d"
              {| sourceFields := ["c"]; targetFields := ["d"];
                 currentMappings := []; conversationHistory := None |};
            Settle 0 true] s2 = Some s3
    /\ timers s3
       = [ {| t_instruction := "Map c to d";
              t_context := {| sourceFields := ["a"]; targetFields := ["b"];
                              currentMappings := [];
                              conversationHistory := None |} |} ]
    /\ inflight s3 = [] /\ isProcessing (inst s3) = false
    /\ fire s3 = Some s4
    /\ inflight s4
       = [ {| call_instruction := "Map c to d";
              call_context := {| sourceFields := ["a"]; targetFields := ["b"];
                                 currentMappings := [];
                                 conversationHistory := None |} |} ]
    /\ processingQueue (inst s4) = ["Map c to d"; "Map c to d"]
    /\ timers s4 = [].
Proof.
  apply (@queued_instruction_gets_finishing_context "Map a to b" "Map c to d").
  discriminate.
Defined.

Lemma run_app es1 es2 s :
  run (es1 ++ es2) s =
  match run es1 s with Some s' => run es2 s' | None => None end.
Proof.
  revert s. induction es1 as [|e es1 IH]; intros s; cbn [app run]; [reflexivity|].
  destruct (step e s); [apply IH | reflexivity].
Qed.

Lemma repeat_snoc {A} (x : A) n : repeat x n ++ [x] = repeat x (S n).
Proof. induction n as [|n IH]; cbn [repeat app]; [reflexivity | now rewrite IH]. Qed.

Lemma retries_from instruction context n : forall k,
  run (retries n)
    {| inst := {| processingQueue := repeat instruction (S k); isProcessing := true |};
       inflight := [ {| call_instruction := instruction; call_context := context |} ];
       timers := [] |}
  = Some
    {| inst := {| processingQueue := repeat instruction (S (k + n));
                  isProcessing := true |};
       inflight := [ {| call_instruction := instruction; call_context := context |} ];
       timers := [] |}.
Proof.
  induction n as [|n IH]; intros k.
  - cbn [retries run]. now rewrite Nat.add_0_r.
  - cbn [retries]. rewrite run_app.
    replace (run throw_and_retry _)
      with (Some {| inst := {| processingQueue := repeat instruction (S (S k));
                               isProcessing := true |};
                    inflight := [ {| call_instruction := instruction;
                                     call_context := context |} ];
                    timers := [] |}).
    + rewrite IH. do 4 f_equal. lia.
    + cbn [throw_and_retry run step settle nth_error inflight inst leave
           call_instruction call_context processingQueue timers app remove_nth
           repeat fire invoke enter isProcessing snd t_instruction t_context].
      rewrite repeat_snoc. reflexivity.
Qed.

(** X26: an instruction whose processing throws stays in the queue
    and is invoked again by the timer; as long as it keeps throwing this
    repeats without bound, and every retry adds one more copy of the
    instruction to the queue.  The first time it returns, all the copies
    are dropped at once and nothing more is scheduled. *)
Theorem throwing_instruction_retried (instruction : string) (context : Context) (n : nat) :
  let busy :=
    {| inst := {| processingQueue := repeat instruction (S n);
                  isProcessing := true |};
       inflight := [ {| call_instruction := instruction; call_context := context |} ];
       timers := [] |} in
  run (Invoke instruction context :: retries n) start = Some busy
  /\ settle 0 false busy
     = Some {| inst := {| processingQueue := repeat instruction (S n);
                          isProcessing := false |};
               inflight := [];
               timers := [ {| t_instruction := instruction;
                              t_context := context |} ] |}
  /\ settle 0 true busy = Some start.
Proof.
  cbv zeta. split; [|split].
  - change (Invoke instruction context :: retries n)
      with ([Invoke instruction context] ++ retries n).
    rewrite run_app.
    cbn [run step invoke enter start inst idle isProcessing processingQueue
         app snd inflight timers].
    apply (retries_from instruction context n 0).
  - reflexivity.
  - unfold settle. cbn [nth_error inflight inst leave call_instruction
                        call_context processingQueue timers remove_nth app].
    replace (filter _ (repeat instruction (S n))) with (@nil string); [reflexivity|].
    symmetry. apply filter_none. intros x Hx. apply repeat_spec in Hx. subst.
    now rewrite String.eqb_refl.
Qed.

End QueueFacts.


(* ================================================================== *)
(** ** The sample-mapping generator *)
(* ================================================================== *)

Section GeneratorFacts.
Import Similarity Generator.






(** X28: [generateSampleValue] draws a random number exactly for a
    field whose lower-case name contains id, wherever in the name and
    before any other rule is tried; the value is then a whole number from 0
    to 9999.  For every other field nothing is drawn and the value is
    fixed. *)
Theorem generateSampleValue_draws (fieldName : string) (random : Random) (t : nat) :
  (forall n, (0 <= random n)%Q /\ (random n < 1)%Q) ->
  (Str.includes (Str.toLowerCase fieldName) "id" = true ->
     exists k : Z,
       generateSampleValue fieldName random t = (Num (inject_Z k), S t)
       /\ (0 <= k <= 9999)%Z)
  /\ (Str.includes (Str.toLowerCase fieldName) "id" = false ->
      snd (generateSampleValue fieldName random t) = t
      /\ forall random' t',
           fst (generateSampleValue fieldName random' t')
           = fst (generateSampleValue fieldName random t)).
Proof.
  intros Hrand. unfold generateSampleValue. cbv zeta. split; intros E; rewrite E.
  - eexists. split; [reflexivity|].
    destruct (Hrand t) as [H0 H1].
    split.
    + change 0%Z with (Qfloor (inject_Z 0)) at 1.
      rewrite Qfloor_Z. change 0%Z with (Qfloor 0%Q).
      apply Qfloor_resp_le. nra.
    + assert (Hlt : (inject_Z (Qfloor (random t * 10000)) < inject_Z 10000)%Q).
      { eapply Qle_lt_trans; [apply Qfloor_le|].
        change (inject_Z 10000) with 10000%Q. nra. }
      rewrite <- Zlt_Qlt in Hlt. lia.
  - repeat match goal with
           | |- context [if ?b then _ else _] => destruct b
           end; split; reflexivity.
Qed.

Lemma generateSampleValue_draws_witness :
  (Str.includes (Str.toLowerCase "middle_name") "id" = true ->
     exists k : Z,
       generateSampleValue "middle_name" (fun _ => 1 # 2)%Q 0
       = (Num (inject_Z k), 1)
       /\ (0 <= k <= 9999)%Z)
  /\ (Str.includes (Str.toLowerCase "middle_name") "id" = false ->
      snd (generateSampleValue "middle_name" (fun _ => 1 # 2)%Q 0) = 0
      /\ forall random' t',
           fst (generateSampleValue "middle_name" random' t')
           = fst (generateSampleValue "middle_name" (fun _ => 1 # 2)%Q 0)).
Proof.
  apply (@generateSampleValue_draws "middle_name" (fun _ => 1 # 2)%Q 0).
  intros n. split; reflexivity || (unfold Qle, Qlt; cbn; lia).
Defined.

End GeneratorFacts.


(* ================================================================== *)
(** ** Document processor helpers *)
(* ================================================================== *)

Section DocumentFacts.
Import Document DocumentDefs.

Lemma split_char_nonempty sep s : split_char sep s <> [].
Proof.
  destruct s as [|c s]; cbn [split_char]; [discriminate|].
  destruct (Ascii.eqb c sep); [discriminate|].
  destruct (split_char sep s); discriminate.
Qed.

Lemma split_no_point s : no_point s = true -> split_char "." s = [s].
Proof.
  induction s as [|c s IH]; cbn [no_point split_char]; [reflexivity|].
  intros H. apply andb_true_iff in H. destruct H as [Hc Hs].
  apply negb_true_iff in Hc. rewrite Hc, (IH Hs). reflexivity.
Qed.

Lemma split_app_point base ext :
  no_point ext = true ->
  exists first pieces,
    split_char "." (base ++ String "." ext) = first :: pieces ++ [ext].
Proof.
  intros Hext. induction base as [|c base IH]; cbn [append split_char].
  - rewrite Ascii.eqb_refl, (split_no_point _ Hext). now exists EmptyString, [].
  - destruct IH as (first & pieces & ->).
    destruct (Ascii.eqb c ".").
    + now exists EmptyString, (first :: pieces).
    + now exists (String c first), pieces.
Qed.

Lemma extension_of_point base ext mime :
  no_point ext = true ->
  extension_of {| name := base ++ String "." ext; type := mime |}
  = Str.toLowerCase ext.
Proof.
  intros Hext. unfold extension_of. cbn [name].
  destruct (@split_app_point base ext Hext) as (first & pieces & ->).
  change (first :: pieces ++ [ext]) with ((first :: pieces) ++ [ext]).
  now rewrite last_last.
Qed.

Lemma extension_of_plain n mime :
  no_point n = true ->
  extension_of {| name := n; type := mime |} = Str.toLowerCase n.
Proof.
  intros H. unfold extension_of. cbn [name]. now rewrite (split_no_point _ H).
Qed.

(** X29: the second block of [detectFormat], the fallback on the
    extension, is never reached with a result of its own: the function is
    its first cascade.  The extension is the lower-case text after the last
    point of the name, and the whole name when it has no point, so a file
    called json is a JSON file.  The extension csv, or csv anywhere in the
    MIME type, wins over every other rule, and the function throws exactly
    when neither any extension nor any fragment it knows is found. *)
Theorem detectFormat_first_cascade (file : File) :
  detectFormat file = by_extension_or_mime file
  /\ (forall base ext mime,
        no_point ext = true ->
        extension_of {| name := base ++ String "." ext; type := mime |}
        = Str.toLowerCase ext)
  /\ (forall n mime,
        no_point n = true ->
        extension_of {| name := n; type := mime |} = Str.toLowerCase n)
  /\ (extension_of file = "csv" \/ Str.includes (Str.toLowerCase (type file)) "csv" = true ->
      detectFormat file = Format csv)
  /\ ((exists message, detectFormat file = Unsupported message)
      <-> (forall e, In e ["csv"; "txt"; "json"; "xml"; "xlsx"; "xls"; "pdf";
                           "docx"; "doc"] -> extension_of file <> e)
          /\ (forall fragment,
                In fragment ["csv"; "text/plain"; "json"; "xml"; "spreadsheet";
                             "pdf"; "wordprocessingml"] ->
                Str.includes (Str.toLowerCase (type file)) fragment = false)).
Proof.
  split; [|split; [|split; [|split]]].
  - unfold detectFormat, by_extension_or_mime. cbv zeta.
    by_rules file ltac:(reflexivity). reflexivity.
  - intros base ext mime. apply extension_of_point.
  - intros n mime. apply extension_of_plain.
  - unfold detectFormat. cbv zeta. intros [H|H]; rewrite H; [reflexivity|].
    now rewrite orb_true_r.
  - unfold detectFormat. cbv zeta. split.
    + intros [message H]. revert H.
      by_rules file ltac:(discriminate). intros _.
      split.
      * intros e He. cbn [In] in He. intros E. rewrite E in *.
        repeat (destruct He as [<-|He]; [cbn in *; congruence|]). destruct He.
      * intros fragment Hf. cbn [In] in Hf.
        repeat (destruct Hf as [<-|Hf]; [assumption|]). destruct Hf.
    + intros [Hext Hmime].
      assert (He : forall e, In e ["csv"; "txt"; "json"; "xml"; "xlsx"; "xls";
                                   "pdf"; "docx"; "doc"] ->
                             String.eqb (extension_of file) e = false).
      { intros e H. apply String.eqb_neq. now apply Hext. }
      rewrite !He by (cbn [In]; tauto).
      rewrite !Hmime by (cbn [In]; tauto).
      cbn [orb]. eexists. reflexivity.
Qed.

(* ------------------------------------------------------------------ *)
(** *** Nesting level *)

Lemma is_object_height v : is_object v = true <-> 0 < height v.
Proof. destruct v; cbn [is_object height]; split; intros; try discriminate; lia. Qed.

Lemma is_object_flat v : is_object v = false -> height v = 0.
Proof. destruct v; cbn [is_object height]; intros; try discriminate; reflexivity. Qed.

Lemma nesting_of_items level items :
  Forall (fun v => forall level, calculateNestingLevel v level
                                 = level + Nat.pred (height v)) items ->
  forall acc, level <= acc ->
  fold_left
    (fun maxLevel value =>
       if is_object value
       then Nat.max maxLevel (calculateNestingLevel value (S level))
       else maxLevel) items acc
  = Nat.max acc
      (level + fold_right (fun item a => Nat.max (height item) a) 0 items).
Proof.
  induction 1 as [|v items Hv _ IH]; intros acc Hacc; cbn [fold_left fold_right].
  - lia.
  - destruct (is_object v) eqn:E.
    + apply is_object_height in E. rewrite IH, Hv by lia. lia.
    + apply is_object_flat in E. rewrite IH, E by lia. lia.
Qed.

Lemma nesting_of_members level members :
  Forall (fun member => forall level, calculateNestingLevel (snd member) level
                                      = level + Nat.pred (height (snd member)))
         members ->
  forall acc, level <= acc ->
  fold_left
    (fun maxLevel (member : string * Json) =>
       match member with
       | (_, value) =>
           if is_object value
           then Nat.max maxLevel (calculateNestingLevel value (S level))
           else maxLevel
       end) members acc
  = Nat.max acc
      (level + fold_right
                 (fun (member : string * Json) a =>
                    match member with (_, value) => Nat.max (height value) a end)
                 0 members).
Proof.
  induction 1 as [|[k v] members Hv _ IH]; intros acc Hacc;
    cbn [fold_left fold_right].
  - lia.
  - cbn [snd] in Hv. destruct (is_object v) eqn:E.
    + apply is_object_height in E. rewrite IH, Hv by lia. lia.
    + apply is_object_flat in E. rewrite IH, E by lia. lia.
Qed.

(** X30: [calculateNestingLevel] starts from [level] and adds the
    height of the value less one: a primitive, an empty array and an object
    of primitives all stay at [level], and each further layer of arrays or
    objects adds one.  Arrays count as layers like objects. *)
Theorem calculateNestingLevel_height (obj : Json) (level : nat) :
  calculateNestingLevel obj level = level + Nat.pred (height obj).
Proof.
  revert level. induction obj as [| | | |items IH|members IH] using Json_induction;
    intros level; cbn [calculateNestingLevel height Nat.pred]; try lia.
  - rewrite (nesting_of_items IH) by lia. lia.
  - rewrite (nesting_of_members IH) by lia. lia.
Qed.

End DocumentFacts.
